(** * dbmlRenderer: the diagram renderer of [src/diagram/DiagramRenderer.js]

    A shallow embedding of the three classes of the file ([DiagramRenderer],
    [TableRenderer], [RelationshipRenderer]) and the properties of the
    rendering and interaction engine.

    Conventions of the embedding.
    - A JavaScript number is an exact rational ([Q]); arithmetic is the
      arithmetic of [Q], [Math.max]/[Math.min]/[Math.abs] are [Qmax]/[Qmin]/
      [Qabs], and [!==] on numbers is [negb (Qeq_bool _ _)].  Rounding is
      outside the model.  So are NaN and the infinities of IEEE doubles,
      except for the zoom: the methods that write it are given a second
      time over numbers with NaN and the infinities (module [JsZoom]).
    - Objects that the code mutates in place live in explicit stores: the
      [Map]s [this.tables] and [this.relationships] are insertion-ordered
      association lists, DOM elements live in two heaps (table [<svg>]
      elements and relationship [<path>] elements) and are referred to by
      their index, so that a table record and the layer share one element.
    - Every method is a function from the renderer's state to its new state. *)

From Stdlib Require Import QArith Qminmax Qabs Qround Lqa Lia String Ascii List.
From stdpp Require Import base option list.
Import ListNotations.

Local Open Scope Q_scope.

(** ** Numbers *)

Definition num := Q.

(** [Math.max(a, b)] and [Math.min(a, b)]. *)
Definition Math_max (a b : num) : num := Qmax a b.
Definition Math_min (a b : num) : num := Qmin a b.
Definition Math_abs (a : num) : num := Qabs a.

(** [a !== b] on numbers. *)
Definition num_neq (a b : num) : bool := negb (Qeq_bool a b).

(** [a < b] on numbers. *)
Definition num_lt (a b : num) : bool :=
  match Qlt_le_dec a b with left _ => true | right _ => false end.

(** An array index as a number. *)
Definition of_index (i : nat) : num := inject_Z (Z.of_nat i).

Record Point := mkPoint { px : num; py : num }.

(** ** The geometry of the viewport: zoom and pan *)

(** [this.minZoom], [this.maxZoom]: set once by the constructor. *)
Definition minZoom : num := 0.25.
Definition maxZoom : num := 3.

(** The part of [this.svg] that the handlers read: its bounding rectangle's
    corner and its client size. *)
Record SvgBox := mkSvgBox {
  rect_left : num;
  rect_top : num;
  clientWidth : num;
  clientHeight : num
}.

(** The [transform] attribute written by [updateViewport]:
    [translate(tx, ty) scale(s)]. *)
Record Transform := mkTransform { tr_x : num; tr_y : num; tr_scale : num }.

(** ** The schema handed to [render] *)

Record Field := mkField {
  field_name : string;
  field_pk : bool
}.

(** A table of the schema. [table_id] is the optional numeric [id]
    property; [fields] is always an array. *)
Record Table := mkTable {
  table_id : option Z;
  table_name : string;
  table_fields : list Field
}.

(** A relationship of the schema; every property may be missing. *)
Record Ref := mkRef {
  ref_id : option Z;
  ref_name : option string;
  ref_fromTable : option string;
  ref_fromField : option string;
  ref_toTable : option string;
  ref_toField : option string
}.

Record Schema := mkSchema {
  schema_tables : option (list Table);
  schema_refs : option (list Ref)
}.

(** [dbmlData]: an object whose [schemas] property may be missing; an entry
    of the array may be [null]. *)
Record DbmlData := mkDbmlData {
  schemas : option (list (option Schema))
}.

(** ** Keys of the two [Map]s *)

(** [table.id || table.name] and [ref.id || ref.name]: a non-zero number, a
    string, or [undefined]. *)
Inductive Key :=
| KNum (n : Z)
| KStr (s : string)
| KUndefined.

Definition key_eqb (a b : Key) : bool :=
  match a, b with
  | KNum n, KNum m => Z.eqb n m
  | KStr s, KStr t => String.eqb s t
  | KUndefined, KUndefined => true
  | _, _ => false
  end.

(** Truthiness of an optional string: present and not empty. *)
Definition truthy (s : option string) : bool :=
  match s with
  | Some EmptyString => false
  | Some _ => true
  | None => false
  end.

Definition table_key (t : Table) : Key :=
  match table_id t with
  | Some n => if Z.eqb n 0 then KStr (table_name t) else KNum n
  | None => KStr (table_name t)
  end.

Definition ref_key (r : Ref) : Key :=
  match ref_id r with
  | Some n =>
      if Z.eqb n 0
      then match ref_name r with Some s => KStr s | None => KUndefined end
      else KNum n
  | None => match ref_name r with Some s => KStr s | None => KUndefined end
  end.

(** ** Insertion-ordered [Map] *)

Section JsMap.
Context {V : Type}.

(** [m.set(k, v)]: replaces the value in place when the key is present,
    appends a new entry otherwise. *)
Fixpoint Map_set (k : Key) (v : V) (m : list (Key * V)) : list (Key * V) :=
  match m with
  | [] => [(k, v)]
  | (k', v') :: m' =>
      if key_eqb k k' then (k, v) :: m' else (k', v') :: Map_set k v m'
  end.

(** [m.get(k)]. *)
Fixpoint Map_get (k : Key) (m : list (Key * V)) : option V :=
  match m with
  | [] => None
  | (k', v') :: m' => if key_eqb k k' then Some v' else Map_get k m'
  end.
End JsMap.

(** ** Elements of the DOM *)

Inductive Cursor := Grab | Grabbing | DefaultCursor.

(** The [<svg class="db-table">] element of one table: the attributes and
    styles that the renderer writes after [TableRenderer.render] built it. *)
Record TableElem := mkTableElem {
  el_x : num;
  el_y : num;
  el_width : num;
  el_height : num;
  el_opacity : option num;
  el_dragging : bool;
  el_cursor : Cursor
}.

(** One command of an SVG path: [M x y] or [L x y]. *)
Inductive PathCmd :=
| MoveTo (x y : num)
| LineTo (x y : num).

(** The [d] attribute: [M x0 y0 L x1 y1 ...]. *)
Definition Path := list PathCmd.

(** The [<path class="db-ref__path">] element of one relationship. *)
Record PathElem := mkPathElem {
  path_d : option Path
}.

(** ** Records held by the renderer *)

(** A value of [this.tables]. *)
Record TableData := mkTableData {
  td_table : Table;
  td_element : nat;
  td_x : num;
  td_y : num;
  td_width : num;
  td_height : num
}.

Record RelInfo := mkRelInfo {
  fromTable : string;
  fromField : option string;
  toTable : string;
  toField : option string
}.

(** A [RelationshipRenderer] object. *)
Record RelationshipRenderer := mkRelationshipRenderer {
  rr_ref : Ref;
  rr_element : option nat;
  rr_relInfo : option RelInfo
}.

(** A value of [this.relationships]. *)
Record RelData := mkRelData {
  rd_ref : Ref;
  rd_renderer : RelationshipRenderer;
  rd_element : nat
}.

(** The state of a [DiagramRenderer]: [this.state.zoom], [this.state.pan],
    the two maps, the pan gesture, the observer and its calls, and the DOM
    below [this.svg]. *)
Record Diagram := mkDiagram {
  zoom : num;
  pan : Point;
  isPanning : bool;
  lastPanPoint : Point;
  tables : list (Key * TableData);
  relationships : list (Key * RelData);
  onZoomChange : bool;
  zoom_calls : list num;
  svg : SvgBox;
  svg_cursor : option Cursor;
  viewport_transform : option Transform;
  table_elems : list TableElem;
  path_elems : list PathElem;
  layer_tables : list nat;
  layer_refs : list nat
}.

(** Field updates of the state. *)
Definition set_zoom (d : Diagram) (v : num) : Diagram :=
  mkDiagram v (pan d) (isPanning d) (lastPanPoint d) (tables d)
    (relationships d) (onZoomChange d) (zoom_calls d) (svg d) (svg_cursor d)
    (viewport_transform d) (table_elems d) (path_elems d) (layer_tables d)
    (layer_refs d) .
Definition set_pan (d : Diagram) (v : Point) : Diagram :=
  mkDiagram (zoom d) v (isPanning d) (lastPanPoint d) (tables d)
    (relationships d) (onZoomChange d) (zoom_calls d) (svg d) (svg_cursor d)
    (viewport_transform d) (table_elems d) (path_elems d) (layer_tables d)
    (layer_refs d).
Definition set_isPanning (d : Diagram) (v : bool) : Diagram :=
  mkDiagram (zoom d) (pan d) v (lastPanPoint d) (tables d) (relationships d)
    (onZoomChange d) (zoom_calls d) (svg d) (svg_cursor d)
    (viewport_transform d) (table_elems d) (path_elems d) (layer_tables d)
    (layer_refs d) .
Definition set_lastPanPoint (d : Diagram) (v : Point) : Diagram :=
  mkDiagram (zoom d) (pan d) (isPanning d) v (tables d) (relationships d)
    (onZoomChange d) (zoom_calls d) (svg d) (svg_cursor d)
    (viewport_transform d) (table_elems d) (path_elems d) (layer_tables d)
    (layer_refs d) .
Definition set_tables (d : Diagram) (v : list (Key * TableData)) : Diagram :=
  mkDiagram (zoom d) (pan d) (isPanning d) (lastPanPoint d) v
    (relationships d) (onZoomChange d) (zoom_calls d) (svg d) (svg_cursor d)
    (viewport_transform d) (table_elems d) (path_elems d) (layer_tables d)
    (layer_refs d) .
Definition set_relationships (d : Diagram) (v : list (Key * RelData)) : Diagram :=
  mkDiagram (zoom d) (pan d) (isPanning d) (lastPanPoint d) (tables d) v
    (onZoomChange d) (zoom_calls d) (svg d) (svg_cursor d)
    (viewport_transform d) (table_elems d) (path_elems d) (layer_tables d)
    (layer_refs d) .
Definition set_onZoomChange (d : Diagram) (v : bool) : Diagram :=
  mkDiagram (zoom d) (pan d) (isPanning d) (lastPanPoint d) (tables d)
    (relationships d) v (zoom_calls d) (svg d) (svg_cursor d)
    (viewport_transform d) (table_elems d) (path_elems d) (layer_tables d)
    (layer_refs d).
Definition set_zoom_calls (d : Diagram) (v : list num) : Diagram :=
  mkDiagram (zoom d) (pan d) (isPanning d) (lastPanPoint d) (tables d)
    (relationships d) (onZoomChange d) v (svg d) (svg_cursor d)
    (viewport_transform d) (table_elems d) (path_elems d) (layer_tables d)
    (layer_refs d).
Definition set_svg (d : Diagram) (v : SvgBox) : Diagram :=
  mkDiagram (zoom d) (pan d) (isPanning d) (lastPanPoint d) (tables d)
    (relationships d) (onZoomChange d) (zoom_calls d) v (svg_cursor d)
    (viewport_transform d) (table_elems d) (path_elems d) (layer_tables d)
    (layer_refs d).
Definition set_svg_cursor (d : Diagram) (v : option Cursor) : Diagram :=
  mkDiagram (zoom d) (pan d) (isPanning d) (lastPanPoint d) (tables d)
    (relationships d) (onZoomChange d) (zoom_calls d) (svg d) v
    (viewport_transform d) (table_elems d) (path_elems d) (layer_tables d)
    (layer_refs d).
Definition set_viewport_transform (d : Diagram) (v : option Transform) : Diagram :=
  mkDiagram (zoom d) (pan d) (isPanning d) (lastPanPoint d) (tables d)
    (relationships d) (onZoomChange d) (zoom_calls d) (svg d) (svg_cursor d) v
    (table_elems d) (path_elems d) (layer_tables d) (layer_refs d).
Definition set_table_elems (d : Diagram) (v : list TableElem) : Diagram :=
  mkDiagram (zoom d) (pan d) (isPanning d) (lastPanPoint d) (tables d)
    (relationships d) (onZoomChange d) (zoom_calls d) (svg d) (svg_cursor d)
    (viewport_transform d) v (path_elems d) (layer_tables d) (layer_refs d).
Definition set_path_elems (d : Diagram) (v : list PathElem) : Diagram :=
  mkDiagram (zoom d) (pan d) (isPanning d) (lastPanPoint d) (tables d)
    (relationships d) (onZoomChange d) (zoom_calls d) (svg d) (svg_cursor d)
    (viewport_transform d) (table_elems d) v (layer_tables d) (layer_refs d).
Definition set_layer_tables (d : Diagram) (v : list nat) : Diagram :=
  mkDiagram (zoom d) (pan d) (isPanning d) (lastPanPoint d) (tables d)
    (relationships d) (onZoomChange d) (zoom_calls d) (svg d) (svg_cursor d)
    (viewport_transform d) (table_elems d) (path_elems d) v (layer_refs d).
Definition set_layer_refs (d : Diagram) (v : list nat) : Diagram :=
  mkDiagram (zoom d) (pan d) (isPanning d) (lastPanPoint d) (tables d)
    (relationships d) (onZoomChange d) (zoom_calls d) (svg d) (svg_cursor d)
    (viewport_transform d) (table_elems d) (path_elems d) (layer_tables d) v.

(** ** [DiagramRenderer]: construction *)

(** [new DiagramRenderer(container)]: zoom 1, no pan, empty maps, the SVG
    skeleton with its two empty layers and no [transform] yet. *)
Definition DiagramRenderer_new (box : SvgBox) : Diagram :=
  {| zoom := 1;
     pan := mkPoint 0 0;
     isPanning := false;
     lastPanPoint := mkPoint 0 0;
     tables := [];
     relationships := [];
     onZoomChange := false;
     zoom_calls := [];
     svg := box;
     svg_cursor := None;
     viewport_transform := None;
     table_elems := [];
     path_elems := [];
     layer_tables := [];
     layer_refs := [] |}.

(** The hosting widget registers its observer:
    [renderer.onZoomChange = (zoom) => ...]. *)
Definition register_onZoomChange (d : Diagram) : Diagram :=
  set_onZoomChange d true.

(** ** Coordinate transform *)

Definition updateViewport (d : Diagram) : Diagram :=
  set_viewport_transform d
    (Some (mkTransform (px (pan d)) (py (pan d)) (zoom d))).

(** [if (this.onZoomChange) this.onZoomChange(this.state.zoom)]: the call is
    recorded with its argument. *)
Definition notifyZoomChange (d : Diagram) : Diagram :=
  if onZoomChange d then set_zoom_calls d (zoom_calls d ++ [zoom d]) else d.

Definition screenToWorld (d : Diagram) (screenX screenY : num) : Point :=
  mkPoint ((screenX - px (pan d)) / zoom d) ((screenY - py (pan d)) / zoom d).

Definition worldToScreen (d : Diagram) (worldX worldY : num) : Point :=
  mkPoint (worldX * zoom d + px (pan d)) (worldY * zoom d + py (pan d)).

Definition setZoom (d : Diagram) (z : num) : Diagram :=
  let d1 := set_zoom d (Math_max minZoom (Math_min maxZoom z)) in
  notifyZoomChange (updateViewport d1).

Definition zoomIn (d : Diagram) : Diagram :=
  let newZoom := Math_min maxZoom (zoom d * 1.1) in
  setZoom d newZoom.

Definition zoomOut (d : Diagram) : Diagram :=
  let newZoom := Math_max minZoom (zoom d / 1.1) in
  setZoom d newZoom.

Definition zoomToStandard (d : Diagram) : Diagram := setZoom d 1.

Definition resetZoom (d : Diagram) : Diagram :=
  let d1 := set_zoom d 1 in
  let d2 := set_pan d1 (mkPoint 0 0) in
  notifyZoomChange (updateViewport d2).

(** ** Wheel zoom and pan gesture ([setupZoomPan]) *)

Record WheelEvent := mkWheelEvent {
  wheel_clientX : num;
  wheel_clientY : num;
  wheel_deltaY : num
}.

Record MouseEvent := mkMouseEvent {
  clientX : num;
  clientY : num;
  button : Z;
  shiftKey : bool
}.

Definition zoomFactor (e : WheelEvent) : num :=
  if num_lt 0 (wheel_deltaY e) then 0.95 else 1.05.

(** The listener of ['wheel'] on the SVG. *)
Definition onWheel (d : Diagram) (e : WheelEvent) : Diagram :=
  let mouseX := wheel_clientX e - rect_left (svg d) in
  let mouseY := wheel_clientY e - rect_top (svg d) in
  let newZoom :=
    Math_max minZoom (Math_min maxZoom (zoom d * zoomFactor e)) in
  if num_neq newZoom (zoom d) then
    let zoomPoint := screenToWorld d mouseX mouseY in
    let d1 := set_zoom d newZoom in
    let newScreenPoint := worldToScreen d1 (px zoomPoint) (py zoomPoint) in
    let d2 :=
      set_pan d1 (mkPoint (px (pan d1) + (mouseX - px newScreenPoint))
                          (py (pan d1) + (mouseY - py newScreenPoint))) in
    notifyZoomChange (updateViewport d2)
  else d.

Definition startPan (d : Diagram) (e : MouseEvent) : Diagram :=
  let d1 := set_isPanning d true in
  let d2 := set_lastPanPoint d1 (mkPoint (clientX e) (clientY e)) in
  set_svg_cursor d2 (Some Grabbing).

Definition updatePan (d : Diagram) (e : MouseEvent) : Diagram :=
  if negb (isPanning d) then d
  else
    let deltaX := clientX e - px (lastPanPoint d) in
    let deltaY := clientY e - py (lastPanPoint d) in
    let d1 := set_pan d (mkPoint (px (pan d) + deltaX) (py (pan d) + deltaY)) in
    let d2 := set_lastPanPoint d1 (mkPoint (clientX e) (clientY e)) in
    updateViewport d2.

Definition endPan (d : Diagram) : Diagram :=
  set_svg_cursor (set_isPanning d false) (Some DefaultCursor).

(** The listener of ['mousedown'] on the SVG; [isPanModeActive] is the flag
    of the enclosing widget. *)
Definition onSvgMouseDown (d : Diagram) (isPanModeActive : bool)
    (e : MouseEvent) : Diagram :=
  if Z.eqb (button e) 1
     || (Z.eqb (button e) 0 && (shiftKey e || isPanModeActive))
  then startPan d e else d.

(** The pan listeners of ['mousemove'] and ['mouseup'] on the document. *)
Definition onPanMouseMove (d : Diagram) (e : MouseEvent) : Diagram :=
  if isPanning d then updatePan d e else d.

Definition onPanMouseUp (d : Diagram) : Diagram :=
  if isPanning d then endPan d else d.

(** ** Strings: [includes] and [split] *)

Local Open Scope string_scope.

(** [strip_prefix sep s]: what follows [sep] when [s] starts with it. *)
Fixpoint strip_prefix (sep s : string) : option string :=
  match sep with
  | EmptyString => Some s
  | String a sep' =>
      match s with
      | EmptyString => None
      | String b s' =>
          if Ascii.eqb a b then strip_prefix sep' s' else None
      end
  end.

(** [cut sep s]: the text before and after the first occurrence of [sep]. *)
Fixpoint cut (sep s : string) : option (string * string) :=
  match strip_prefix sep s with
  | Some rest => Some (EmptyString, rest)
  | None =>
      match s with
      | EmptyString => None
      | String c s' =>
          match cut sep s' with
          | Some (a, b) => Some (String c a, b)
          | None => None
          end
      end
  end.

(** [s.includes(sep)]. *)
Definition includes (sep s : string) : bool :=
  match cut sep s with Some _ => true | None => false end.

(** [s.split(sep)] for a separator that is not empty: cut at the first
    occurrence and go on after it. Every cut consumes the separator, so
    [S (length s)] rounds are enough. *)
Fixpoint split_rounds (n : nat) (sep s : string) : list string :=
  match n with
  | O => [s]
  | S n' =>
      match cut sep s with
      | Some (a, b) => a :: split_rounds n' sep b
      | None => [s]
      end
  end.

Definition split (sep s : string) : list string :=
  split_rounds (S (String.length s)) sep s.

Local Close Scope string_scope.

(** [array.findIndex(p)]; [None] stands for [-1]. *)
Fixpoint findIndex {A : Type} (p : A -> bool) (l : list A) : option nat :=
  match l with
  | [] => None
  | a :: l' =>
      if p a then Some O
      else match findIndex p l' with
           | Some i => Some (S i)
           | None => None
           end
  end.

(** ** [TableRenderer] *)

Definition TableRenderer_width : num := 250.
Definition TableRenderer_headerHeight : num := 35.
Definition TableRenderer_fieldHeight : num := 30.

(** [TableRenderer.render]: the element of a table, of fixed width and of
    height [headerHeight + fields.length * fieldHeight]. It carries no [x]
    and [y] attribute yet, which is position 0 for a nested [<svg>]; no
    style is set. (The header band and the field rows inside it are not
    part of the model.) *)
Definition TableRenderer_render (t : Table) : TableElem :=
  {| el_x := 0;
     el_y := 0;
     el_width := TableRenderer_width;
     el_height :=
       TableRenderer_headerHeight
       + of_index (length (table_fields t)) * TableRenderer_fieldHeight;
     el_opacity := None;
     el_dragging := false;
     el_cursor := DefaultCursor |}.

(** ** [RelationshipRenderer]: the connector router *)

(** [f.name === fieldName], where [fieldName] may be [undefined]. *)
Definition field_is (fieldName : option string) (f : Field) : bool :=
  match fieldName with
  | Some n => String.eqb (field_name f) n
  | None => false
  end.

(** [getConnectionPoint(tableData, fieldName, otherTableData, isTarget)];
    the last two arguments are not used by the body, and the [side] of the
    result is the constant ['center']. *)
Definition getConnectionPoint (tableData : TableData)
    (fieldName : option string) : Point :=
  let fieldIndex := findIndex (field_is fieldName)
                              (table_fields (td_table tableData)) in
  let fieldY :=
    match fieldIndex with
    | None => td_y tableData + td_height tableData / 2
    | Some i => td_y tableData + 35 + (of_index i * 30) + 15
    end in
  let fieldCenterX := td_x tableData + 50 in
  mkPoint fieldCenterX fieldY.

Definition createManhattanPath (start end_ : Point) : Path :=
  let startX := px start in
  let startY := py start in
  let endX := px end_ in
  let endY := py end_ in
  if num_lt (Math_abs (startY - endY)) 15 then
    [MoveTo startX startY; LineTo endX endY]
  else
    let tableMargin := 20 in
    let targetTableX := endX - 50 in
    let bendX := targetTableX - tableMargin in
    [MoveTo startX startY; LineTo bendX startY; LineTo bendX endY;
     LineTo endX endY].

Definition parseRelationship (r : Ref) : option RelInfo :=
  if truthy (ref_fromTable r) && truthy (ref_toTable r) then
    Some {| fromTable := default EmptyString (ref_fromTable r);
            fromField := ref_fromField r;
            toTable := default EmptyString (ref_toTable r);
            toField := ref_toField r |}
  else
    match ref_name r with
    | Some name =>
        if truthy (Some name) && includes "_to_" name then
          match split "_to_" name with
          | [part0; part1] =>
              Some {| fromTable := part0;
                      fromField := Some "id"%string;
                      toTable := part1;
                      toField := Some "id"%string |}
          | _ => None
          end
        else None
    | None => None
    end.

(** [findTableByName]: the first value of [this.tables], in insertion
    order, whose table has the name. *)
Definition findTableByName (d : Diagram) (tableName : string)
    : option TableData :=
  snd <$> List.find
            (fun e => String.eqb (table_name (td_table (snd e))) tableName)
            (tables d).

(** [element.setAttribute('d', path)] on a path element of the heap. *)
Definition set_path_d (d : Diagram) (el : nat) (p : Path) : Diagram :=
  set_path_elems d (<[el := mkPathElem (Some p)]> (path_elems d)).

Definition updatePath (d : Diagram) (r : RelationshipRenderer) : Diagram :=
  match rr_element r, rr_relInfo r with
  | Some el, Some relInfo =>
      match findTableByName d (fromTable relInfo),
            findTableByName d (toTable relInfo) with
      | Some fromTableData, Some toTableData =>
          let fromPos := getConnectionPoint fromTableData (fromField relInfo) in
          let toPos := getConnectionPoint toTableData (toField relInfo) in
          let path := createManhattanPath fromPos toPos in
          set_path_d d el path
      | _, _ => d
      end
  | _, _ => d
  end.

(** [RelationshipRenderer.render]: the state, the renderer object after the
    call and the returned element ([None] for [null]). The new [<path>]
    takes the next free place of the heap. *)
Definition RelationshipRenderer_render (d : Diagram) (r : RelationshipRenderer)
    : Diagram * RelationshipRenderer * option nat :=
  match parseRelationship (rr_ref r) with
  | None => (d, r, None)
  | Some relInfo =>
      let el := length (path_elems d) in
      let d1 := set_path_elems d (path_elems d ++ [mkPathElem None]) in
      let r1 := mkRelationshipRenderer (rr_ref r) (Some el) (Some relInfo) in
      (updatePath d1 r1, r1, Some el)
  end.

(** ** [DiagramRenderer]: rendering *)

(** [array.forEach((a, index) => ...)] threading the state. *)
Fixpoint forEach_from {A St : Type} (f : St -> A -> nat -> St) (l : list A)
    (index : nat) (s : St) : St :=
  match l with
  | [] => s
  | a :: l' => forEach_from f l' (S index) (f s a index)
  end.

Definition forEach {A St : Type} (f : St -> A -> nat -> St) (l : list A)
    (s : St) : St :=
  forEach_from f l O s.

Definition clearDiagram (d : Diagram) : Diagram :=
  let d1 := set_layer_tables d [] in
  let d2 := set_layer_refs d1 [] in
  let d3 := set_tables d2 [] in
  set_relationships d3 [].

(** The column and row of the grid for an index. *)
Definition grid_x (index : nat) : num := of_index (index mod 3) * 300 + 50.
Definition grid_y (index : nat) : num := of_index (index / 3) * 250 + 50.

(** An update of one table element of the heap. *)
Definition update_table_elem (d : Diagram) (el : nat)
    (f : TableElem -> TableElem) : Diagram :=
  set_table_elems d (alter f el (table_elems d)).

Definition set_el_x (v : num) (e : TableElem) : TableElem :=
  mkTableElem v (el_y e) (el_width e) (el_height e) (el_opacity e)
              (el_dragging e) (el_cursor e).
Definition set_el_y (v : num) (e : TableElem) : TableElem :=
  mkTableElem (el_x e) v (el_width e) (el_height e) (el_opacity e)
              (el_dragging e) (el_cursor e).
Definition set_el_opacity (v : num) (e : TableElem) : TableElem :=
  mkTableElem (el_x e) (el_y e) (el_width e) (el_height e) (Some v)
              (el_dragging e) (el_cursor e).
Definition set_el_dragging (v : bool) (e : TableElem) : TableElem :=
  mkTableElem (el_x e) (el_y e) (el_width e) (el_height e) (el_opacity e)
              v (el_cursor e).
Definition set_el_cursor (v : Cursor) (e : TableElem) : TableElem :=
  mkTableElem (el_x e) (el_y e) (el_width e) (el_height e) (el_opacity e)
              (el_dragging e) v.

(** An update in place of the record that [this.tables.get(k)] returns. *)
Fixpoint Map_modify {V : Type} (k : Key) (f : V -> V) (m : list (Key * V))
    : list (Key * V) :=
  match m with
  | [] => []
  | (k', v) :: m' =>
      if key_eqb k k' then (k', f v) :: m' else (k', v) :: Map_modify k f m'
  end.

Definition set_td_xy (x y : num) (td : TableData) : TableData :=
  mkTableData (td_table td) (td_element td) x y (td_width td) (td_height td).

(** The variables captured by the three listeners that [makeDraggable]
    installs for one table. The four [start...] variables are declared
    without a value; they are read only while [isDragging], after
    [onMouseDown] assigned them. *)
Record DragClosure := mkDragClosure {
  drag_element : nat;
  drag_table : Table;
  isDragging : bool;
  startX : num;
  startY : num;
  startMouseX : num;
  startMouseY : num
}.

(** [makeDraggable(element, table)]: every element built by
    [TableRenderer.render] has its header, whose cursor becomes [grab]. *)
Definition makeDraggable (d : Diagram) (element : nat) (table : Table)
    : Diagram * DragClosure :=
  (update_table_elem d element (set_el_cursor Grab),
   mkDragClosure element table false 0 0 0 0).

(** One round of the loop of [renderTables]. The new element takes the next
    free place of the heap. *)
Definition renderTables_step (d : Diagram) (table : Table) (index : nat)
    : Diagram :=
  let tableElement := length (table_elems d) in
  let d1 := set_table_elems d (table_elems d ++ [TableRenderer_render table]) in
  let x := grid_x index in
  let y := grid_y index in
  let d2 := update_table_elem d1 tableElement (set_el_x x) in
  let d3 := update_table_elem d2 tableElement (set_el_y y) in
  let d4 := fst (makeDraggable d3 tableElement table) in
  let d5 := set_layer_tables d4 (layer_tables d4 ++ [tableElement]) in
  set_tables d5
    (Map_set (table_key table)
       {| td_table := table;
          td_element := tableElement;
          td_x := x;
          td_y := y;
          td_width := 250;
          td_height := 35 + (of_index (length (table_fields table)) * 30) |}
       (tables d5)).

Definition renderTables (d : Diagram) (ts : list Table) : Diagram :=
  forEach renderTables_step ts d.

Definition renderRelationships_step (d : Diagram) (ref : Ref) (_ : nat)
    : Diagram :=
  let refRenderer := mkRelationshipRenderer ref None None in
  match RelationshipRenderer_render d refRenderer with
  | (d1, refRenderer1, Some refElement) =>
      let d2 := set_layer_refs d1 (layer_refs d1 ++ [refElement]) in
      set_relationships d2
        (Map_set (ref_key ref)
           {| rd_ref := ref;
              rd_renderer := refRenderer1;
              rd_element := refElement |}
           (relationships d2))
  | (d1, _, None) => d1
  end.

Definition renderRelationships (d : Diagram) (refs : list Ref) : Diagram :=
  forEach renderRelationships_step refs d.

(** [this.relationships.forEach(relData => relData.renderer.updatePath())]. *)
Definition updateAllRelationships (d : Diagram) : Diagram :=
  forEach (fun d' (e : Key * RelData) _ => updatePath d' (rd_renderer (snd e)))
          (relationships d) d.

(** One round of the first loop of [autoLayout]: the record at [index] of
    [Array.from(this.tables.values())] and its element are moved. *)
Definition autoLayout_step (d : Diagram) (index : nat) : Diagram :=
  match tables d !! index with
  | Some (k, tableData) =>
      let cols := 3%nat in
      let spacing := 300 in
      let x := of_index (index mod cols) * spacing + 50 in
      let y := of_index (index / cols) * 250 + 50 in
      let d1 := set_tables d (<[index := (k, set_td_xy x y tableData)]> (tables d)) in
      let d2 := update_table_elem d1 (td_element tableData) (set_el_x x) in
      update_table_elem d2 (td_element tableData) (set_el_y y)
  | None => d
  end.

Definition autoLayout (d : Diagram) : Diagram :=
  let d1 := foldl autoLayout_step d (seq 0 (length (tables d))) in
  updateAllRelationships d1.

(** [dbmlData.schemas[0]] when [dbmlData], its [schemas] and the first
    entry are all there. *)
Definition first_schema (dbmlData : option DbmlData) : option Schema :=
  match dbmlData with
  | None => None
  | Some data =>
      match schemas data with
      | None => None
      | Some [] => None
      | Some (s :: _) => s
      end
  end.

Definition render (d : Diagram) (dbmlData : option DbmlData) : Diagram :=
  match first_schema dbmlData with
  | None => clearDiagram d
  | Some schema =>
      let d1 := clearDiagram d in
      let d2 := renderTables d1 (default [] (schema_tables schema)) in
      let d3 := renderRelationships d2 (default [] (schema_refs schema)) in
      autoLayout d3
  end.

(** ** [DiagramRenderer]: the drag gesture of one table *)

Definition setAllTablesOpacity (d : Diagram) (opacity : num) : Diagram :=
  forEach (fun d' (e : Key * TableData) _ =>
             update_table_elem d' (td_element (snd e)) (set_el_opacity opacity))
          (tables d) d.

(** [parseFloat(element.getAttribute(...))] for the attributes [x] and [y]
    of a table element; the heap never shrinks, so the element is there. *)
Definition table_elem_attr (d : Diagram) (el : nat) (attr : TableElem -> num)
    : num :=
  from_option attr 0 (table_elems d !! el).

Definition onMouseDown (d : Diagram) (c : DragClosure) (e : MouseEvent)
    : Diagram * DragClosure :=
  let element := drag_element c in
  let d1 := update_table_elem d element (set_el_cursor Grabbing) in
  let d2 := update_table_elem d1 element (set_el_dragging true) in
  let d3 := setAllTablesOpacity d2 0.3 in
  let d4 := update_table_elem d3 element (set_el_opacity 0.8) in
  (d4,
   {| drag_element := element;
      drag_table := drag_table c;
      isDragging := true;
      startX := table_elem_attr d4 element el_x;
      startY := table_elem_attr d4 element el_y;
      startMouseX := clientX e - rect_left (svg d4);
      startMouseY := clientY e - rect_top (svg d4) |}).

Definition onMouseMove (d : Diagram) (c : DragClosure) (e : MouseEvent)
    : Diagram :=
  if negb (isDragging c) then d
  else
    let currentMouseX := clientX e - rect_left (svg d) in
    let currentMouseY := clientY e - rect_top (svg d) in
    let deltaX := currentMouseX - startMouseX c in
    let deltaY := currentMouseY - startMouseY c in
    let newX := startX c + deltaX in
    let newY := startY c + deltaY in
    let viewportWidth := clientWidth (svg d) / zoom d in
    let viewportHeight := clientHeight (svg d) / zoom d in
    let constrainedX := Math_max (-1000) (Math_min newX (viewportWidth + 1000)) in
    let constrainedY := Math_max (-1000) (Math_min newY (viewportHeight + 1000)) in
    let d1 := update_table_elem d (drag_element c) (set_el_x constrainedX) in
    let d2 := update_table_elem d1 (drag_element c) (set_el_y constrainedY) in
    let d3 :=
      set_tables d2
        (Map_modify (table_key (drag_table c))
                    (set_td_xy constrainedX constrainedY) (tables d2)) in
    updateAllRelationships d3.

Definition onMouseUp (d : Diagram) (c : DragClosure) : Diagram * DragClosure :=
  let d1 := update_table_elem d (drag_element c) (set_el_cursor Grab) in
  let d2 := update_table_elem d1 (drag_element c) (set_el_dragging false) in
  (setAllTablesOpacity d2 1,
   mkDragClosure (drag_element c) (drag_table c) false
                 (startX c) (startY c) (startMouseX c) (startMouseY c)).

(** ** [DiagramRenderer]: queries *)

(** [getTablePosition(tableId)]: the position of the record that
    [this.tables] holds for the key, the origin when it holds none. *)
Definition getTablePosition (d : Diagram) (tableId : Key) : Point :=
  match Map_get tableId (tables d) with
  | Some tableData => mkPoint (td_x tableData) (td_y tableData)
  | None => mkPoint 0 0
  end.

(** [Math.round(a)]: the nearest integer, a half going up. *)
Definition Math_round (a : num) : Z := Qfloor (a + 0.5).

Definition getZoomPercentage (d : Diagram) : Z := Math_round (zoom d * 100).

(** The [side] of a field position. *)
Inductive Side := SideRight | SideLeft.

Record FieldPosition := mkFieldPosition {
  fp_x : num;
  fp_y : num;
  fp_side : Side
}.

(** [getFieldPosition(tableName, fieldName)]: the point on the right edge
    of the table at the height of the field's row. *)
Definition getFieldPosition (d : Diagram) (tableName : string)
    (fieldName : option string) : FieldPosition :=
  match findTableByName d tableName with
  | None => mkFieldPosition 0 0 SideRight
  | Some tableData =>
      let fieldIndex := findIndex (field_is fieldName)
                                  (table_fields (td_table tableData)) in
      match fieldIndex with
      | None =>
          mkFieldPosition (td_x tableData + td_width tableData)
                          (td_y tableData + td_height tableData / 2)
                          SideRight
      | Some i =>
          let fieldY := td_y tableData + 35 + (of_index i * 30) + 15 in
          mkFieldPosition (td_x tableData + td_width tableData) fieldY
                          SideRight
      end
  end.

(** [getFieldInputPosition(tableName, fieldName)]: the same on the left
    edge. *)
Definition getFieldInputPosition (d : Diagram) (tableName : string)
    (fieldName : option string) : FieldPosition :=
  match findTableByName d tableName with
  | None => mkFieldPosition 0 0 SideLeft
  | Some tableData =>
      let fieldIndex := findIndex (field_is fieldName)
                                  (table_fields (td_table tableData)) in
      match fieldIndex with
      | None =>
          mkFieldPosition (td_x tableData)
                          (td_y tableData + td_height tableData / 2)
                          SideLeft
      | Some i =>
          let fieldY := td_y tableData + 35 + (of_index i * 30) + 15 in
          mkFieldPosition (td_x tableData) fieldY SideLeft
      end
  end.

(** ** The widget around the renderer: zoom display and pan mode *)

(** [updateZoomDisplay(zoom)]: the number that the zoom display shows in
    front of its percent sign. *)
Definition updateZoomDisplay (zoom : num) : Z := Math_round (zoom * 100).

(** The pan button: its class [active], its title and the two styles that
    the widget writes. *)
Record PanButton := mkPanButton {
  btn_active : bool;
  btn_title : string;
  btn_background : string;
  btn_borderColor : string
}.

(** The pan mode of the widget: [this.isPanModeActive], the cursor of the
    diagram container and the pan button. *)
Record Widget := mkWidget {
  w_isPanModeActive : bool;
  w_cursor : option Cursor;
  w_panBtn : PanButton
}.

(** The widget after [connectedCallback]: pan mode off, the button as the
    markup has it, no cursor style yet. *)
Definition Widget_new : Widget :=
  mkWidget false None (mkPanButton false "Toggle Pan Mode" "" "").

Definition updateDiagramCursor (w : Widget) (temporary : bool) : Widget :=
  mkWidget (w_isPanModeActive w)
           (Some (if w_isPanModeActive w || temporary
                  then Grab else DefaultCursor))
           (w_panBtn w).

Definition updatePanModeUI (w : Widget) : Widget :=
  if w_isPanModeActive w then
    mkWidget (w_isPanModeActive w) (w_cursor w)
             (mkPanButton true "Exit Pan Mode"
                          (btn_background (w_panBtn w))
                          (btn_borderColor (w_panBtn w)))
  else
    mkWidget (w_isPanModeActive w) (w_cursor w)
             (mkPanButton false "Toggle Pan Mode" "" "").

Definition togglePanMode (w : Widget) : Widget :=
  let w1 := mkWidget (negb (w_isPanModeActive w)) (w_cursor w) (w_panBtn w) in
  let w2 := updatePanModeUI w1 in
  updateDiagramCursor w2 false.

Definition showTemporaryPanMode (w : Widget) : Widget :=
  if negb (w_isPanModeActive w) then
    let w1 := updateDiagramCursor w true in
    mkWidget (w_isPanModeActive w1) (w_cursor w1)
             (mkPanButton (btn_active (w_panBtn w1)) (btn_title (w_panBtn w1))
                          "#bbdefb" "#2196f3")
  else w.

Definition hideTemporaryPanMode (w : Widget) : Widget :=
  if negb (w_isPanModeActive w) then
    let w1 := updateDiagramCursor w false in
    if negb (btn_active (w_panBtn w1)) then
      mkWidget (w_isPanModeActive w1) (w_cursor w1)
               (mkPanButton (btn_active (w_panBtn w1))
                            (btn_title (w_panBtn w1)) "" "")
    else w1
  else w.

(** The listeners of [keydown] and [keyup] on the document. *)
Definition onKeyDown (w : Widget) (key : string) : Widget :=
  if String.eqb key "Shift" && negb (w_isPanModeActive w)
  then showTemporaryPanMode w else w.

Definition onKeyUp (w : Widget) (key : string) : Widget :=
  if String.eqb key "Shift" && negb (w_isPanModeActive w)
  then hideTemporaryPanMode w else w.

(** What [startPan] and [endPan] of the renderer write to the widget: the
    cursor of the diagram container. *)
Definition startPan_container (w : Widget) : Widget :=
  mkWidget (w_isPanModeActive w) (Some Grabbing) (w_panBtn w).

Definition endPan_container (w : Widget) : Widget :=
  mkWidget (w_isPanModeActive w)
           (Some (if w_isPanModeActive w then Grab else DefaultCursor))
           (w_panBtn w).

(** What can happen to the pan mode of the widget. *)
Inductive WidgetEvent :=
| PanButtonClick
| KeyDown (key : string)
| KeyUp (key : string)
| PanStarts
| PanEnds.

Definition widget_step (w : Widget) (ev : WidgetEvent) : Widget :=
  match ev with
  | PanButtonClick => togglePanMode w
  | KeyDown key => onKeyDown w key
  | KeyUp key => onKeyUp w key
  | PanStarts => startPan_container w
  | PanEnds => endPan_container w
  end.

(** ** The zoom over the numbers of JavaScript

    The methods that write [this.state.zoom], once more, over numbers that
    include [NaN] and the two infinities, with the coercion of the argument
    of [setZoom] that [Math.min] performs. A finite number is a rational as
    in the rest of the file (rounding, overflow and the sign of zero are
    left out), so that on finite numbers these functions are the ones
    above. *)

Inductive JsNumber :=
| JsFinite (q : num)
| JsPosInfinity
| JsNegInfinity
| JsNaN.

(** What a caller can hand to [setZoom]: a number, or nothing. *)
Inductive JsValue :=
| JsUndefined
| JsNum (n : JsNumber).

(** [ToNumber]: [undefined] becomes [NaN]. *)
Definition ToNumber (v : JsValue) : JsNumber :=
  match v with
  | JsUndefined => JsNaN
  | JsNum n => n
  end.

Definition js_infinity (positive : bool) : JsNumber :=
  if positive then JsPosInfinity else JsNegInfinity.

(** [Math.max(a, b)] and [Math.min(a, b)]: [NaN] as soon as an argument is
    [NaN]. *)
Definition js_max (a b : JsNumber) : JsNumber :=
  match a, b with
  | JsNaN, _ | _, JsNaN => JsNaN
  | JsPosInfinity, _ | _, JsPosInfinity => JsPosInfinity
  | JsNegInfinity, x | x, JsNegInfinity => x
  | JsFinite x, JsFinite y => JsFinite (Math_max x y)
  end.

Definition js_min (a b : JsNumber) : JsNumber :=
  match a, b with
  | JsNaN, _ | _, JsNaN => JsNaN
  | JsNegInfinity, _ | _, JsNegInfinity => JsNegInfinity
  | JsPosInfinity, x | x, JsPosInfinity => x
  | JsFinite x, JsFinite y => JsFinite (Math_min x y)
  end.

(** [a * b]. *)
Definition js_mul (a b : JsNumber) : JsNumber :=
  match a, b with
  | JsNaN, _ | _, JsNaN => JsNaN
  | JsFinite x, JsFinite y => JsFinite (x * y)
  | JsFinite x, JsPosInfinity | JsPosInfinity, JsFinite x =>
      if Qeq_bool x 0 then JsNaN else js_infinity (num_lt 0 x)
  | JsFinite x, JsNegInfinity | JsNegInfinity, JsFinite x =>
      if Qeq_bool x 0 then JsNaN else js_infinity (num_lt x 0)
  | JsPosInfinity, JsPosInfinity | JsNegInfinity, JsNegInfinity =>
      JsPosInfinity
  | JsPosInfinity, JsNegInfinity | JsNegInfinity, JsPosInfinity =>
      JsNegInfinity
  end.

(** [a / b]; a zero divisor counts as [+0]. *)
Definition js_div (a b : JsNumber) : JsNumber :=
  match a, b with
  | JsNaN, _ | _, JsNaN => JsNaN
  | JsFinite x, JsFinite y =>
      if Qeq_bool y 0 then
        if Qeq_bool x 0 then JsNaN else js_infinity (num_lt 0 x)
      else JsFinite (x / y)
  | JsFinite _, JsPosInfinity | JsFinite _, JsNegInfinity => JsFinite 0
  | JsPosInfinity, JsFinite y => js_infinity (negb (num_lt y 0))
  | JsNegInfinity, JsFinite y => js_infinity (num_lt y 0)
  | _, _ => JsNaN
  end.

(** [a !== b] on numbers: [NaN] differs from everything, itself included. *)
Definition js_strict_neq (a b : JsNumber) : bool :=
  match a, b with
  | JsFinite x, JsFinite y => num_neq x y
  | JsPosInfinity, JsPosInfinity | JsNegInfinity, JsNegInfinity => false
  | _, _ => true
  end.

(** [Math.round(a)]: [NaN] and the infinities are returned as they are. *)
Definition js_round (a : JsNumber) : JsNumber :=
  match a with
  | JsFinite x => JsFinite (inject_Z (Math_round x))
  | _ => a
  end.

Module JsZoom.

(** Each method maps [this.state.zoom] to its new value. *)
Definition setZoom (zoom : JsNumber) (arg : JsValue) : JsNumber :=
  js_max (JsFinite minZoom) (js_min (JsFinite maxZoom) (ToNumber arg)).

Definition zoomIn (zoom : JsNumber) : JsNumber :=
  let newZoom := js_min (JsFinite maxZoom) (js_mul zoom (JsFinite 1.1)) in
  setZoom zoom (JsNum newZoom).

Definition zoomOut (zoom : JsNumber) : JsNumber :=
  let newZoom := js_max (JsFinite minZoom) (js_div zoom (JsFinite 1.1)) in
  setZoom zoom (JsNum newZoom).

Definition zoomToStandard (zoom : JsNumber) : JsNumber :=
  setZoom zoom (JsNum (JsFinite 1)).

Definition resetZoom (zoom : JsNumber) : JsNumber := JsFinite 1.

(** The listener of ['wheel']. *)
Definition onWheel (zoom : JsNumber) (e : WheelEvent) : JsNumber :=
  let newZoom :=
    js_max (JsFinite minZoom)
           (js_min (JsFinite maxZoom) (js_mul zoom (JsFinite (zoomFactor e)))) in
  if js_strict_neq newZoom zoom then newZoom else zoom.

Definition getZoomPercentage (zoom : JsNumber) : JsNumber :=
  js_round (js_mul zoom (JsFinite 100)).

(** The operations that write the zoom. *)
Inductive Op :=
| ZoomIn
| ZoomOut
| SetZoom (arg : JsValue)
| ZoomToStandard
| ResetZoom
| Wheel (e : WheelEvent).

Definition apply_op (zoom : JsNumber) (o : Op) : JsNumber :=
  match o with
  | ZoomIn => zoomIn zoom
  | ZoomOut => zoomOut zoom
  | SetZoom arg => setZoom zoom arg
  | ZoomToStandard => zoomToStandard zoom
  | ResetZoom => resetZoom zoom
  | Wheel e => onWheel zoom e
  end.

Definition run (ops : list Op) (zoom : JsNumber) : JsNumber :=
  foldl apply_op zoom ops.

(** The zoom is a finite number of [[minZoom, maxZoom]]. *)
Definition in_zoom_range (zoom : JsNumber) : Prop :=
  match zoom with
  | JsFinite q => minZoom <= q /\ q <= maxZoom
  | _ => False
  end.

(** The zoom is the finite number [q]. *)
Definition is_number (zoom : JsNumber) (q : num) : Prop :=
  match zoom with
  | JsFinite x => x == q
  | _ => False
  end.

(** The request of the operation, if it has one, is a number: not [NaN],
    not [undefined]. *)
Definition number_request (o : Op) : Prop :=
  match o with
  | SetZoom arg => ToNumber arg <> JsNaN
  | _ => True
  end.

End JsZoom.

(** ** Notions used by the statements *)

(** The zoom range [[minZoom, maxZoom]]. *)
Definition in_zoom_range (z : num) : Prop := minZoom <= z /\ z <= maxZoom.

(** What can happen to a renderer once it is built: the exposed operations,
    the listeners of the SVG and of the document, the gesture of any table,
    a new size of the SVG and the registration of the observer. *)
Inductive Op :=
| OpZoomIn
| OpZoomOut
| OpSetZoom (z : num)
| OpZoomToStandard
| OpResetZoom
| OpWheel (e : WheelEvent)
| OpSvgMouseDown (isPanModeActive : bool) (e : MouseEvent)
| OpPanMouseMove (e : MouseEvent)
| OpPanMouseUp
| OpDragMouseDown (c : DragClosure) (e : MouseEvent)
| OpDragMouseMove (c : DragClosure) (e : MouseEvent)
| OpDragMouseUp (c : DragClosure)
| OpRender (dbmlData : option DbmlData)
| OpResize (box : SvgBox)
| OpRegisterObserver.

Definition apply_op (d : Diagram) (o : Op) : Diagram :=
  match o with
  | OpZoomIn => zoomIn d
  | OpZoomOut => zoomOut d
  | OpSetZoom z => setZoom d z
  | OpZoomToStandard => zoomToStandard d
  | OpResetZoom => resetZoom d
  | OpWheel e => onWheel d e
  | OpSvgMouseDown m e => onSvgMouseDown d m e
  | OpPanMouseMove e => onPanMouseMove d e
  | OpPanMouseUp => onPanMouseUp d
  | OpDragMouseDown c e => fst (onMouseDown d c e)
  | OpDragMouseMove c e => onMouseMove d c e
  | OpDragMouseUp c => fst (onMouseUp d c)
  | OpRender data => render d data
  | OpResize box => set_svg d box
  | OpRegisterObserver => register_onZoomChange d
  end.

Definition run (ops : list Op) (d : Diagram) : Diagram := foldl apply_op d ops.

(** The operation on the zoom that an operation of the renderer performs,
    with its request as a finite number; [None] for the operations that do
    not write the zoom. *)
Definition zoom_op (o : Op) : option JsZoom.Op :=
  match o with
  | OpZoomIn => Some JsZoom.ZoomIn
  | OpZoomOut => Some JsZoom.ZoomOut
  | OpSetZoom z => Some (JsZoom.SetZoom (JsNum (JsFinite z)))
  | OpZoomToStandard => Some JsZoom.ZoomToStandard
  | OpResetZoom => Some JsZoom.ResetZoom
  | OpWheel e => Some (JsZoom.Wheel e)
  | _ => None
  end.

(** The clamped zoom that a wheel event asks for. *)
Definition wheel_newZoom (d : Diagram) (e : WheelEvent) : num :=
  Math_max minZoom (Math_min maxZoom (zoom d * zoomFactor e)).

(** The pointer of a wheel event relative to the SVG. *)
Definition wheel_pointer (d : Diagram) (e : WheelEvent) : Point :=
  mkPoint (wheel_clientX e - rect_left (svg d))
          (wheel_clientY e - rect_top (svg d)).

(** Equality of points up to the equality of rationals. *)
Definition point_eq (p q : Point) : Prop := px p == px q /\ py p == py q.

(** No record of the table mapping is about a table of this name. *)
Definition table_absent (d : Diagram) (tableName : string) : Prop :=
  forall k td, In (k, td) (tables d) -> table_name (td_table td) <> tableName.

(** The inputs of [render] without a first schema: no [dbmlData], no
    [schemas], an empty [schemas], or a first entry that is [null]. *)
Inductive no_schema : option DbmlData -> Prop :=
| no_dbmlData : no_schema None
| no_schemas : no_schema (Some (mkDbmlData None))
| empty_schemas : no_schema (Some (mkDbmlData (Some [])))
| null_first_schema rest : no_schema (Some (mkDbmlData (Some (None :: rest)))).

(** [sep] occurs in [s]. *)
Definition occurs (sep s : string) : Prop :=
  exists u v, s = (u ++ sep ++ v)%string.

(** [s] is [a], then [sep], then [b], and no occurrence of [sep] in [s]
    starts before this one. *)
Definition leftmost_cut (sep s a b : string) : Prop :=
  s = (a ++ sep ++ b)%string /\
  forall u v, s = (u ++ sep ++ v)%string ->
              (String.length a <= String.length u)%nat.

(** The identifier [name] follows the convention [<a>_to_<b>]: the two
    table names are separated by the first [_to_] of the identifier, and
    there is no further [_to_] after it. *)
Definition follows_convention (name a b : string) : Prop :=
  leftmost_cut "_to_" name a b /\ ~ occurs "_to_" b.

(** The relationship carries an explicit source table [ft] and an explicit
    target table [tt]: both properties are there and not empty. *)
Definition explicit_endpoints (r : Ref) (ft tt : string) : Prop :=
  ref_fromTable r = Some ft /\ ref_toTable r = Some tt /\
  ft <> EmptyString /\ tt <> EmptyString.

Definition has_explicit_endpoints (r : Ref) : Prop :=
  exists ft tt, explicit_endpoints r ft tt.

(** The pointer of a mouse event relative to the SVG. *)
Definition pointer_x (d : Diagram) (e : MouseEvent) : num :=
  clientX e - rect_left (svg d).
Definition pointer_y (d : Diagram) (e : MouseEvent) : num :=
  clientY e - rect_top (svg d).

(** The extent of the viewport in each axis: the client size of the SVG
    divided by the zoom. *)
Definition viewportExtent_x (d : Diagram) : num := clientWidth (svg d) / zoom d.
Definition viewportExtent_y (d : Diagram) : num := clientHeight (svg d) / zoom d.

(** The clamp of a dragged coordinate to [[-1000, extent + 1000]]. *)
Definition drag_clamp (v extent : num) : num :=
  Math_max (-1000) (Math_min v (extent + 1000)).

(** The coordinate that a drag would store if the pointer's delta were
    divided by the zoom before it is added to the start. *)
Definition zoom_scaled_drag (start delta extent : num) (d : Diagram) : num :=
  drag_clamp (start + delta / zoom d) extent.

(** The [x] and [y] attributes of the elements are not touched by an update
    of their style. *)
Definition keeps_position (f : TableElem -> TableElem) : Prop :=
  forall e, el_x (f e) = el_x e /\ el_y (f e) = el_y e.

(** What the layout leaves alone in an entry of the table mapping: its key,
    its table and its element. *)
Definition skeleton (e : Key * TableData) : Key * Table * nat :=
  (fst e, td_table (snd e), td_element (snd e)).

(** The elements of the records of a table mapping. *)
Definition td_elements (m : list (Key * TableData)) : list nat :=
  (fun e => td_element (snd e)) <$> m.

(** Every record of the table mapping has an element of its own, which is
    on the heap. *)
Definition elements_wf (d : Diagram) : Prop :=
  NoDup (td_elements (tables d)) /\
  forall el, el ∈ td_elements (tables d) -> (el < length (table_elems d))%nat.

(** The first [n] records of the mapping of [s], and their elements, are
    on the grid; the mapping of [s] is the one of [d] but for positions. *)
Definition laid_out_upto (d s : Diagram) (n : nat) : Prop :=
  skeleton <$> tables s = skeleton <$> tables d /\
  length (table_elems s) = length (table_elems d) /\
  forall i k td,
    (i < n)%nat -> tables s !! i = Some (k, td) ->
    td_x td = grid_x i /\ td_y td = grid_y i /\
    exists el, table_elems s !! td_element td = Some el /\
               el_x el = grid_x i /\ el_y el = grid_y i.

(** The element of a table after one round of [renderTables]: built by
    [TableRenderer.render], positioned, made draggable. *)
Definition rendered_elem (t : Table) (index : nat) : TableElem :=
  set_el_cursor Grab
    (set_el_y (grid_y index) (set_el_x (grid_x index) (TableRenderer_render t))).

(** What the renderer knows of the view, and what it knows of the
    diagram's content. *)
Definition view_of (d : Diagram) :=
  (zoom d, pan d, isPanning d, lastPanPoint d, onZoomChange d, zoom_calls d,
   svg d, svg_cursor d, viewport_transform d).

Definition content_of (d : Diagram) :=
  (tables d, relationships d, table_elems d, path_elems d, layer_tables d,
   layer_refs d).

(** The operations on the view, as opposed to rendering and dragging. *)
Definition is_view_op (o : Op) : bool :=
  match o with
  | OpDragMouseDown _ _ | OpDragMouseMove _ _ | OpDragMouseUp _
  | OpRender _ => false
  | _ => true
  end.

(** The [transform] attribute of the viewport layer shows the zoom and the
    pan of the state; as long as it was never written, they are the ones of
    a new renderer. *)
Definition transform_in_sync (d : Diagram) : Prop :=
  match viewport_transform d with
  | None => zoom d = 1 /\ pan d = mkPoint 0 0
  | Some t => t = mkTransform (px (pan d)) (py (pan d)) (zoom d)
  end.

(** What the observer of the zoom was told: nothing as long as none is
    registered; otherwise zooms of the range, the last one being the zoom of
    the state. *)
Definition observer_in_sync (d : Diagram) : Prop :=
  (onZoomChange d = false -> zoom_calls d = []) /\
  (zoom_calls d <> [] -> last (zoom_calls d) = Some (zoom d)) /\
  Forall in_zoom_range (zoom_calls d).

(** The pointer of a mouse event on the page. *)
Definition client_point (e : MouseEvent) : Point :=
  mkPoint (clientX e) (clientY e).

(** The condition under which a press on the SVG starts a pan. *)
Definition pan_trigger (isPanModeActive : bool) (e : MouseEvent) : Prop :=
  button e = 1%Z \/
  (button e = 0%Z /\ (shiftKey e = true \/ isPanModeActive = true)).

(** The position that a move of a drag gives the table: the start of the
    drag plus the pointer's delta, clamped. *)
Definition drag_target_x (d : Diagram) (c : DragClosure) (e : MouseEvent)
    : num :=
  drag_clamp (startX c + (pointer_x d e - startMouseX c)) (viewportExtent_x d).
Definition drag_target_y (d : Diagram) (c : DragClosure) (e : MouseEvent)
    : num :=
  drag_clamp (startY c + (pointer_y d e - startMouseY c)) (viewportExtent_y d).

(** The elements of the records of the table mapping, as a test. *)
Definition is_mapped_element (d : Diagram) (el : nat) : bool :=
  existsb (Nat.eqb el) (td_elements (tables d)).

(** The elements of the records of a relationship mapping. *)
Definition rel_elements (m : list (Key * RelData)) : list nat :=
  (fun e => rd_element (snd e)) <$> m.

(** Every record of the relationship mapping has a [<path>] of its own,
    which is on the heap and is the element of its renderer. *)
Definition relationships_wf (d : Diagram) : Prop :=
  NoDup (rel_elements (relationships d)) /\
  forall k rd,
    (k, rd) ∈ relationships d ->
    rr_element (rd_renderer rd) = Some (rd_element rd) /\
    (rd_element rd < length (path_elems d))%nat.

(** The path between the two connection points of a relationship, for the
    positions that the tables have in [d]; none when a table is missing. *)
Definition connector_path (d : Diagram) (relInfo : RelInfo) : option Path :=
  match findTableByName d (fromTable relInfo),
        findTableByName d (toTable relInfo) with
  | Some fromTableData, Some toTableData =>
      Some (createManhattanPath
              (getConnectionPoint fromTableData (fromField relInfo))
              (getConnectionPoint toTableData (toField relInfo)))
  | _, _ => None
  end.

(** Every relationship of the mapping whose two tables are there is drawn
    along the path that the tables' current positions give. *)
Definition connectors_attached (d : Diagram) : Prop :=
  forall k rd relInfo path,
    (k, rd) ∈ relationships d ->
    rr_relInfo (rd_renderer rd) = Some relInfo ->
    connector_path d relInfo = Some path ->
    path_elems d !! rd_element rd = Some (mkPathElem (Some path)).

(** A relationship that [parseRelationship] resolves. *)
Definition resolves (r : Ref) : bool :=
  match parseRelationship r with Some _ => true | None => false end.

(** The size that an entry of the table mapping records. *)
Definition td_size (e : Key * TableData) : num * num :=
  (td_width (snd e), td_height (snd e)).

(** The record that [renderTables] makes for the table at [index], with
    the element [H0 + index]. *)
Definition rendered_record (H0 : nat) (index : nat) (t : Table) : TableData :=
  {| td_table := t;
     td_element := H0 + index;
     td_x := grid_x index;
     td_y := grid_y index;
     td_width := 250;
     td_height := 35 + (of_index (length (table_fields t)) * 30) |}.

(** The point of a path command, and the segments of a path. *)
Definition cmd_point (c : PathCmd) : Point :=
  match c with
  | MoveTo x y => mkPoint x y
  | LineTo x y => mkPoint x y
  end.

Fixpoint segments (p : Path) : list (Point * Point) :=
  match p with
  | a :: (b :: _) as rest => (cmd_point a, cmd_point b) :: segments rest
  | _ => []
  end.

Definition horizontal (s : Point * Point) : Prop := py (fst s) = py (snd s).
Definition vertical (s : Point * Point) : Prop := px (fst s) = px (snd s).

(** A relationship that carries nothing but an identifier. *)
Definition named_ref (name : string) : Ref :=
  mkRef None (Some name) None None None None.

(** The zoom that the widget was last told: 1 by [initDiagram], then the
    argument of the observer's last call; and what its display shows. *)
Definition displayed_zoom (d : Diagram) : num :=
  default 1 (last (zoom_calls d)).

Definition zoom_display (d : Diagram) : Z :=
  updateZoomDisplay (displayed_zoom d).

(** The button and the title of the pan button say whether the pan mode
    is on. *)
Definition pan_button_in_sync (w : Widget) : Prop :=
  btn_active (w_panBtn w) = w_isPanModeActive w /\
  btn_title (w_panBtn w)
  = (if w_isPanModeActive w then "Exit Pan Mode" else "Toggle Pan Mode")%string.

(** The widget at rest: pan mode off, the default cursor, the button
    without highlight. *)
Definition widget_at_rest : Widget :=
  mkWidget false (Some DefaultCursor)
           (mkPanButton false "Toggle Pan Mode" "" "").

(** ** A small schema, used to run the definitions *)

Definition ex_box : SvgBox := mkSvgBox 0 0 800 600.

Definition ex_users : Table :=
  mkTable (Some 0%Z) "users" [mkField "id" true].

Definition ex_posts : Table :=
  mkTable (Some 1%Z) "posts" [mkField "id" true; mkField "user_id" false].

Definition ex_ref : Ref :=
  mkRef (Some 0%Z) (Some "posts_to_users"%string)
        (Some "posts"%string) (Some "user_id"%string)
        (Some "users"%string) (Some "id"%string).

Definition ex_data : option DbmlData :=
  Some (mkDbmlData
          (Some [Some (mkSchema (Some [ex_users; ex_posts]) (Some [ex_ref]))])).

(** The renderer after [render(ex_data)]. *)
Definition ex_diagram : Diagram := render (DiagramRenderer_new ex_box) ex_data.

(** A wheel tick that zooms in, and one that zooms out. *)
Definition ex_wheel_in : WheelEvent := mkWheelEvent 120 80 (-1).
Definition ex_wheel_out : WheelEvent := mkWheelEvent 120 80 1.

(** The record of [ex_posts] in [ex_diagram]. *)
Definition ex_posts_data : TableData := mkTableData ex_posts 1 350 50 250 95.

(** A renderer whose relationship points at a table that is not there. *)
Definition ex_dangling : RelationshipRenderer :=
  mkRelationshipRenderer
    (mkRef None None (Some "posts"%string) (Some "id"%string)
           (Some "comments"%string) (Some "id"%string))
    (Some 0%nat)
    (Some (mkRelInfo "posts" (Some "id"%string) "comments" (Some "id"%string))).

(** A relationship known by its identifier only. *)
Definition ex_named_ref : Ref :=
  mkRef None (Some "orders_to_customers"%string) None None None None.

(** [ex_diagram] at zoom 2, the closure of the drag listeners of [ex_users]
    (element 0), a press on its header and a move 100 to the right and 30
    down. *)
Definition ex_zoomed : Diagram := setZoom ex_diagram 2.
Definition ex_drag_users : DragClosure := snd (makeDraggable ex_diagram 0 ex_users).
Definition ex_press : MouseEvent := mkMouseEvent 100 100 0 false.
Definition ex_move : MouseEvent := mkMouseEvent 200 130 0 false.

(** Seven tables, as the parser numbers them, and their schema. *)
Definition ex_table (id : Z) (name : string) : Table :=
  mkTable (Some id) name [mkField "id" true].

Definition ex_seven_tables : list Table :=
  [ex_table 0 "t0"; ex_table 1 "t1"; ex_table 2 "t2"; ex_table 3 "t3";
   ex_table 4 "t4"; ex_table 5 "t5"; ex_table 6 "t6"].

Definition ex_seven : option DbmlData :=
  Some (mkDbmlData (Some [Some (mkSchema (Some ex_seven_tables) None)])).

(** A move far to the left: the pointer's delta alone would bring the table
    [users] of [ex_diagram] from [x = 50] to [x = -5000]. *)
Definition ex_far_move : MouseEvent := mkMouseEvent (-4950) 100 0 false.

(** Two tables under one identifier, and a third one. *)
Definition ex_twins : option DbmlData :=
  Some (mkDbmlData
          (Some [Some (mkSchema
                         (Some [ex_table 5 "a"; ex_table 6 "b"; ex_table 5 "c"])
                         None)])).

(** A session: render [ex_data], press on the header of [users], move. *)
Definition ex_dragging : DragClosure :=
  snd (onMouseDown ex_diagram ex_drag_users ex_press).

Definition ex_session : list Op :=
  [OpRender ex_data; OpDragMouseDown ex_drag_users ex_press;
   OpDragMouseMove ex_dragging ex_move].

(** * Properties *)

(** ** Loops *)

(** What a projection of the state sees of a loop whose rounds do not
    change it. *)
Lemma forEach_from_preserves {A St B : Type} (proj : St -> B)
    (f : St -> A -> nat -> St) :
  (forall s a i, proj (f s a i) = proj s) ->
  forall l i s, proj (forEach_from f l i s) = proj s.
Proof.
  intros Hf l. induction l as [|a l IH]; intros i s; simpl.
  - reflexivity.
  - rewrite IH. apply Hf.
Qed.

Lemma forEach_preserves {A St B : Type} (proj : St -> B)
    (f : St -> A -> nat -> St) :
  (forall s a i, proj (f s a i) = proj s) ->
  forall l s, proj (forEach f l s) = proj s.
Proof. intros Hf l s. apply forEach_from_preserves, Hf. Qed.

Lemma foldl_preserves {A St B : Type} (proj : St -> B) (f : St -> A -> St) :
  (forall s a, proj (f s a) = proj s) ->
  forall l s, proj (foldl f s l) = proj s.
Proof.
  intros Hf l. induction l as [|a l IH]; intros s; simpl.
  - reflexivity.
  - rewrite IH. apply Hf.
Qed.

(** ** Zoom and pan are left alone by rendering and dragging *)

Lemma updatePath_view d r :
  zoom (updatePath d r) = zoom d /\ pan (updatePath d r) = pan d.
Proof.
  unfold updatePath.
  destruct (rr_element r), (rr_relInfo r) as [relInfo|];
    try (split; reflexivity).
  destruct (findTableByName d (fromTable relInfo)),
           (findTableByName d (toTable relInfo)); split; reflexivity.
Qed.

Lemma updateAllRelationships_zoom d : zoom (updateAllRelationships d) = zoom d.
Proof.
  unfold updateAllRelationships.
  apply (forEach_preserves zoom). intros s a i. apply updatePath_view.
Qed.

Lemma setAllTablesOpacity_zoom d o : zoom (setAllTablesOpacity d o) = zoom d.
Proof.
  unfold setAllTablesOpacity.
  apply (forEach_preserves zoom). intros s a i. reflexivity.
Qed.

Lemma renderTables_zoom d ts : zoom (renderTables d ts) = zoom d.
Proof.
  unfold renderTables. apply (forEach_preserves zoom). intros s a i. reflexivity.
Qed.

Lemma renderRelationships_zoom d refs :
  zoom (renderRelationships d refs) = zoom d.
Proof.
  unfold renderRelationships. apply (forEach_preserves zoom). intros s a i.
  unfold renderRelationships_step, RelationshipRenderer_render.
  destruct (parseRelationship _); simpl; [|reflexivity].
  match goal with |- zoom (updatePath ?d' ?r') = _ =>
    rewrite (proj1 (updatePath_view d' r')) end.
  reflexivity.
Qed.

Lemma autoLayout_zoom d : zoom (autoLayout d) = zoom d.
Proof.
  unfold autoLayout. rewrite updateAllRelationships_zoom.
  apply (foldl_preserves zoom). intros s i. unfold autoLayout_step.
  destruct (tables s !! i) as [[k td]|]; reflexivity.
Qed.

Lemma render_zoom d data : zoom (render d data) = zoom d.
Proof.
  unfold render. destruct (first_schema data); [|reflexivity].
  rewrite autoLayout_zoom, renderRelationships_zoom, renderTables_zoom.
  reflexivity.
Qed.

Lemma onMouseMove_zoom d c e : zoom (onMouseMove d c e) = zoom d.
Proof.
  unfold onMouseMove. destruct (isDragging c); simpl; [|reflexivity].
  rewrite updateAllRelationships_zoom. reflexivity.
Qed.

(** ** The zoom range *)

Lemma clamp_in_zoom_range (z : num) :
  in_zoom_range (Math_max minZoom (Math_min maxZoom z)).
Proof.
  unfold in_zoom_range, Math_max, Math_min. split.
  - apply Q.le_max_l.
  - apply Q.max_lub.
    + unfold minZoom, maxZoom. lra.
    + apply Q.le_min_l.
Qed.

Lemma notifyZoomChange_zoom d : zoom (notifyZoomChange d) = zoom d.
Proof. unfold notifyZoomChange. destruct (onZoomChange d); reflexivity. Qed.

Lemma setZoom_zoom d z :
  zoom (setZoom d z) = Math_max minZoom (Math_min maxZoom z).
Proof. unfold setZoom. rewrite notifyZoomChange_zoom. reflexivity. Qed.

Lemma onWheel_zoom d e :
  zoom (onWheel d e) = wheel_newZoom d e \/ onWheel d e = d.
Proof.
  unfold onWheel. fold (wheel_newZoom d e).
  destruct (num_neq (wheel_newZoom d e) (zoom d)); [left|right; reflexivity].
  rewrite notifyZoomChange_zoom. reflexivity.
Qed.

Lemma apply_op_in_zoom_range d o :
  in_zoom_range (zoom d) -> in_zoom_range (zoom (apply_op d o)).
Proof.
  intros Hd. destruct o; simpl.
  - unfold zoomIn. rewrite setZoom_zoom. apply clamp_in_zoom_range.
  - unfold zoomOut. rewrite setZoom_zoom. apply clamp_in_zoom_range.
  - rewrite setZoom_zoom. apply clamp_in_zoom_range.
  - unfold zoomToStandard. rewrite setZoom_zoom. apply clamp_in_zoom_range.
  - unfold resetZoom. rewrite notifyZoomChange_zoom. simpl.
    unfold in_zoom_range, minZoom, maxZoom. lra.
  - destruct (onWheel_zoom d e) as [-> | ->]; [|exact Hd].
    apply clamp_in_zoom_range.
  - unfold onSvgMouseDown. destruct (_ || _); exact Hd.
  - unfold onPanMouseMove, updatePan.
    destruct (isPanning d); simpl; exact Hd.
  - unfold onPanMouseUp. destruct (isPanning d); exact Hd.
  - rewrite setAllTablesOpacity_zoom. exact Hd.
  - rewrite onMouseMove_zoom. exact Hd.
  - rewrite setAllTablesOpacity_zoom. exact Hd.
  - rewrite render_zoom. exact Hd.
  - exact Hd.
  - exact Hd.
Qed.

Lemma clamp_spec (z : num) :
  (z <= 0.25 -> Math_max minZoom (Math_min maxZoom z) == 0.25) /\
  (3 <= z -> Math_max minZoom (Math_min maxZoom z) == 3) /\
  (0.25 <= z -> z <= 3 -> Math_max minZoom (Math_min maxZoom z) == z).
Proof.
  unfold Math_max, Math_min, minZoom, maxZoom. split; [|split].
  - intros Hz. rewrite (Q.min_r 3 z) by lra. apply Q.max_l, Hz.
  - intros Hz. rewrite (Q.min_l 3 z) by exact Hz. apply Q.max_r. lra.
  - intros Hlo Hhi. rewrite (Q.min_r 3 z) by exact Hhi. apply Q.max_r, Hlo.
Qed.

(** Over finite numbers: starting from a new renderer (zoom 1), after any
    finite sequence of operations -- [zoomIn], [zoomOut], [setZoom z] for a
    finite [z], wheel events, and every other operation and listener of the
    renderer -- the stored zoom lies in [[0.25, 3]]; [setZoom] clamps a
    request out of the range to the nearer bound and keeps a request in the
    range. *)
Theorem zoom_always_in_range (box : SvgBox) (ops : list Op) :
  zoom (DiagramRenderer_new box) = 1 /\
  (forall d z,
      (z <= 0.25 -> zoom (setZoom d z) == 0.25) /\
      (3 <= z -> zoom (setZoom d z) == 3) /\
      (0.25 <= z -> z <= 3 -> zoom (setZoom d z) == z)) /\
  0.25 <= zoom (run ops (DiagramRenderer_new box)) /\
  zoom (run ops (DiagramRenderer_new box)) <= 3.
Proof.
  split; [reflexivity|]. split.
  { intros d z. rewrite setZoom_zoom. unfold Math_max, Math_min, minZoom, maxZoom.
    split; [|split].
    - intros Hz. rewrite (Q.min_r 3 z) by lra. apply Q.max_l, Hz.
    - intros Hz. rewrite (Q.min_l 3 z) by exact Hz. apply Q.max_r. lra.
    - intros Hlo Hhi. rewrite (Q.min_r 3 z) by exact Hhi. apply Q.max_r, Hlo. }
  change (in_zoom_range (zoom (run ops (DiagramRenderer_new box)))).
  assert (H0 : in_zoom_range (zoom (DiagramRenderer_new box))).
  { simpl. unfold in_zoom_range, minZoom, maxZoom. lra. }
  unfold run. revert H0. generalize (DiagramRenderer_new box).
  induction ops as [|o ops IH]; intros d Hd; simpl.
  - exact Hd.
  - apply IH, apply_op_in_zoom_range, Hd.
Qed.

(** Out-of-range requests in a run: the zoom ends at the bound. *)
Lemma zoom_always_in_range_witness :
  zoom (setZoom (DiagramRenderer_new ex_box) 10) == 3 /\
  zoom (setZoom (DiagramRenderer_new ex_box) (-2)) == 0.25 /\
  zoom (setZoom (DiagramRenderer_new ex_box) 1.5) == 1.5 /\
  zoom (run [OpSetZoom 10; OpZoomIn; OpWheel ex_wheel_in]
            (DiagramRenderer_new ex_box)) <= 3.
Proof.
  destruct (zoom_always_in_range ex_box
              [OpSetZoom 10; OpZoomIn; OpWheel ex_wheel_in])
    as (_ & Hclamp & _ & Hhi).
  split; [|split; [|split]].
  - apply (Hclamp (DiagramRenderer_new ex_box) 10). vm_compute. discriminate.
  - apply (Hclamp (DiagramRenderer_new ex_box) (-2)). vm_compute. discriminate.
  - apply (Hclamp (DiagramRenderer_new ex_box) 1.5); vm_compute; discriminate.
  - exact Hhi.
Defined.

(** ** The zoom range over the numbers of JavaScript *)

(** On finite numbers the operations on the zoom are the ones of the
    renderer, and the other operations of the renderer leave the zoom. *)
Lemma JsZoom_simulates_apply_op (d : Diagram) (o : Op) :
  JsFinite (zoom (apply_op d o)) =
    match zoom_op o with
    | Some zo => JsZoom.apply_op (JsFinite (zoom d)) zo
    | None => JsFinite (zoom d)
    end.
Proof.
  destruct o; cbn [apply_op zoom_op JsZoom.apply_op].
  - unfold zoomIn. rewrite setZoom_zoom. reflexivity.
  - unfold zoomOut. rewrite setZoom_zoom. reflexivity.
  - rewrite setZoom_zoom. reflexivity.
  - unfold zoomToStandard. rewrite setZoom_zoom. reflexivity.
  - unfold resetZoom. rewrite notifyZoomChange_zoom. reflexivity.
  - unfold onWheel, JsZoom.onWheel. cbn [js_mul js_min js_max js_strict_neq].
    destruct (num_neq _ _); [|reflexivity].
    rewrite notifyZoomChange_zoom. reflexivity.
  - unfold onSvgMouseDown. destruct (_ || _); reflexivity.
  - unfold onPanMouseMove, updatePan. destruct (isPanning d); reflexivity.
  - unfold onPanMouseUp. destruct (isPanning d); reflexivity.
  - simpl. rewrite setAllTablesOpacity_zoom. reflexivity.
  - rewrite onMouseMove_zoom. reflexivity.
  - simpl. rewrite setAllTablesOpacity_zoom. reflexivity.
  - rewrite render_zoom. reflexivity.
  - reflexivity.
  - reflexivity.
Qed.

Lemma JsZoom_simulates_run (ops : list Op) (d : Diagram) :
  JsFinite (zoom (run ops d)) = JsZoom.run (omap zoom_op ops) (JsFinite (zoom d)).
Proof.
  unfold run, JsZoom.run. revert d.
  induction ops as [|o ops IH]; intros d; [reflexivity|].
  cbn [foldl]. rewrite IH, JsZoom_simulates_apply_op.
  change (omap zoom_op (o :: ops))
    with (match zoom_op o with
          | Some zo => zo :: omap zoom_op ops
          | None => omap zoom_op ops
          end).
  destruct (zoom_op o); reflexivity.
Qed.

Lemma JsZoom_getZoomPercentage_finite (d : Diagram) :
  JsZoom.getZoomPercentage (JsFinite (zoom d))
  = JsFinite (inject_Z (getZoomPercentage d)).
Proof. reflexivity. Qed.

Lemma JsZoom_setZoom_in_zoom_range (zoom : JsNumber) (arg : JsValue) :
  ToNumber arg <> JsNaN -> JsZoom.in_zoom_range (JsZoom.setZoom zoom arg).
Proof.
  unfold JsZoom.setZoom. destruct (ToNumber arg) as [q| | |]; intros H.
  - apply clamp_in_zoom_range.
  - split; vm_compute; discriminate.
  - split; vm_compute; discriminate.
  - contradiction H; reflexivity.
Qed.

Lemma JsZoom_apply_op_in_zoom_range (zoom : JsNumber) (o : JsZoom.Op) :
  JsZoom.in_zoom_range zoom -> JsZoom.number_request o ->
  JsZoom.in_zoom_range (JsZoom.apply_op zoom o).
Proof.
  destruct zoom as [q| | |]; try contradiction. intros Hq Ho.
  destruct o; cbn [JsZoom.apply_op].
  - apply JsZoom_setZoom_in_zoom_range. discriminate.
  - apply JsZoom_setZoom_in_zoom_range. discriminate.
  - apply JsZoom_setZoom_in_zoom_range, Ho.
  - apply JsZoom_setZoom_in_zoom_range. discriminate.
  - split; vm_compute; discriminate.
  - unfold JsZoom.onWheel. cbn [js_mul js_min js_max js_strict_neq].
    destruct (num_neq _ _); [apply clamp_in_zoom_range|exact Hq].
Qed.

Lemma JsZoom_run_in_zoom_range (ops : list JsZoom.Op) (zoom : JsNumber) :
  JsZoom.in_zoom_range zoom -> Forall JsZoom.number_request ops ->
  JsZoom.in_zoom_range (JsZoom.run ops zoom).
Proof.
  unfold JsZoom.run. revert zoom.
  induction ops as [|o ops IH]; intros zoom Hz Hops; [exact Hz|].
  apply Forall_cons in Hops as [Ho Hops]. cbn [foldl].
  apply IH; [apply JsZoom_apply_op_in_zoom_range; assumption|exact Hops].
Qed.

(** C3, amended. Starting from zoom 1, after any finite sequence of
    [zoomIn], [zoomOut], [zoomToStandard], [resetZoom], wheel events and
    [setZoom] whose argument is a number -- finite or infinite, but not
    [NaN] and not [undefined] -- the stored zoom is a finite number of
    [[0.25, 3]]. [setZoom] brings every such request into the range,
    whatever the zoom was: a finite request out of the range and an
    infinite one go to the nearer bound, a request in the range is kept. *)
Theorem zoom_in_range_for_number_requests (ops : list JsZoom.Op) :
  Forall JsZoom.number_request ops ->
  JsZoom.in_zoom_range (JsZoom.run ops (JsFinite 1)) /\
  (forall zoom arg,
      ToNumber arg <> JsNaN -> JsZoom.in_zoom_range (JsZoom.setZoom zoom arg)) /\
  (forall zoom q,
      (q <= 0.25 ->
         JsZoom.is_number (JsZoom.setZoom zoom (JsNum (JsFinite q))) 0.25) /\
      (3 <= q ->
         JsZoom.is_number (JsZoom.setZoom zoom (JsNum (JsFinite q))) 3) /\
      (0.25 <= q -> q <= 3 ->
         JsZoom.is_number (JsZoom.setZoom zoom (JsNum (JsFinite q))) q)) /\
  (forall zoom,
      JsZoom.setZoom zoom (JsNum JsPosInfinity) = JsFinite 3 /\
      JsZoom.setZoom zoom (JsNum JsNegInfinity) = JsFinite 0.25).
Proof.
  intros Hops. split; [|split; [|split]].
  - apply JsZoom_run_in_zoom_range; [|exact Hops].
    split; vm_compute; discriminate.
  - exact JsZoom_setZoom_in_zoom_range.
  - intros zoom q. exact (clamp_spec q).
  - intros zoom. split; reflexivity.
Qed.

(** Requests far out of the range, an infinite one among them. *)
Lemma zoom_in_range_for_number_requests_witness :
  JsZoom.in_zoom_range
    (JsZoom.run [JsZoom.SetZoom (JsNum (JsFinite 10)); JsZoom.ZoomIn;
                 JsZoom.SetZoom (JsNum JsNegInfinity); JsZoom.ZoomOut;
                 JsZoom.Wheel ex_wheel_in]
                (JsFinite 1)).
Proof.
  assert (Hops : Forall JsZoom.number_request
                   [JsZoom.SetZoom (JsNum (JsFinite 10)); JsZoom.ZoomIn;
                    JsZoom.SetZoom (JsNum JsNegInfinity); JsZoom.ZoomOut;
                    JsZoom.Wheel ex_wheel_in]).
  { repeat (apply Forall_cons; split; [simpl; try discriminate; exact I|]).
    apply Forall_nil_2. }
  destruct (zoom_in_range_for_number_requests _ Hops) as [H _]. exact H.
Defined.

(** C3 as stated, for an arbitrary argument of [setZoom], does not hold:
    [setZoom(NaN)] and [setZoom(undefined)] store [NaN], since
    [Math.min(3, NaN)] is [NaN]; [zoomIn], [zoomOut] and the wheel keep it. *)
Lemma setZoom_NaN_leaves_the_range :
  JsZoom.setZoom (JsFinite 1) (JsNum JsNaN) = JsNaN /\
  JsZoom.setZoom (JsFinite 1) JsUndefined = JsNaN /\
  JsZoom.run [JsZoom.SetZoom (JsNum JsNaN); JsZoom.ZoomIn; JsZoom.ZoomOut;
              JsZoom.Wheel ex_wheel_in] (JsFinite 1) = JsNaN /\
  ~ JsZoom.in_zoom_range JsNaN /\
  ~ (forall ops, JsZoom.in_zoom_range (JsZoom.run ops (JsFinite 1))).
Proof.
  split; [reflexivity|]. split; [reflexivity|]. split; [reflexivity|].
  split; [intros H; exact H|].
  intros H. exact (H [JsZoom.SetZoom (JsNum JsNaN)]).
Qed.


(** ** Wheel zoom *)

Lemma notifyZoomChange_pan d : pan (notifyZoomChange d) = pan d.
Proof. unfold notifyZoomChange. destruct (onZoomChange d); reflexivity. Qed.

Lemma wheel_newZoom_nonzero d e : ~ wheel_newZoom d e == 0.
Proof.
  destruct (clamp_in_zoom_range (zoom d * zoomFactor e)) as [Hlo _].
  fold (wheel_newZoom d e) in Hlo. unfold minZoom in Hlo. lra.
Qed.

(** C2. A wheel event leaves the world point under the pointer where it is:
    [screenToWorld(pointer)] after the event equals [screenToWorld(pointer)]
    before it, as rationals. This holds for every zoom and pan of the
    state, so for every zoom in [[0.25, 3]]. *)
Theorem wheel_keeps_world_point_under_pointer (d : Diagram) (e : WheelEvent) :
  let p := wheel_pointer d e in
  point_eq (screenToWorld (onWheel d e) (px p) (py p))
           (screenToWorld d (px p) (py p)).
Proof.
  intros p. unfold onWheel. fold (wheel_newZoom d e).
  destruct (num_neq (wheel_newZoom d e) (zoom d)).
  - pose proof (wheel_newZoom_nonzero d e) as Hnz.
    unfold screenToWorld, point_eq.
    rewrite notifyZoomChange_zoom, notifyZoomChange_pan. simpl.
    generalize dependent (wheel_newZoom d e). intros z Hz.
    destruct (Qeq_dec (zoom d) 0) as [H0|H0].
    + rewrite H0. unfold Qdiv. change (/ 0) with 0.
      split; field; exact Hz.
    + split; field; split; assumption.
  - split; reflexivity.
Qed.

(** C10. A wheel event whose clamped new zoom equals the current zoom (the
    zoom is at the bound it is pushed against) changes nothing: the state
    after the handler is the state before it; in particular zoom, pan and
    the viewport transform are unchanged and the observer is not called. *)
Theorem wheel_at_bound_changes_nothing (d : Diagram) (e : WheelEvent) :
  wheel_newZoom d e == zoom d ->
  onWheel d e = d /\
  zoom (onWheel d e) = zoom d /\
  pan (onWheel d e) = pan d /\
  viewport_transform (onWheel d e) = viewport_transform d /\
  zoom_calls (onWheel d e) = zoom_calls d.
Proof.
  intros Heq.
  assert (Hd : onWheel d e = d).
  { unfold onWheel. fold (wheel_newZoom d e). unfold num_neq.
    apply Qeq_bool_iff in Heq. rewrite Heq. reflexivity. }
  rewrite Hd. repeat split; reflexivity.
Qed.

(** At zoom 3 a tick that zooms in is such an event. *)
Lemma wheel_at_bound_changes_nothing_witness :
  let d := setZoom (register_onZoomChange (DiagramRenderer_new ex_box)) 3 in
  wheel_newZoom d ex_wheel_in == zoom d /\
  onWheel d ex_wheel_in = d /\
  zoom_calls (onWheel d ex_wheel_in) = zoom_calls d.
Proof.
  intros d.
  assert (H : wheel_newZoom d ex_wheel_in == zoom d) by (vm_compute; reflexivity).
  split; [exact H|].
  destruct (wheel_at_bound_changes_nothing d ex_wheel_in H)
    as (H1 & _ & _ & _ & H5).
  split; [exact H1 | exact H5].
Defined.

(** ** The connector router *)

Lemma num_lt_true (a b : num) : num_lt a b = true <-> a < b.
Proof.
  unfold num_lt. destruct (Qlt_le_dec a b) as [H|H]; split; intros H'.
  - exact H.
  - reflexivity.
  - discriminate.
  - exfalso. apply (Qlt_not_le _ _ H'), H.
Qed.

Lemma num_lt_false (a b : num) : num_lt a b = false <-> b <= a.
Proof.
  unfold num_lt. destruct (Qlt_le_dec a b) as [H|H]; split; intros H'.
  - discriminate.
  - exfalso. apply (Qlt_not_le _ _ H), H'.
  - exact H.
  - reflexivity.
Qed.

(** C4. The path between two connection points: a single segment (two
    points) when the vertical distance is below 15; otherwise four points,
    that is three segments -- horizontal from the start to the bend line
    [x = end.x - 50 - 20], vertical along the bend line from the start's [y]
    to the end's [y], horizontal into the end point. *)
Theorem createManhattanPath_shape (start end_ : Point) :
  let bendX := px end_ - 50 - 20 in
  (Qabs (py start - py end_) < 15 ->
     createManhattanPath start end_ =
       [MoveTo (px start) (py start); LineTo (px end_) (py end_)]
     /\ length (createManhattanPath start end_) = 2%nat) /\
  (15 <= Qabs (py start - py end_) ->
     createManhattanPath start end_ =
       [MoveTo (px start) (py start); LineTo bendX (py start);
        LineTo bendX (py end_); LineTo (px end_) (py end_)]
     /\ length (createManhattanPath start end_) = 4%nat).
Proof.
  intros bendX. unfold createManhattanPath, Math_abs. split; intros H.
  - apply num_lt_true in H. rewrite H. split; reflexivity.
  - apply num_lt_false in H. rewrite H. split; reflexivity.
Qed.

Lemma createManhattanPath_shape_witness :
  createManhattanPath (mkPoint 400 100) (mkPoint 100 110) =
    [MoveTo 400 100; LineTo 100 110] /\
  createManhattanPath (mkPoint 400 130) (mkPoint 100 100) =
    [MoveTo 400 130; LineTo (100 - 50 - 20) 130; LineTo (100 - 50 - 20) 100;
     LineTo 100 100].
Proof.
  split.
  - apply (proj1 (createManhattanPath_shape (mkPoint 400 100) (mkPoint 100 110))).
    vm_compute. reflexivity.
  - apply (proj2 (createManhattanPath_shape (mkPoint 400 130) (mkPoint 100 100))).
    vm_compute. discriminate.
Defined.

Lemma findIndex_Some {A : Type} (p : A -> bool) (l : list A) (i : nat) :
  findIndex p l = Some i <->
  (exists a, l !! i = Some a /\ p a = true) /\
  (forall j b, (j < i)%nat -> l !! j = Some b -> p b = false).
Proof.
  revert i. induction l as [|a l IH]; intros i; simpl.
  - split; [discriminate|]. intros [[b [Hb _]] _]. discriminate.
  - destruct (p a) eqn:Hpa.
    + split.
      * intros [= <-]. split; [exists a; auto|]. intros j b Hj. lia.
      * intros [[b [Hb Hpb]] Hmin]. destruct i as [|i]; [reflexivity|].
        specialize (Hmin O a ltac:(lia) eq_refl). congruence.
    + destruct (findIndex p l) as [k|] eqn:Hk.
      * split.
        -- intros [= <-]. destruct (proj1 (IH k) eq_refl) as [Hex Hmin].
           split; [exact Hex|]. intros [|j] b Hj Hb; simpl in Hb.
           ++ congruence.
           ++ apply (Hmin j); [lia|exact Hb].
        -- intros [[b [Hb Hpb]] Hmin]. destruct i as [|i]; simpl in Hb.
           ++ congruence.
           ++ f_equal. symmetry.
              assert (Hi : Some k = Some i); [|congruence].
              apply IH. split; [exists b; auto|].
              intros j c Hj Hc. apply (Hmin (S j)); [lia|exact Hc].
      * split; [discriminate|].
        intros [[b [Hb Hpb]] Hmin]. destruct i as [|i]; simpl in Hb.
        -- congruence.
        -- assert (Hi : None = Some i); [|discriminate].
           apply IH. split; [exists b; auto|].
           intros j c Hj Hc. apply (Hmin (S j)); [lia|exact Hc].
Qed.

Lemma findIndex_None {A : Type} (p : A -> bool) (l : list A) :
  findIndex p l = None <-> (forall a, In a l -> p a = false).
Proof.
  induction l as [|a l IH]; simpl.
  - split; [intros _ b []|reflexivity].
  - destruct (p a) eqn:Hpa.
    + split; [discriminate|]. intros H. specialize (H a (or_introl eq_refl)).
      congruence.
    + destruct (findIndex p l) as [n|].
      * split; [discriminate|]. intros H.
        assert (Hn : Some n = None); [|discriminate].
        apply IH. intros b Hb. apply H. right. exact Hb.
      * split; [|reflexivity]. intros _ b [<-|Hb]; [exact Hpa|].
        apply IH; [reflexivity|exact Hb].
Qed.

(** C5. The connection point of a field on a table record at [(x, y)] of
    height [h]: its [x] is [x + 50]; when the field name is found in the
    table's field list, [i] being the first index that carries it, its [y]
    is [y + 35 + i * 30 + 15]; when no field carries the name (or no name is
    given) its [y] is [y + h / 2]. *)
Theorem getConnectionPoint_spec (tableData : TableData)
    (fieldName : option string) :
  let p := getConnectionPoint tableData fieldName in
  let fields := table_fields (td_table tableData) in
  px p = td_x tableData + 50 /\
  (forall name i f,
      fieldName = Some name ->
      fields !! i = Some f -> field_name f = name ->
      (forall j g, (j < i)%nat -> fields !! j = Some g -> field_name g <> name) ->
      py p = td_y tableData + 35 + (of_index i * 30) + 15) /\
  ((forall name f, fieldName = Some name -> In f fields -> field_name f <> name) ->
      py p = td_y tableData + td_height tableData / 2).
Proof.
  intros p fields. split; [reflexivity|]. split.
  - intros name i f -> Hi Hf Hmin.
    assert (Hfi : findIndex (field_is (Some name)) fields = Some i).
    { apply findIndex_Some. split.
      - exists f. split; [exact Hi|]. simpl. apply String.eqb_eq, Hf.
      - intros j g Hj Hg. simpl. apply String.eqb_neq, (Hmin j g Hj Hg). }
    unfold p, getConnectionPoint. fold fields. rewrite Hfi. reflexivity.
  - intros Hnone.
    assert (Hfi : findIndex (field_is fieldName) fields = None).
    { apply findIndex_None. intros f Hf. destruct fieldName as [name|]; simpl.
      - apply String.eqb_neq, (Hnone name f eq_refl Hf).
      - reflexivity. }
    unfold p, getConnectionPoint. fold fields. rewrite Hfi. reflexivity.
Qed.

Lemma getConnectionPoint_spec_witness :
  py (getConnectionPoint ex_posts_data (Some "user_id"%string))
    = 50 + 35 + (of_index 1 * 30) + 15 /\
  py (getConnectionPoint ex_posts_data (Some "title"%string)) = 50 + 95 / 2.
Proof.
  split.
  - destruct (getConnectionPoint_spec ex_posts_data (Some "user_id"%string))
      as (_ & Hfound & _).
    apply (Hfound "user_id"%string 1%nat (mkField "user_id" false));
      try reflexivity.
    intros [|j] g Hj Hg; [|lia]. injection Hg as <-. discriminate.
  - destruct (getConnectionPoint_spec ex_posts_data (Some "title"%string))
      as (_ & _ & Hmissing).
    apply Hmissing. intros name f [= <-] [<-|[<-|[]]]; discriminate.
Defined.

(** ** [render] without a schema *)

(** C9. When [render] gets no data, data without schemas, or schemas whose
    first entry is absent, it does what [clearDiagram] does and nothing
    else: both mappings and both layers are empty afterwards (nothing is
    drawn), zoom and pan are as before. [render] is a total function: no
    such input raises an error. *)
Theorem render_without_schema_clears (d : Diagram) (dbmlData : option DbmlData) :
  no_schema dbmlData ->
  render d dbmlData = clearDiagram d /\
  tables (render d dbmlData) = [] /\
  relationships (render d dbmlData) = [] /\
  layer_tables (render d dbmlData) = [] /\
  layer_refs (render d dbmlData) = [] /\
  zoom (render d dbmlData) = zoom d /\
  pan (render d dbmlData) = pan d.
Proof.
  intros H.
  assert (Hr : render d dbmlData = clearDiagram d)
    by (destruct H; reflexivity).
  rewrite Hr. repeat split; reflexivity.
Qed.

(** A rendered diagram is emptied by [render(undefined)] and by
    [render({schemas: []})]. *)
Lemma render_without_schema_clears_witness :
  tables ex_diagram <> [] /\
  tables (render ex_diagram None) = [] /\
  layer_tables (render ex_diagram (Some (mkDbmlData (Some [])))) = [].
Proof.
  split; [vm_compute; discriminate|]. split.
  - exact (proj1 (proj2 (render_without_schema_clears ex_diagram None
                           no_dbmlData))).
  - destruct (render_without_schema_clears ex_diagram _ empty_schemas)
      as (_ & _ & _ & H & _).
    exact H.
Defined.

(** ** [updatePath] *)

Lemma findTableByName_None d tableName :
  findTableByName d tableName = None <-> table_absent d tableName.
Proof.
  unfold findTableByName, table_absent.
  destruct (List.find _ (tables d)) as [[k td]|] eqn:Hfind; simpl.
  - split; [discriminate|]. intros Habs.
    apply find_some in Hfind as [Hin Heq]. simpl in Heq.
    apply String.eqb_eq in Heq. exfalso. exact (Habs k td Hin Heq).
  - split; [|reflexivity]. intros _ k td Hin Heq.
    pose proof (find_none _ _ Hfind (k, td) Hin) as Hn. simpl in Hn.
    apply String.eqb_neq in Hn. exact (Hn Heq).
Qed.

Lemma findTableByName_set_path_d d el p tableName :
  findTableByName (set_path_d d el p) tableName = findTableByName d tableName.
Proof. reflexivity. Qed.

(** C8. For a relationship whose endpoints resolved (its renderer has its
    element and its [relInfo]): when the table mapping has no record for
    one of the two table names, [updatePath] returns the state it was given
    (no path is written, nothing fails), and the [<path>] that
    [RelationshipRenderer.render] makes for such a relationship is left
    without a [d] attribute, so nothing is drawn; when both tables have a
    record, [updatePath] writes the path between the two connection points;
    and in every state calling [updatePath] twice gives the state that
    calling it once gives. *)
Theorem updatePath_dangling_noop_and_idempotent (d : Diagram)
    (r : RelationshipRenderer) :
  (forall el relInfo,
      rr_element r = Some el -> rr_relInfo r = Some relInfo ->
      table_absent d (fromTable relInfo) \/ table_absent d (toTable relInfo) ->
      updatePath d r = d) /\
  (forall relInfo,
      parseRelationship (rr_ref r) = Some relInfo ->
      table_absent d (fromTable relInfo) \/ table_absent d (toTable relInfo) ->
      fst (fst (RelationshipRenderer_render d r))
        = set_path_elems d (path_elems d ++ [mkPathElem None])) /\
  (forall el relInfo fromTableData toTableData,
      rr_element r = Some el -> rr_relInfo r = Some relInfo ->
      findTableByName d (fromTable relInfo) = Some fromTableData ->
      findTableByName d (toTable relInfo) = Some toTableData ->
      updatePath d r =
        set_path_d d el
          (createManhattanPath
             (getConnectionPoint fromTableData (fromField relInfo))
             (getConnectionPoint toTableData (toField relInfo)))) /\
  updatePath (updatePath d r) r = updatePath d r.
Proof.
  assert (Hnoop : forall d' r' el relInfo,
             rr_element r' = Some el -> rr_relInfo r' = Some relInfo ->
             table_absent d' (fromTable relInfo)
             \/ table_absent d' (toTable relInfo) ->
             updatePath d' r' = d').
  { intros d' r' el relInfo Hel Hinfo Habs. unfold updatePath.
    rewrite Hel, Hinfo.
    destruct Habs as [Habs|Habs]; apply findTableByName_None in Habs;
      rewrite Habs; [reflexivity|].
    destruct (findTableByName d' (fromTable relInfo)); reflexivity. }
  split; [|split; [|split]].
  - apply Hnoop.
  - intros relInfo Hparse Habs. unfold RelationshipRenderer_render.
    rewrite Hparse. simpl.
    eapply Hnoop; [reflexivity|reflexivity|exact Habs].
  - intros el relInfo fromTableData toTableData Hel Hinfo Hf Ht.
    unfold updatePath. rewrite Hel, Hinfo, Hf, Ht. reflexivity.
  - unfold updatePath.
    destruct (rr_element r) as [el|]; [|reflexivity].
    destruct (rr_relInfo r) as [relInfo|]; [|reflexivity].
    destruct (findTableByName d (fromTable relInfo)) as [fromTableData|] eqn:Hf;
      [|cbv beta iota; rewrite Hf; reflexivity].
    destruct (findTableByName d (toTable relInfo)) as [toTableData|] eqn:Ht;
      [|cbv beta iota; rewrite Hf, Ht; reflexivity].
    cbv beta iota zeta. rewrite !findTableByName_set_path_d, Hf, Ht.
    unfold set_path_d. simpl. rewrite list_insert_insert_eq. reflexivity.
Qed.

(** In [ex_diagram] there is no table [comments]. *)
Lemma updatePath_dangling_noop_and_idempotent_witness :
  table_absent ex_diagram "comments" /\
  updatePath ex_diagram ex_dangling = ex_diagram.
Proof.
  assert (Habs : table_absent ex_diagram "comments").
  { apply findTableByName_None. vm_compute. reflexivity. }
  split; [exact Habs|].
  apply (proj1 (updatePath_dangling_noop_and_idempotent ex_diagram ex_dangling)
           0%nat (mkRelInfo "posts" (Some "id"%string) "comments"
                            (Some "id"%string)) eq_refl eq_refl).
  right. exact Habs.
Defined.

(** ** Strings *)

Section Strings.
Local Open Scope string_scope.

Lemma append_inv_head (p x y : string) : p ++ x = p ++ y -> x = y.
Proof.
  induction p as [|c p IH]; simpl; intros H.
  - exact H.
  - injection H as H. apply IH, H.
Qed.

Lemma strip_prefix_Some (sep s rest : string) :
  strip_prefix sep s = Some rest <-> s = sep ++ rest.
Proof.
  revert s. induction sep as [|a sep IH]; intros s; simpl.
  - split; [intros [= ->]; reflexivity | intros ->; reflexivity].
  - destruct s as [|b s].
    + split; discriminate.
    + destruct (Ascii.eqb a b) eqn:Hab.
      * apply Ascii.eqb_eq in Hab as ->. rewrite IH.
        split; [intros ->; reflexivity | intros [= ->]; reflexivity].
      * apply Ascii.eqb_neq in Hab. split; [discriminate|].
        intros [= Hba _]. congruence.
Qed.

Lemma strip_prefix_None (sep s : string) :
  strip_prefix sep s = None -> forall v, s <> sep ++ v.
Proof.
  intros Hnone v Hs. apply strip_prefix_Some in Hs. congruence.
Qed.

Lemma cut_Some (sep s a b : string) :
  cut sep s = Some (a, b) <-> leftmost_cut sep s a b.
Proof.
  revert a b. induction s as [|c s IH]; intros a b.
  - simpl. destruct (strip_prefix sep "") as [rest|] eqn:Hp.
    + apply strip_prefix_Some in Hp. split.
      * intros [= <- <-]. split; [exact Hp|]. intros; simpl; lia.
      * intros [Hs Hmin]. specialize (Hmin "" rest Hp).
        destruct a; simpl in Hmin; [|lia].
        simpl in Hs. rewrite Hp in Hs. apply append_inv_head in Hs.
        congruence.
    + split; [discriminate|]. intros [Hs _].
      destruct a; simpl in Hs; [|discriminate].
      exfalso. exact (strip_prefix_None _ _ Hp b Hs).
  - cbn [cut]. destruct (strip_prefix sep (String c s)) as [rest|] eqn:Hp.
    + apply strip_prefix_Some in Hp. split.
      * intros [= <- <-]. split; [exact Hp|]. intros; simpl; lia.
      * intros [Hs Hmin]. specialize (Hmin "" rest Hp).
        destruct a; simpl in Hmin; [|lia].
        simpl in Hs. rewrite Hp in Hs. apply append_inv_head in Hs.
        congruence.
    + destruct (cut sep s) as [[a' b']|] eqn:Hc.
      * destruct (proj1 (IH a' b') eq_refl) as [Hs' Hmin']. split.
        -- intros [= <- <-]. split; [simpl; congruence|].
           intros [|c' u] v Hu.
           ++ exfalso. exact (strip_prefix_None _ _ Hp v Hu).
           ++ simpl in Hu. injection Hu as _ Hu. simpl.
              specialize (Hmin' u v Hu). lia.
        -- intros [Hs Hmin]. destruct a as [|c' a].
           ++ exfalso. exact (strip_prefix_None _ _ Hp b Hs).
           ++ simpl in Hs. injection Hs as <- Hs.
              assert (Hcut : Some (a', b') = Some (a, b)); [|congruence].
              apply IH. split; [exact Hs|]. intros u v Hu.
              specialize (Hmin (String c u) v). simpl in Hmin.
              rewrite Hu in Hmin. specialize (Hmin eq_refl). lia.
      * split; [discriminate|]. intros [Hs Hmin]. destruct a as [|c' a].
        -- exfalso. exact (strip_prefix_None _ _ Hp b Hs).
        -- simpl in Hs. injection Hs as <- Hs.
           assert (Hcut : None = Some (a, b)); [|discriminate].
           apply IH. split; [exact Hs|]. intros u v Hu.
           specialize (Hmin (String c u) v). simpl in Hmin.
           rewrite Hu in Hmin. specialize (Hmin eq_refl). lia.
Qed.

Lemma cut_None (sep s : string) : cut sep s = None <-> ~ occurs sep s.
Proof.
  split.
  - induction s as [|c s IH]; cbn [cut].
    + destruct (strip_prefix sep "") eqn:Hp; [discriminate|].
      intros _ (u & v & Hs). destruct u; simpl in Hs; [|discriminate].
      exact (strip_prefix_None _ _ Hp v Hs).
    + destruct (strip_prefix sep (String c s)) eqn:Hp; [discriminate|].
      destruct (cut sep s) as [[a b]|]; [discriminate|].
      intros _ (u & v & Hs). destruct u as [|c' u].
      * exact (strip_prefix_None _ _ Hp v Hs).
      * simpl in Hs. injection Hs as _ Hs. apply IH; [reflexivity|].
        exists u, v. exact Hs.
  - intros Hno. destruct (cut sep s) as [[a b]|] eqn:Hc; [|reflexivity].
    exfalso. apply Hno. apply cut_Some in Hc as [Hs _]. exists a, b. exact Hs.
Qed.

Lemma split_rounds_not_nil n sep s : split_rounds n sep s <> [].
Proof.
  destruct n; simpl; [discriminate|].
  destruct (cut sep s) as [[a b]|]; discriminate.
Qed.

Lemma append_length (a b : string) :
  String.length (a ++ b) = (String.length a + String.length b)%nat.
Proof. induction a as [|c a IH]; simpl; [reflexivity|]. rewrite IH. reflexivity. Qed.

(** With a separator that is not empty, [split] gives two parts exactly
    when the text can be cut once and not twice. *)
Lemma split_two (sep s a b : string) :
  sep <> "" ->
  split sep s = [a; b] <-> cut sep s = Some (a, b) /\ cut sep b = None.
Proof.
  intros Hsep. unfold split. cbn [split_rounds].
  destruct (cut sep s) as [[a' b']|] eqn:Hc.
  - assert (Hlen : exists m, String.length s = S m).
    { apply cut_Some in Hc as [-> _]. rewrite !append_length.
      destruct sep as [|c sep]; [congruence|]. simpl.
      exists (String.length a' + (String.length sep + String.length b'))%nat.
      lia. }
    destruct Hlen as [m ->]. cbn [split_rounds].
    destruct (cut sep b') as [[a2 b2]|] eqn:Hc2.
    + split.
      * intros [= _ _ Hrest]. exfalso.
        exact (split_rounds_not_nil _ _ _ Hrest).
      * intros [[= -> ->] Hnone]. congruence.
    + split.
      * intros [= -> ->]. split; [reflexivity|exact Hc2].
      * intros [[= -> ->] _]. reflexivity.
  - split; [discriminate|]. intros [Hs _]. discriminate.
Qed.
End Strings.

(** ** Resolution of a relationship's endpoints *)

Lemma key_eqb_eq (a b : Key) : key_eqb a b = true <-> a = b.
Proof.
  destruct a as [n|s|], b as [m|t|]; simpl;
    try (split; [discriminate|intros [=]]); try (split; reflexivity).
  - rewrite Z.eqb_eq. split; [intros ->; reflexivity|intros [= ->]; reflexivity].
  - rewrite String.eqb_eq. split; [intros ->; reflexivity|intros [= ->]; reflexivity].
Qed.

Lemma key_eqb_refl (a : Key) : key_eqb a a = true.
Proof. apply key_eqb_eq. reflexivity. Qed.

Lemma Map_get_set_eq {V : Type} (k : Key) (v : V) (m : list (Key * V)) :
  Map_get k (Map_set k v m) = Some v.
Proof.
  induction m as [|[k' v'] m IH]; simpl.
  - rewrite key_eqb_refl. reflexivity.
  - destruct (key_eqb k k') eqn:Hk; simpl.
    + rewrite key_eqb_refl. reflexivity.
    + rewrite Hk. exact IH.
Qed.

Lemma truthy_true (o : option string) :
  truthy o = true <-> exists s, o = Some s /\ s <> EmptyString.
Proof.
  destruct o as [[|c s]|]; simpl.
  - split; [discriminate|]. intros (s & [= <-] & Hs). congruence.
  - split; [|reflexivity]. intros _. exists (String c s). split; [reflexivity|discriminate].
  - split; [discriminate|]. intros (s & Hs & _). discriminate.
Qed.

Lemma has_explicit_endpoints_truthy (r : Ref) :
  has_explicit_endpoints r <->
  truthy (ref_fromTable r) && truthy (ref_toTable r) = true.
Proof.
  rewrite andb_true_iff, !truthy_true. unfold has_explicit_endpoints,
    explicit_endpoints. split.
  - intros (ft & tt & Hf & Ht & Hfn & Htn). split; eauto.
  - intros [(ft & Hf & Hfn) (tt & Ht & Htn)]. exists ft, tt. auto.
Qed.

Lemma follows_convention_split (name a b : string) :
  follows_convention name a b <-> split "_to_" name = [a; b].
Proof.
  unfold follows_convention. rewrite split_two by discriminate.
  rewrite cut_Some, cut_None. reflexivity.
Qed.

Lemma follows_convention_includes (name a b : string) :
  follows_convention name a b ->
  truthy (Some name) && includes "_to_" name = true.
Proof.
  intros [Hcut _]. pose proof Hcut as [Hname _].
  apply cut_Some in Hcut. unfold includes. rewrite Hcut.
  destruct name; [|reflexivity].
  destruct a; discriminate.
Qed.

(** C7. The endpoints of a relationship. When it carries an explicit source
    and target table, these and its two fields are its endpoints. Otherwise,
    when its identifier follows the convention [<a>_to_<b>], its endpoints
    are the field [id] of [a] and the field [id] of [b]. When neither is the
    case [parseRelationship] gives nothing. A relationship without
    endpoints is dropped by [renderRelationships]: the state is left as it
    was, no element and no entry is made, nothing fails; a relationship with
    endpoints is recorded with them. *)
Theorem parseRelationship_resolution (r : Ref) :
  (forall ft tt,
      explicit_endpoints r ft tt ->
      parseRelationship r =
        Some (mkRelInfo ft (ref_fromField r) tt (ref_toField r))) /\
  (forall name a b,
      ~ has_explicit_endpoints r ->
      ref_name r = Some name -> follows_convention name a b ->
      parseRelationship r =
        Some (mkRelInfo a (Some "id"%string) b (Some "id"%string))) /\
  (~ has_explicit_endpoints r ->
   (forall name a b, ref_name r = Some name -> ~ follows_convention name a b) ->
   parseRelationship r = None) /\
  (forall d index,
      parseRelationship r = None -> renderRelationships_step d r index = d) /\
  (forall d index relInfo,
      parseRelationship r = Some relInfo ->
      exists rd,
        Map_get (ref_key r) (relationships (renderRelationships_step d r index))
          = Some rd /\
        rr_relInfo (rd_renderer rd) = Some relInfo).
Proof.
  split; [|split; [|split; [|split]]].
  - intros ft tt (Hf & Ht & Hfn & Htn).
    assert (He : truthy (ref_fromTable r) && truthy (ref_toTable r) = true).
    { apply has_explicit_endpoints_truthy. exists ft, tt. repeat split; assumption. }
    unfold parseRelationship. rewrite He, Hf, Ht. reflexivity.
  - intros name a b Hne Hname Hconv.
    unfold parseRelationship.
    destruct (truthy (ref_fromTable r) && truthy (ref_toTable r)) eqn:He.
    { exfalso. apply Hne, has_explicit_endpoints_truthy, He. }
    rewrite Hname, (follows_convention_includes name a b Hconv).
    apply follows_convention_split in Hconv. rewrite Hconv. reflexivity.
  - intros Hne Hnc. unfold parseRelationship.
    destruct (truthy (ref_fromTable r) && truthy (ref_toTable r)) eqn:He.
    { exfalso. apply Hne, has_explicit_endpoints_truthy, He. }
    destruct (ref_name r) as [name|]; [|reflexivity].
    destruct (truthy (Some name) && includes "_to_" name); [|reflexivity].
    destruct (split "_to_" name) as [|a [|b [|c parts]]] eqn:Hs; try reflexivity.
    exfalso. apply (Hnc name a b eq_refl), follows_convention_split, Hs.
  - intros d index Hnone. unfold renderRelationships_step,
      RelationshipRenderer_render. simpl. rewrite Hnone. reflexivity.
  - intros d index relInfo Hsome. unfold renderRelationships_step,
      RelationshipRenderer_render. simpl. rewrite Hsome.
    eexists. split; [apply Map_get_set_eq|]. reflexivity.
Qed.

(** The identifier [orders_to_customers] resolves to [orders.id] and
    [customers.id]. *)
Lemma parseRelationship_resolution_witness :
  follows_convention "orders_to_customers" "orders" "customers" /\
  parseRelationship ex_named_ref =
    Some (mkRelInfo "orders" (Some "id"%string) "customers" (Some "id"%string)).
Proof.
  assert (Hconv : follows_convention "orders_to_customers" "orders" "customers").
  { apply follows_convention_split. vm_compute. reflexivity. }
  split; [exact Hconv|].
  apply (proj1 (proj2 (parseRelationship_resolution ex_named_ref))
           "orders_to_customers"%string "orders"%string "customers"%string).
  - intros (ft & tt & Hf & _). discriminate.
  - reflexivity.
  - exact Hconv.
Defined.

(** ** The drag gesture *)

Lemma updatePath_tables d r :
  tables (updatePath d r) = tables d /\
  table_elems (updatePath d r) = table_elems d /\
  svg (updatePath d r) = svg d.
Proof.
  unfold updatePath.
  destruct (rr_element r), (rr_relInfo r) as [relInfo|];
    try (repeat split; reflexivity).
  destruct (findTableByName d (fromTable relInfo)),
           (findTableByName d (toTable relInfo)); repeat split; reflexivity.
Qed.

Lemma updateAllRelationships_tables d :
  tables (updateAllRelationships d) = tables d /\
  table_elems (updateAllRelationships d) = table_elems d.
Proof.
  unfold updateAllRelationships. split.
  - apply (forEach_preserves tables). intros s a i. apply updatePath_tables.
  - apply (forEach_preserves table_elems). intros s a i. apply updatePath_tables.
Qed.

Lemma Map_get_modify_eq {V : Type} (k : Key) (f : V -> V) (m : list (Key * V))
    (v : V) :
  Map_get k m = Some v -> Map_get k (Map_modify k f m) = Some (f v).
Proof.
  induction m as [|[k' v'] m IH]; simpl; [discriminate|].
  destruct (key_eqb k k') eqn:Hk; simpl; rewrite Hk.
  - intros [= ->]. reflexivity.
  - exact IH.
Qed.

Lemma table_elem_attr_update d el f j :
  keeps_position f ->
  table_elem_attr (update_table_elem d el f) j el_x = table_elem_attr d j el_x /\
  table_elem_attr (update_table_elem d el f) j el_y = table_elem_attr d j el_y.
Proof.
  intros Hf. unfold table_elem_attr, update_table_elem. simpl.
  rewrite list_lookup_alter. destruct (decide (el = j)) as [->|]; [|auto].
  destruct (table_elems d !! j) as [e0|]; simpl; [apply Hf|auto].
Qed.

Lemma setAllTablesOpacity_attr d o j :
  table_elem_attr (setAllTablesOpacity d o) j el_x = table_elem_attr d j el_x /\
  table_elem_attr (setAllTablesOpacity d o) j el_y = table_elem_attr d j el_y.
Proof.
  unfold setAllTablesOpacity. split.
  - apply (forEach_preserves (fun s => table_elem_attr s j el_x)).
    intros s a i. apply table_elem_attr_update. intros e0. split; reflexivity.
  - apply (forEach_preserves (fun s => table_elem_attr s j el_y)).
    intros s a i. apply table_elem_attr_update. intros e0. split; reflexivity.
Qed.

Lemma setAllTablesOpacity_svg d o : svg (setAllTablesOpacity d o) = svg d.
Proof.
  unfold setAllTablesOpacity. apply (forEach_preserves svg). reflexivity.
Qed.

(** What [onMouseDown] captures: the drag is in progress, the start position
    is the position of the element, the start of the pointer is the pointer
    of the event. *)
Lemma onMouseDown_captures d c e :
  let c' := snd (onMouseDown d c e) in
  isDragging c' = true /\
  drag_element c' = drag_element c /\
  drag_table c' = drag_table c /\
  startX c' = table_elem_attr d (drag_element c) el_x /\
  startY c' = table_elem_attr d (drag_element c) el_y /\
  startMouseX c' = pointer_x d e /\
  startMouseY c' = pointer_y d e.
Proof.
  assert (Hk : forall v, keeps_position (set_el_opacity v))
    by (intros v e0; split; reflexivity).
  assert (Hk1 : forall v, keeps_position (set_el_dragging v))
    by (intros v e0; split; reflexivity).
  assert (Hk2 : forall v, keeps_position (set_el_cursor v))
    by (intros v e0; split; reflexivity).
  simpl. split; [reflexivity|]. split; [reflexivity|]. split; [reflexivity|].
  split; [|split; [|split]].
  - rewrite (proj1 (table_elem_attr_update _ _ _ _ (Hk _))).
    rewrite (proj1 (setAllTablesOpacity_attr _ _ _)).
    rewrite (proj1 (table_elem_attr_update _ _ _ _ (Hk1 _))).
    apply (table_elem_attr_update _ _ _ _ (Hk2 _)).
  - rewrite (proj2 (table_elem_attr_update _ _ _ _ (Hk _))).
    rewrite (proj2 (setAllTablesOpacity_attr _ _ _)).
    rewrite (proj2 (table_elem_attr_update _ _ _ _ (Hk1 _))).
    apply (table_elem_attr_update _ _ _ _ (Hk2 _)).
  - unfold pointer_x. rewrite setAllTablesOpacity_svg. reflexivity.
  - unfold pointer_y. rewrite setAllTablesOpacity_svg. reflexivity.
Qed.

Lemma drag_clamp_range (v extent : num) :
  -1000 <= drag_clamp v extent /\
  (-1000 <= extent + 1000 -> drag_clamp v extent <= extent + 1000).
Proof.
  unfold drag_clamp, Math_max, Math_min. split.
  - apply Q.le_max_l.
  - intros H. apply Q.max_lub; [exact H|apply Q.le_min_r].
Qed.

(** C1, as the code has it. For every move event of a table drag in
    progress -- the closure is the one that [onMouseDown] left, whatever
    happened to the state since -- the new position is the position of the
    element at the start of the drag plus the pointer's screen-space delta,
    taken as it is (it is not divided by the zoom), clamped in each axis to
    [[-1000, extent + 1000]], where the extent is the client size of the SVG
    divided by the current zoom. This position is written to the element,
    and to the record that the table mapping holds for the table. *)
Theorem drag_move_position (d0 : Diagram) (c0 : DragClosure) (e0 : MouseEvent)
    (d : Diagram) (e : MouseEvent) :
  let c := snd (onMouseDown d0 c0 e0) in
  let element := drag_element c0 in
  let deltaX := pointer_x d e - pointer_x d0 e0 in
  let deltaY := pointer_y d e - pointer_y d0 e0 in
  let X := drag_clamp (table_elem_attr d0 element el_x + deltaX)
                      (viewportExtent_x d) in
  let Y := drag_clamp (table_elem_attr d0 element el_y + deltaY)
                      (viewportExtent_y d) in
  let d' := onMouseMove d c e in
  (forall el0, table_elems d !! element = Some el0 ->
     table_elems d' !! element = Some (set_el_y Y (set_el_x X el0))) /\
  (forall td, Map_get (table_key (drag_table c0)) (tables d) = Some td ->
     Map_get (table_key (drag_table c0)) (tables d') = Some (set_td_xy X Y td)) /\
  -1000 <= X /\ -1000 <= Y /\
  (-1000 <= viewportExtent_x d + 1000 -> X <= viewportExtent_x d + 1000) /\
  (-1000 <= viewportExtent_y d + 1000 -> Y <= viewportExtent_y d + 1000).
Proof.
  intros c element deltaX deltaY X Y d'.
  destruct (onMouseDown_captures d0 c0 e0)
    as (Hdrag & Hel & Htab & Hsx & Hsy & Hmx & Hmy).
  fold c in Hdrag, Hel, Htab, Hsx, Hsy, Hmx, Hmy.
  assert (Hd' : d' =
    updateAllRelationships
      (set_tables
         (update_table_elem (update_table_elem d element (set_el_x X))
                            element (set_el_y Y))
         (Map_modify (table_key (drag_table c0)) (set_td_xy X Y) (tables d)))).
  { unfold d', onMouseMove. rewrite Hdrag. cbn [negb].
    rewrite Hel, Htab, Hsx, Hsy, Hmx, Hmy. reflexivity. }
  split; [|split].
  - intros el0 Hel0. rewrite Hd'.
    rewrite (proj2 (updateAllRelationships_tables _)). simpl.
    rewrite !list_lookup_alter_eq, Hel0. reflexivity.
  - intros td Htd. rewrite Hd'.
    rewrite (proj1 (updateAllRelationships_tables _)). simpl.
    apply Map_get_modify_eq, Htd.
  - pose proof (drag_clamp_range
                  (table_elem_attr d0 element el_x + deltaX) (viewportExtent_x d)).
    pose proof (drag_clamp_range
                  (table_elem_attr d0 element el_y + deltaY) (viewportExtent_y d)).
    tauto.
Qed.

(** In [ex_zoomed] (zoom 2) the table [users] is at [(50, 50)]; a move of the
    pointer by [(100, 30)] brings its record to [(150, 80)]. *)
Lemma drag_move_position_witness :
  let d := fst (onMouseDown ex_zoomed ex_drag_users ex_press) in
  let c := snd (onMouseDown ex_zoomed ex_drag_users ex_press) in
  exists td,
    Map_get (KStr "users") (tables d) = Some td /\
    Map_get (KStr "users") (tables (onMouseMove d c ex_move)) =
      Some (set_td_xy (drag_clamp (50 + (200 - 0 - (100 - 0))) (800 / 2))
                      (drag_clamp (50 + (130 - 0 - (100 - 0))) (600 / 2)) td).
Proof.
  intros d c.
  assert (Htd : Map_get (KStr "users") (tables d)
                = Some (mkTableData ex_users 0 50 50 250 65))
    by (vm_compute; reflexivity).
  eexists. split; [exact Htd|].
  exact (proj1 (proj2 (drag_move_position ex_zoomed ex_drag_users ex_press
                         d ex_move)) _ Htd).
Defined.

(** C1 with the delta divided by the zoom does not hold: at zoom 2 a pointer delta of 100 moves
    the stored [x] of the table from 50 to 150, where the delta divided by
    the zoom would give 100; both lie well inside the clamp interval. *)
Lemma drag_move_delta_not_divided_by_zoom :
  let d := fst (onMouseDown ex_zoomed ex_drag_users ex_press) in
  let c := snd (onMouseDown ex_zoomed ex_drag_users ex_press) in
  let d' := onMouseMove d c ex_move in
  let deltaX := pointer_x d ex_move - pointer_x ex_zoomed ex_press in
  zoom d == 2 /\ deltaX == 100 /\
  startX c == 50 /\
  (td_x <$> Map_get (KStr "users") (tables d')) = Some 150 /\
  zoom_scaled_drag (startX c) deltaX (viewportExtent_x d) d == 100 /\
  ~ (150 == zoom_scaled_drag (startX c) deltaX (viewportExtent_x d) d).
Proof.
  intros d c d' deltaX.
  assert (Hscaled : zoom_scaled_drag (startX c) deltaX (viewportExtent_x d) d
                   == 100) by (vm_compute; reflexivity).
  split; [vm_compute; reflexivity|].
  split; [vm_compute; reflexivity|].
  split; [vm_compute; reflexivity|].
  split; [vm_compute; reflexivity|].
  split; [exact Hscaled|].
  rewrite Hscaled. vm_compute. discriminate.
Qed.

(** ** The grid layout *)

Lemma forEach_from_invariant {A St : Type} (P : St -> Prop)
    (f : St -> A -> nat -> St) :
  (forall s a i, P s -> P (f s a i)) ->
  forall l i s, P s -> P (forEach_from f l i s).
Proof.
  intros Hf l. induction l as [|a l IH]; intros i s Hs; simpl.
  - exact Hs.
  - apply IH, Hf, Hs.
Qed.

Section MapSet.
Context {V B : Type} (g : Key * V -> B).

Lemma Map_set_elem_of k v (m : list (Key * V)) x :
  x ∈ g <$> Map_set k v m -> x = g (k, v) \/ x ∈ g <$> m.
Proof.
  induction m as [|[k' v'] m IH]; simpl.
  - rewrite list_elem_of_singleton. auto.
  - destruct (key_eqb k k'); rewrite !fmap_cons, !elem_of_cons.
    + intros [->|H]; auto.
    + intros [->|H]; [auto|]. destruct (IH H); auto.
Qed.

Lemma Map_set_NoDup k v (m : list (Key * V)) :
  NoDup (g <$> m) -> g (k, v) ∉ g <$> m -> NoDup (g <$> Map_set k v m).
Proof.
  induction m as [|[k' v'] m IH]; simpl.
  - intros _ _. apply NoDup_singleton.
  - rewrite NoDup_cons, not_elem_of_cons. intros [Hnin Hnd] [Hne Hfresh].
    destruct (key_eqb k k'); rewrite fmap_cons, NoDup_cons.
    + auto.
    + split; [|auto]. intros Hin.
      apply Map_set_elem_of in Hin as [Heq|Hin]; [congruence|auto].
Qed.
End MapSet.

Lemma Map_set_fresh {V : Type} k (v : V) (m : list (Key * V)) :
  k ∉ fst <$> m -> Map_set k v m = m ++ [(k, v)].
Proof.
  induction m as [|[k' v'] m IH]; simpl; [reflexivity|].
  rewrite not_elem_of_cons. intros [Hne Hnin].
  destruct (key_eqb k k') eqn:Hk.
  - apply key_eqb_eq in Hk. contradiction.
  - rewrite IH by exact Hnin. reflexivity.
Qed.

Lemma Map_get_lookup {V : Type} (m : list (Key * V)) i k (v : V) :
  NoDup (fst <$> m) -> m !! i = Some (k, v) -> Map_get k m = Some v.
Proof.
  revert i. induction m as [|[k' v'] m IH]; intros i; [discriminate|].
  rewrite fmap_cons, NoDup_cons. intros [Hnin Hnd]. destruct i as [|i]; simpl.
  - intros [= -> ->]. rewrite key_eqb_refl. reflexivity.
  - intros Hi. destruct (key_eqb k k') eqn:Hk.
    + apply key_eqb_eq in Hk as ->. exfalso. apply Hnin.
      apply list_elem_of_fmap. exists (k', v). split; [reflexivity|].
      eapply list_elem_of_lookup_2, Hi.
    + eapply IH; eassumption.
Qed.

Lemma elements_wf_clearDiagram d : elements_wf (clearDiagram d).
Proof.
  split; simpl.
  - apply NoDup_nil_2.
  - intros el Hel. apply elem_of_nil in Hel. contradiction.
Qed.

Lemma renderTables_step_heap d t i :
  length (table_elems (renderTables_step d t i)) = S (length (table_elems d)).
Proof.
  unfold renderTables_step, makeDraggable, update_table_elem. simpl.
  rewrite !length_alter, length_app. simpl. lia.
Qed.

Lemma renderTables_step_wf d t i :
  elements_wf d -> elements_wf (renderTables_step d t i).
Proof.
  intros [Hnd Hlt]. split.
  - unfold renderTables_step. simpl. apply (Map_set_NoDup (fun e => td_element (snd e))).
    + exact Hnd.
    + simpl. intros Hin. apply Hlt in Hin. lia.
  - intros el Hel. rewrite renderTables_step_heap.
    unfold renderTables_step in Hel. simpl in Hel.
    apply (Map_set_elem_of (fun e => td_element (snd e))) in Hel
      as [->|Hel]; simpl.
    + lia.
    + apply Hlt in Hel. lia.
Qed.

Lemma renderTables_wf d ts : elements_wf d -> elements_wf (renderTables d ts).
Proof.
  unfold renderTables, forEach. apply forEach_from_invariant.
  intros s a i. apply renderTables_step_wf.
Qed.

Lemma renderRelationships_tables d refs :
  tables (renderRelationships d refs) = tables d /\
  table_elems (renderRelationships d refs) = table_elems d.
Proof.
  assert (Hstep : forall s a (i : nat),
             tables (renderRelationships_step s a i) = tables s /\
             table_elems (renderRelationships_step s a i) = table_elems s).
  { intros s a i. unfold renderRelationships_step, RelationshipRenderer_render.
    destruct (parseRelationship _); simpl; [|auto].
    match goal with |- context [updatePath ?d' ?r'] =>
      destruct (updatePath_tables d' r') as (-> & -> & _) end.
    auto. }
  unfold renderRelationships. split.
  - apply (forEach_preserves tables). intros s a i. apply Hstep.
  - apply (forEach_preserves table_elems). intros s a i. apply Hstep.
Qed.

Lemma td_elements_skeleton (m : list (Key * TableData)) :
  td_elements m = snd <$> (skeleton <$> m).
Proof. unfold td_elements. rewrite <- list_fmap_compose. reflexivity. Qed.

Lemma autoLayout_loop d n :
  elements_wf d -> (n <= length (tables d))%nat ->
  laid_out_upto d (foldl autoLayout_step d (seq 0 n)) n.
Proof.
  intros [Hnd Hlt]. induction n as [|n IH]; intros Hn.
  - simpl. split; [reflexivity|]. split; [reflexivity|]. intros; lia.
  - rewrite seq_S, foldl_snoc. simpl.
    destruct (IH ltac:(lia)) as (Hsk & Hlen & Hgrid).
    set (s := foldl autoLayout_step d (seq 0 n)) in *.
    assert (Hels : td_elements (tables s) = td_elements (tables d))
      by (rewrite !td_elements_skeleton, Hsk; reflexivity).
    assert (Hlt_s : length (tables s) = length (tables d)).
    { rewrite <- (length_fmap skeleton (tables s)), Hsk, length_fmap.
      reflexivity. }
    destruct (lookup_lt_is_Some_2 (tables s) n ltac:(lia)) as [[k td] Hk].
    assert (Hel_n : td_elements (tables s) !! n = Some (td_element td)).
    { unfold td_elements. rewrite list_lookup_fmap, Hk. reflexivity. }
    assert (Hheap : (td_element td < length (table_elems s))%nat).
    { rewrite Hlen. apply Hlt. rewrite <- Hels.
      eapply list_elem_of_lookup_2, Hel_n. }
    destruct (lookup_lt_is_Some_2 (table_elems s) _ Hheap) as [e0 He0].
    unfold autoLayout_step. rewrite Hk.
    unfold laid_out_upto, update_table_elem. simpl. split; [|split].
    + rewrite list_fmap_insert. rewrite <- Hsk. apply list_insert_id.
      rewrite list_lookup_fmap, Hk. reflexivity.
    + rewrite !length_alter. exact Hlen.
    + intros i k' td' Hi Hlook.
      destruct (decide (i = n)) as [->|Hne].
      * rewrite list_lookup_insert_eq in Hlook by lia.
        injection Hlook as <- <-. simpl.
        split; [reflexivity|]. split; [reflexivity|].
        rewrite !list_lookup_alter_eq, He0. simpl. eexists.
        split; [reflexivity|]. split; reflexivity.
      * rewrite list_lookup_insert_ne in Hlook by congruence.
        destruct (Hgrid i k' td' ltac:(lia) Hlook)
          as (Hx & Hy & el & Hel & Hex & Hey).
        split; [exact Hx|]. split; [exact Hy|].
        assert (Hel_i : td_elements (tables s) !! i = Some (td_element td')).
        { unfold td_elements. rewrite list_lookup_fmap, Hlook. reflexivity. }
        assert (Hdiff : td_element td <> td_element td').
        { intros Heq. rewrite Heq in Hel_n. apply Hne.
          rewrite <- Hels in Hnd.
          exact (NoDup_lookup _ _ _ _ Hnd Hel_i Hel_n). }
        rewrite !list_lookup_alter_ne by exact Hdiff.
        exists el. auto.
Qed.

(** The keys and tables of the mapping that [renderTables] builds from
    tables whose keys are new and pairwise distinct. *)
Lemma renderTables_from_skeleton ts :
  forall idx d,
    NoDup (table_key <$> ts) ->
    (forall t, t ∈ ts -> table_key t ∉ fst <$> tables d) ->
    (fst <$> (skeleton <$> tables (forEach_from renderTables_step ts idx d)))
    = (fst <$> (skeleton <$> tables d)) ++ ((fun t => (table_key t, t)) <$> ts).
Proof.
  induction ts as [|t ts IH]; intros idx d Hnd Hnew; simpl.
  - rewrite app_nil_r. reflexivity.
  - rewrite fmap_cons, NoDup_cons in Hnd. destruct Hnd as [Hnin Hnd].
    assert (Htab : tables (renderTables_step d t idx) =
                   tables d ++
                     [(table_key t,
                       {| td_table := t;
                          td_element := length (table_elems d);
                          td_x := grid_x idx;
                          td_y := grid_y idx;
                          td_width := 250;
                          td_height :=
                            35 + (of_index (length (table_fields t)) * 30) |})]).
    { unfold renderTables_step. simpl. apply Map_set_fresh, Hnew.
      apply elem_of_cons. auto. }
    rewrite IH.
    + rewrite Htab, !fmap_app. simpl. rewrite <- app_assoc. reflexivity.
    + exact Hnd.
    + intros t' Ht'. rewrite Htab, fmap_app, elem_of_app. intros [Hin|Hin].
      * apply (Hnew t'); [apply elem_of_cons; auto|exact Hin].
      * simpl in Hin. apply list_elem_of_singleton in Hin.
        apply Hnin. rewrite <- Hin. apply list_elem_of_fmap_2, Ht'.
Qed.

Lemma alter_snoc {A : Type} (f : A -> A) (l : list A) (x : A) :
  alter f (length l) (l ++ [x]) = l ++ [f x].
Proof. induction l as [|a l IH]; simpl; [reflexivity|]. f_equal. exact IH. Qed.

Lemma renderTables_step_elems d t i :
  table_elems (renderTables_step d t i) = table_elems d ++ [rendered_elem t i] /\
  layer_tables (renderTables_step d t i)
    = layer_tables d ++ [length (table_elems d)].
Proof.
  unfold renderTables_step, makeDraggable, update_table_elem. simpl.
  split; [|reflexivity]. rewrite !alter_snoc. reflexivity.
Qed.

(** The elements that [renderTables] adds to the heap and to the layer. *)
Lemma renderTables_from_elems ts :
  forall idx d,
    table_elems (forEach_from renderTables_step ts idx d)
      = table_elems d ++ imap (fun j t => rendered_elem t (idx + j)) ts /\
    layer_tables (forEach_from renderTables_step ts idx d)
      = layer_tables d ++ seq (length (table_elems d)) (length ts).
Proof.
  induction ts as [|t ts IH]; intros idx d; simpl.
  - rewrite !app_nil_r. auto.
  - destruct (IH (S idx) (renderTables_step d t idx)) as [-> ->].
    destruct (renderTables_step_elems d t idx) as [-> ->].
    rewrite length_app, <- !app_assoc. simpl. split.
    + f_equal. f_equal; [f_equal; lia|].
      apply imap_ext. intros j t' _. simpl. f_equal. lia.
    + do 3 f_equal. lia.
Qed.

(** C6. After [render], the record at index [i] of the table mapping (in
    insertion order, the order in which [autoLayout] visits it) and its
    element are at [x = (i mod 3) * 300 + 50], [y = (i div 3) * 250 + 50]:
    the position depends on the index only. When the tables of the schema
    have pairwise distinct identifiers ([table.id || table.name]), the
    record at index [i] is the record of the table at index [i] of the
    schema, and it is the one that the mapping gives for its identifier.
    Before that, [renderTables] has put the element that it builds for the
    table at index [i] of the schema, the child [i] of the tables layer, at
    this position. *)
Theorem render_layout_grid (d : Diagram) (dbmlData : option DbmlData)
    (schema : Schema) :
  first_schema dbmlData = Some schema ->
  let ts := default [] (schema_tables schema) in
  let d' := render d dbmlData in
  (forall i k td,
      tables d' !! i = Some (k, td) ->
      td_x td = of_index (i mod 3) * 300 + 50 /\
      td_y td = of_index (i / 3) * 250 + 50 /\
      exists el,
        table_elems d' !! td_element td = Some el /\
        el_x el = of_index (i mod 3) * 300 + 50 /\
        el_y el = of_index (i / 3) * 250 + 50) /\
  (NoDup (table_key <$> ts) ->
   forall i t,
     ts !! i = Some t ->
     exists td,
       tables d' !! i = Some (table_key t, td) /\
       td_table td = t /\
       Map_get (table_key t) (tables d') = Some td) /\
  (forall i t,
      ts !! i = Some t ->
      exists e el,
        layer_tables (renderTables (clearDiagram d) ts) !! i = Some e /\
        table_elems (renderTables (clearDiagram d) ts) !! e = Some el /\
        el_x el = of_index (i mod 3) * 300 + 50 /\
        el_y el = of_index (i / 3) * 250 + 50).
Proof.
  intros Hfs ts d'.
  set (d2 := renderTables (clearDiagram d) ts).
  set (d3 := renderRelationships d2 (default [] (schema_refs schema))).
  assert (Hd' : d' = autoLayout d3)
    by (unfold d', render; rewrite Hfs; reflexivity).
  clearbody d'. subst d'.
  destruct (renderRelationships_tables d2 (default [] (schema_refs schema)))
    as [Ht3 He3]. fold d3 in Ht3, He3.
  assert (Hwf : elements_wf d3).
  { unfold elements_wf. rewrite Ht3, He3.
    apply renderTables_wf, elements_wf_clearDiagram. }
  destruct (autoLayout_loop d3 (length (tables d3)) Hwf (le_n _))
    as (Hsk & Hlen & Hgrid).
  set (s := foldl autoLayout_step d3 (seq 0 (length (tables d3)))) in *.
  assert (Htd' : tables (autoLayout d3) = tables s)
    by apply updateAllRelationships_tables.
  assert (Hed' : table_elems (autoLayout d3) = table_elems s)
    by apply updateAllRelationships_tables.
  rewrite Htd', Hed'. split; [|split].
  - intros i k td Hi. apply (Hgrid i k td); [|exact Hi].
    apply lookup_lt_Some in Hi.
    rewrite <- (length_fmap skeleton (tables s)), Hsk, length_fmap in Hi.
    exact Hi.
  - intros Hnd i t Hi.
    assert (Hkt : fst <$> (skeleton <$> tables s)
                  = (fun t => (table_key t, t)) <$> ts).
    { rewrite Hsk, Ht3. unfold d2, renderTables, forEach.
      rewrite renderTables_from_skeleton; [reflexivity|exact Hnd|].
      intros t' _ Hin. simpl in Hin. apply elem_of_nil in Hin. exact Hin. }
    assert (Hi' : (fst <$> (skeleton <$> tables s)) !! i = Some (table_key t, t))
      by (rewrite Hkt, list_lookup_fmap, Hi; reflexivity).
    rewrite !list_lookup_fmap in Hi'.
    destruct (tables s !! i) as [[k td]|] eqn:Hlook; [|discriminate].
    simpl in Hi'. injection Hi' as -> Htab.
    exists td. split; [reflexivity|]. split; [exact Htab|].
    apply (Map_get_lookup _ i); [|exact Hlook].
    assert (Hkeys : fst <$> tables s = table_key <$> ts).
    { transitivity (fst <$> (fst <$> (skeleton <$> tables s))).
      - rewrite <- !list_fmap_compose. reflexivity.
      - rewrite Hkt, <- list_fmap_compose. reflexivity. }
    rewrite Hkeys. exact Hnd.
  - intros i t Hi. unfold d2, renderTables, forEach.
    destruct (renderTables_from_elems ts 0 (clearDiagram d)) as [-> ->].
    pose proof (lookup_lt_Some _ _ _ Hi) as Hlt.
    exists (length (table_elems (clearDiagram d)) + i)%nat, (rendered_elem t i).
    split; [|split].
    + simpl. apply lookup_seq_lt, Hlt.
    + rewrite lookup_app_r by lia.
      replace (length (table_elems (clearDiagram d)) + i
               - length (table_elems (clearDiagram d)))%nat with i by lia.
      rewrite list_lookup_imap, Hi. reflexivity.
    + split; reflexivity.
Qed.

(** With seven tables, the table at index 4 is placed at [(350, 300)]. *)
Lemma render_layout_grid_witness :
  exists td,
    Map_get (KNum 4) (tables (render (DiagramRenderer_new ex_box) ex_seven))
      = Some td /\
    td_table td = ex_table 4 "t4" /\
    td_x td == 350 /\ td_y td == 300.
Proof.
  destruct (render_layout_grid (DiagramRenderer_new ex_box) ex_seven
              (mkSchema (Some ex_seven_tables) None) eq_refl)
    as (Hgrid & Hnth & _).
  assert (Hnd : NoDup (table_key <$> ex_seven_tables)).
  { simpl. repeat (apply NoDup_cons_2; [rewrite ?not_elem_of_cons;
      repeat split; try discriminate; apply not_elem_of_nil|]).
    apply NoDup_nil_2. }
  destruct (Hnth Hnd 4%nat (ex_table 4 "t4") eq_refl) as (td & Hi & Htab & Hget).
  destruct (Hgrid 4%nat _ td Hi) as (Hx & Hy & _).
  exists td. split; [exact Hget|]. split; [exact Htab|].
  rewrite Hx, Hy. split; reflexivity.
Defined.

(** ** The scenarios of the specification, run on the model *)

(** Two tables and one relationship give two table shapes and exactly one
    connector, routed between the rows [posts.user_id] and [users.id]. *)
Example end_to_end_scenario :
  layer_tables ex_diagram = [0; 1]%nat /\
  layer_refs ex_diagram = [0%nat] /\
  path_elems ex_diagram
    = [mkPathElem (Some [MoveTo 400 130; LineTo 30 130; LineTo 30 100;
                         LineTo 100 100])].
Proof. vm_compute. repeat split; reflexivity. Qed.

(** A drag that would bring [x] to -5000 stores -1000. *)
Example drag_clamp_scenario :
  let d := fst (onMouseDown ex_diagram ex_drag_users ex_press) in
  let c := snd (onMouseDown ex_diagram ex_drag_users ex_press) in
  startX c + (pointer_x d ex_far_move - startMouseX c) == -5000 /\
  (td_x <$> Map_get (KStr "users") (tables (onMouseMove d c ex_far_move)))
    = Some (-1000).
Proof. split; vm_compute; reflexivity. Qed.

(** At the lowest zoom a tick that zooms out is ignored. *)
Example wheel_out_at_minZoom :
  let d := setZoom (DiagramRenderer_new ex_box) 0.25 in
  onWheel d ex_wheel_out = d.
Proof. vm_compute. reflexivity. Qed.

(** With two tables under one identifier the mapping keeps one record for
    both, in the place of the first: the later table takes grid index 0 and
    the table after it grid index 1. *)
Example render_shared_identifier :
  let d := render (DiagramRenderer_new ex_box) ex_twins in
  ((fun e => (fst e, table_name (td_table (snd e)), td_x (snd e), td_y (snd e)))
     <$> tables d)
  = [(KNum 5, "c"%string, 50, 50); (KNum 6, "b"%string, 350, 50)].
Proof. vm_compute. reflexivity. Qed.

(** * Further properties of the renderer *)

(** ** The view and the content are kept apart *)

Lemma updatePath_view_of d r : view_of (updatePath d r) = view_of d.
Proof.
  unfold updatePath.
  destruct (rr_element r), (rr_relInfo r) as [relInfo|]; try reflexivity.
  destruct (findTableByName d (fromTable relInfo)),
           (findTableByName d (toTable relInfo)); reflexivity.
Qed.

Lemma updateAllRelationships_view_of d :
  view_of (updateAllRelationships d) = view_of d.
Proof.
  unfold updateAllRelationships. apply (forEach_preserves view_of).
  intros s a i. apply updatePath_view_of.
Qed.

Lemma setAllTablesOpacity_view_of d o :
  view_of (setAllTablesOpacity d o) = view_of d.
Proof.
  unfold setAllTablesOpacity. apply (forEach_preserves view_of). reflexivity.
Qed.

Lemma render_view_of d data : view_of (render d data) = view_of d.
Proof.
  unfold render. destruct (first_schema data) as [schema|]; [|reflexivity].
  unfold autoLayout. rewrite updateAllRelationships_view_of.
  rewrite (foldl_preserves view_of).
  - unfold renderRelationships. rewrite (forEach_preserves view_of).
    + unfold renderTables. rewrite (forEach_preserves view_of); reflexivity.
    + intros s a i. unfold renderRelationships_step,
        RelationshipRenderer_render.
      destruct (parseRelationship _); simpl; [|reflexivity].
      match goal with |- context [updatePath ?d' ?r'] =>
        change (view_of (updatePath d' r') = view_of s) end.
      rewrite updatePath_view_of. reflexivity.
  - intros s i. unfold autoLayout_step.
    destruct (tables s !! i) as [[k td]|]; reflexivity.
Qed.

Lemma onMouseMove_view_of d c e : view_of (onMouseMove d c e) = view_of d.
Proof.
  unfold onMouseMove. destruct (isDragging c); simpl; [|reflexivity].
  rewrite updateAllRelationships_view_of. reflexivity.
Qed.

Lemma update_table_elem_view_of d el f :
  view_of (update_table_elem d el f) = view_of d.
Proof. reflexivity. Qed.

Lemma notifyZoomChange_content_of d :
  content_of (notifyZoomChange d) = content_of d.
Proof. unfold notifyZoomChange. destruct (onZoomChange d); reflexivity. Qed.

Lemma apply_op_separate (d : Diagram) (o : Op) :
  (is_view_op o = false -> view_of (apply_op d o) = view_of d) /\
  (is_view_op o = true -> content_of (apply_op d o) = content_of d).
Proof.
  split; intros Ho; destruct o; try discriminate Ho; cbn [apply_op].
  - unfold onMouseDown. cbn [fst].
    rewrite update_table_elem_view_of, setAllTablesOpacity_view_of.
    reflexivity.
  - apply onMouseMove_view_of.
  - unfold onMouseUp. cbn [fst]. rewrite setAllTablesOpacity_view_of.
    reflexivity.
  - apply render_view_of.
  - unfold zoomIn, setZoom. rewrite notifyZoomChange_content_of. reflexivity.
  - unfold zoomOut, setZoom. rewrite notifyZoomChange_content_of. reflexivity.
  - unfold setZoom. rewrite notifyZoomChange_content_of. reflexivity.
  - unfold zoomToStandard, setZoom. rewrite notifyZoomChange_content_of.
    reflexivity.
  - unfold resetZoom. rewrite notifyZoomChange_content_of. reflexivity.
  - unfold onWheel. destruct (num_neq _ _); [|reflexivity].
    rewrite notifyZoomChange_content_of. reflexivity.
  - unfold onSvgMouseDown. destruct (_ || _); reflexivity.
  - unfold onPanMouseMove, updatePan. destruct (isPanning d); reflexivity.
  - unfold onPanMouseUp. destruct (isPanning d); reflexivity.
  - reflexivity.
  - reflexivity.
Qed.

(** X1. Rendering and dragging never change the view (zoom, pan, pan
    gesture, observer and its calls, the SVG's box and cursor, the viewport
    transform); the operations on the view never change the content (the
    two mappings, the elements and their attributes, the two layers). *)
Theorem view_and_content_are_separate (d : Diagram) (o : Op) :
  (is_view_op o = false -> view_of (apply_op d o) = view_of d) /\
  (is_view_op o = true -> content_of (apply_op d o) = content_of d).
Proof. exact (apply_op_separate d o). Qed.

Lemma view_and_content_are_separate_witness :
  view_of (apply_op (setZoom ex_diagram 2) (OpRender ex_seven))
    = view_of (setZoom ex_diagram 2) /\
  content_of (apply_op ex_diagram (OpWheel ex_wheel_in)) = content_of ex_diagram.
Proof.
  split.
  - apply (proj1 (view_and_content_are_separate (setZoom ex_diagram 2)
                    (OpRender ex_seven))). reflexivity.
  - apply (proj2 (view_and_content_are_separate ex_diagram
                    (OpWheel ex_wheel_in))). reflexivity.
Defined.

(** ** The viewport transform and the observer follow the state *)

Lemma transform_in_sync_view_of d d' :
  view_of d' = view_of d -> transform_in_sync d -> transform_in_sync d'.
Proof.
  unfold view_of, transform_in_sync. intros [= Hz Hp _ _ _ _ _ _ Ht].
  rewrite Hz, Hp, Ht. auto.
Qed.

Lemma transform_in_sync_updated d :
  transform_in_sync (notifyZoomChange (updateViewport d)).
Proof.
  unfold transform_in_sync, notifyZoomChange, updateViewport.
  destruct (onZoomChange _); reflexivity.
Qed.

Lemma apply_op_transform_in_sync d o :
  transform_in_sync d -> transform_in_sync (apply_op d o).
Proof.
  intros Hd.
  destruct (is_view_op o) eqn:Ho.
  - destruct o; try discriminate Ho; cbn [apply_op];
      try apply transform_in_sync_updated.
    + unfold onWheel. destruct (num_neq _ _); [|exact Hd].
      apply transform_in_sync_updated.
    + unfold onSvgMouseDown. destruct (_ || _); exact Hd.
    + unfold onPanMouseMove, updatePan. destruct (isPanning d); [|exact Hd].
      reflexivity.
    + unfold onPanMouseUp. destruct (isPanning d); exact Hd.
    + exact Hd.
    + exact Hd.
  - apply (transform_in_sync_view_of d); [|exact Hd].
    apply apply_op_separate, Ho.
Qed.

(** X2. In every state that a new renderer can reach, the transform of the
    viewport layer is the one of the stored zoom and pan,
    [translate(pan.x, pan.y) scale(zoom)]; it is absent only while zoom and
    pan are still 1 and [(0, 0)]. *)
Theorem viewport_transform_never_stale (box : SvgBox) (ops : list Op) :
  let d := run ops (DiagramRenderer_new box) in
  match viewport_transform d with
  | None => zoom d = 1 /\ pan d = mkPoint 0 0
  | Some t => t = mkTransform (px (pan d)) (py (pan d)) (zoom d)
  end.
Proof.
  intros d. change (transform_in_sync d). unfold d, run.
  assert (H0 : transform_in_sync (DiagramRenderer_new box))
    by (split; reflexivity).
  revert H0. generalize (DiagramRenderer_new box).
  induction ops as [|o ops IH]; intros d0 H0; simpl.
  - exact H0.
  - apply IH, apply_op_transform_in_sync, H0.
Qed.

Lemma observer_in_sync_view_of d d' :
  view_of d' = view_of d -> observer_in_sync d -> observer_in_sync d'.
Proof.
  unfold view_of, observer_in_sync. intros [= Hz _ _ _ Ho Hc _ _ _].
  rewrite Hz, Ho, Hc. auto.
Qed.

Lemma observer_in_sync_notified d :
  in_zoom_range (zoom d) ->
  (onZoomChange d = false -> zoom_calls d = []) ->
  Forall in_zoom_range (zoom_calls d) ->
  observer_in_sync (notifyZoomChange d).
Proof.
  intros Hz Hoff Hall. unfold observer_in_sync, notifyZoomChange.
  destruct (onZoomChange d) eqn:Ho; simpl.
  - split; [congruence|]. split.
    + intros _. rewrite last_snoc. reflexivity.
    + apply Forall_app. split; [exact Hall|].
      apply Forall_cons. split; [exact Hz|apply Forall_nil_2].
  - split; [intros _; apply Hoff; reflexivity|]. split; [|exact Hall].
    rewrite (Hoff eq_refl). congruence.
Qed.

Lemma apply_op_observer_in_sync d o :
  in_zoom_range (zoom d) -> observer_in_sync d ->
  observer_in_sync (apply_op d o).
Proof.
  intros Hz Hd. pose proof Hd as (Hoff & Hlast & Hall).
  assert (Hset : forall z, observer_in_sync (setZoom d z)).
  { intros z. unfold setZoom. apply observer_in_sync_notified; simpl; auto.
    apply clamp_in_zoom_range. }
  destruct (is_view_op o) eqn:Ho.
  - destruct o; try discriminate Ho; cbn [apply_op]; try apply Hset.
    + unfold resetZoom. apply observer_in_sync_notified; simpl; auto.
      unfold in_zoom_range, minZoom, maxZoom. lra.
    + unfold onWheel. destruct (num_neq _ _); [|exact Hd].
      apply observer_in_sync_notified; simpl; auto.
      apply clamp_in_zoom_range.
    + unfold onSvgMouseDown. destruct (_ || _); exact Hd.
    + unfold onPanMouseMove, updatePan. destruct (isPanning d); exact Hd.
    + unfold onPanMouseUp. destruct (isPanning d); exact Hd.
    + exact Hd.
    + unfold observer_in_sync. simpl. split; [discriminate|]. auto.
  - apply (observer_in_sync_view_of d); [|exact Hd].
    apply apply_op_separate, Ho.
Qed.

Lemma run_reachable_invariant (box : SvgBox) (ops : list Op) :
  in_zoom_range (zoom (run ops (DiagramRenderer_new box))) /\
  observer_in_sync (run ops (DiagramRenderer_new box)).
Proof.
  unfold run.
  assert (H0 : in_zoom_range (zoom (DiagramRenderer_new box)) /\
               observer_in_sync (DiagramRenderer_new box)).
  { split.
    - simpl. unfold in_zoom_range, minZoom, maxZoom. lra.
    - split; [reflexivity|]. split; [intros H; exfalso; apply H; reflexivity|].
      constructor. }
  revert H0. generalize (DiagramRenderer_new box).
  induction ops as [|o ops IH]; intros d0 [Hz Hobs]; simpl.
  - auto.
  - apply IH. split.
    + apply apply_op_in_zoom_range, Hz.
    + apply apply_op_observer_in_sync; assumption.
Qed.

Lemma notifyZoomChange_calls d :
  zoom_calls (notifyZoomChange d)
  = if onZoomChange d then zoom_calls d ++ [zoom (notifyZoomChange d)]
    else zoom_calls d.
Proof. unfold notifyZoomChange. destruct (onZoomChange d); reflexivity. Qed.

Lemma apply_op_zoom_calls (d : Diagram) (o : Op) :
  (zoom_calls (apply_op d o) = zoom_calls d \/
   zoom_calls (apply_op d o) = zoom_calls d ++ [zoom (apply_op d o)]) /\
  (onZoomChange d = true -> zoom (apply_op d o) <> zoom d ->
   zoom_calls (apply_op d o) = zoom_calls d ++ [zoom (apply_op d o)]).
Proof.
  assert (Hnotify : forall d1 : Diagram,
             onZoomChange d1 = onZoomChange d -> zoom_calls d1 = zoom_calls d ->
             (zoom_calls (notifyZoomChange d1) = zoom_calls d \/
              zoom_calls (notifyZoomChange d1)
              = zoom_calls d ++ [zoom (notifyZoomChange d1)]) /\
             (onZoomChange d = true -> zoom (notifyZoomChange d1) <> zoom d ->
              zoom_calls (notifyZoomChange d1)
              = zoom_calls d ++ [zoom (notifyZoomChange d1)])).
  { intros d1 Ho Hc. rewrite notifyZoomChange_calls, Ho, Hc.
    destruct (onZoomChange d); split; auto; discriminate. }
  assert (Hsame : forall d1 : Diagram,
             zoom d1 = zoom d -> zoom_calls d1 = zoom_calls d ->
             (zoom_calls d1 = zoom_calls d \/
              zoom_calls d1 = zoom_calls d ++ [zoom d1]) /\
             (onZoomChange d = true -> zoom d1 <> zoom d ->
              zoom_calls d1 = zoom_calls d ++ [zoom d1])).
  { intros d1 Hz Hc. split; [left; exact Hc|]. intros _ H. contradiction. }
  destruct (is_view_op o) eqn:Ho.
  - destruct o; try discriminate Ho; cbn [apply_op].
    + apply Hnotify; reflexivity.
    + apply Hnotify; reflexivity.
    + apply Hnotify; reflexivity.
    + apply Hnotify; reflexivity.
    + apply Hnotify; reflexivity.
    + unfold onWheel. destruct (num_neq _ _).
      * apply Hnotify; reflexivity.
      * apply Hsame; reflexivity.
    + apply Hsame; unfold onSvgMouseDown; destruct (_ || _); reflexivity.
    + apply Hsame; unfold onPanMouseMove, updatePan;
        destruct (isPanning d); reflexivity.
    + apply Hsame; unfold onPanMouseUp; destruct (isPanning d); reflexivity.
    + apply Hsame; reflexivity.
    + apply Hsame; reflexivity.
  - pose proof (proj1 (apply_op_separate d o) Ho) as Hv.
    unfold view_of in Hv. injection Hv as Hz _ _ _ _ Hc _ _ _.
    apply Hsame; assumption.
Qed.

(** X3. No change of the zoom goes unnoticed. In every state that a new
    renderer can reach: as long as no observer is registered nothing is
    notified; once the observer was told a zoom, the last one it was told
    is the zoom of the state. With an observer registered, every operation
    that changes the zoom tells the observer the new zoom, once; and no
    operation tells it anything but the zoom that it leaves. *)
Theorem observer_knows_the_zoom (box : SvgBox) (ops : list Op) (o : Op) :
  let d := run ops (DiagramRenderer_new box) in
  let d' := apply_op d o in
  (onZoomChange d = false -> zoom_calls d = []) /\
  (zoom_calls d <> [] -> last (zoom_calls d) = Some (zoom d)) /\
  (onZoomChange d = true -> zoom d' <> zoom d ->
     zoom_calls d' = zoom_calls d ++ [zoom d']) /\
  (zoom_calls d' = zoom_calls d \/ zoom_calls d' = zoom_calls d ++ [zoom d']).
Proof.
  intros d d'.
  destruct (run_reachable_invariant box ops) as [_ (H1 & H2 & _)].
  fold d in H1, H2. split; [exact H1|]. split; [exact H2|].
  destruct (apply_op_zoom_calls d o) as [Hor Hchg].
  split; [exact Hchg|exact Hor].
Qed.

(** With the observer registered, [zoomIn] from zoom 1 tells it the new
    zoom. *)
Lemma observer_knows_the_zoom_witness :
  let d := run [OpRegisterObserver] (DiagramRenderer_new ex_box) in
  onZoomChange d = true /\ zoom (zoomIn d) <> zoom d /\
  zoom_calls (zoomIn d) = zoom_calls d ++ [zoom (zoomIn d)].
Proof.
  intros d.
  assert (Hon : onZoomChange d = true) by reflexivity.
  assert (Hne : zoom (zoomIn d) <> zoom d) by (vm_compute; discriminate).
  split; [exact Hon|]. split; [exact Hne|].
  destruct (observer_knows_the_zoom ex_box [OpRegisterObserver] OpZoomIn)
    as (_ & _ & Hchg & _).
  exact (Hchg Hon Hne).
Defined.

(** X4. As long as every argument of [setZoom] was a number, the zoom
    percentage that [getZoomPercentage] reports is an integer between 25
    and 300. Whatever was requested, it is [NaN] exactly when the zoom
    is. *)
Theorem getZoomPercentage_in_range (ops : list JsZoom.Op) :
  (Forall JsZoom.number_request ops ->
   exists n : Z,
     JsZoom.getZoomPercentage (JsZoom.run ops (JsFinite 1))
       = JsFinite (inject_Z n) /\
     (25 <= n <= 300)%Z) /\
  (JsZoom.getZoomPercentage (JsZoom.run ops (JsFinite 1)) = JsNaN <->
   JsZoom.run ops (JsFinite 1) = JsNaN).
Proof.
  split.
  - intros Hops.
    assert (H1 : JsZoom.in_zoom_range (JsFinite 1))
      by (split; vm_compute; discriminate).
    pose proof (JsZoom_run_in_zoom_range ops _ H1 Hops) as Hz.
    destruct (JsZoom.run ops (JsFinite 1)) as [q| | |]; try contradiction.
    destruct Hz as [Hlo Hhi]. unfold minZoom, maxZoom in Hlo, Hhi.
    exists (Math_round (q * 100)). split; [reflexivity|].
    unfold Math_round. split.
    + change 25%Z with (Qfloor (inject_Z 25)). apply Qfloor_resp_le.
      change (inject_Z 25) with 25. lra.
    + change 300%Z with (Qfloor 300.5). apply Qfloor_resp_le. lra.
  - destruct (JsZoom.run ops (JsFinite 1)) as [q| | |]; split;
      try discriminate; reflexivity.
Qed.

Lemma getZoomPercentage_in_range_witness :
  exists n : Z,
    JsZoom.getZoomPercentage
      (JsZoom.run [JsZoom.ZoomIn; JsZoom.SetZoom (JsNum (JsFinite 0.5))]
                  (JsFinite 1))
      = JsFinite (inject_Z n) /\
    (25 <= n <= 300)%Z.
Proof.
  apply (proj1 (getZoomPercentage_in_range
                  [JsZoom.ZoomIn; JsZoom.SetZoom (JsNum (JsFinite 0.5))])).
  repeat (apply Forall_cons; split; [simpl; try discriminate; exact I|]).
  apply Forall_nil_2.
Defined.

(** ** Zoom steps *)

Lemma zoomIn_zoom d :
  0.25 <= zoom d ->
  (zoom d * 1.1 <= 3 -> zoom (zoomIn d) == zoom d * 1.1) /\
  (3 <= zoom d * 1.1 -> zoom (zoomIn d) == 3).
Proof.
  intros Hlo. unfold zoomIn. rewrite setZoom_zoom. split; intros H.
  - assert (Hm : Math_min maxZoom (zoom d * 1.1) == zoom d * 1.1)
      by (apply Q.min_r; exact H).
    unfold Math_max, Math_min in *. rewrite Hm.
    apply (proj2 (proj2 (clamp_spec (zoom d * 1.1)))); [lra|exact H].
  - assert (Hm : Math_min maxZoom (zoom d * 1.1) == 3)
      by (apply Q.min_l; exact H).
    unfold Math_max, Math_min in *. rewrite Hm.
    apply (proj1 (proj2 (clamp_spec 3))). lra.
Qed.

Lemma zoomOut_zoom d :
  zoom d <= 3 ->
  (0.25 <= zoom d / 1.1 -> zoom (zoomOut d) == zoom d / 1.1) /\
  (zoom d / 1.1 <= 0.25 -> zoom (zoomOut d) == 0.25).
Proof.
  intros Hhi. unfold zoomOut. rewrite setZoom_zoom.
  assert (Hdiv : zoom d / 1.1 == zoom d * (10 # 11)) by (field; lra).
  split; intros H.
  - assert (Hm : Math_max minZoom (zoom d / 1.1) == zoom d / 1.1)
      by (apply Q.max_r; exact H).
    unfold Math_max, Math_min in *. rewrite Hm.
    apply (proj2 (proj2 (clamp_spec (zoom d / 1.1)))); [exact H|].
    rewrite Hdiv. lra.
  - assert (Hm : Math_max minZoom (zoom d / 1.1) == 0.25)
      by (apply Q.max_l; exact H).
    unfold Math_max, Math_min in *. rewrite Hm.
    apply (proj1 (clamp_spec 0.25)). lra.
Qed.

Lemma zoomIn_zoom_eq d :
  0.25 <= zoom d -> zoom (zoomIn d) == Qmin 3 (zoom d * 1.1).
Proof.
  intros Hlo. destruct (zoomIn_zoom d Hlo) as [H1 H2].
  destruct (Q.min_spec 3 (zoom d * 1.1)) as [[Hlt ->]|[Hle ->]].
  - apply H2. lra.
  - apply H1, Hle.
Qed.

Lemma zoomOut_zoom_eq d :
  zoom d <= 3 -> zoom (zoomOut d) == Qmax 0.25 (zoom d * (10 # 11)).
Proof.
  intros Hhi. destruct (zoomOut_zoom d Hhi) as [H1 H2].
  assert (Hdiv : zoom d / 1.1 == zoom d * (10 # 11)) by (field; lra).
  destruct (Q.max_spec 0.25 (zoom d * (10 # 11))) as [[Hlt E]|[Hle E]];
    rewrite E.
  - assert (H : 0.25 <= zoom d / 1.1) by (rewrite Hdiv; lra).
    rewrite (H1 H). exact Hdiv.
  - apply H2. rewrite Hdiv. exact Hle.
Qed.

Lemma iter_zoomIn_bounds (n : nat) (d : Diagram) :
  0.25 <= zoom d -> zoom d <= 3 ->
  Qmin 3 (Nat.iter n (fun q => q * 1.1) 0.25) <= zoom (Nat.iter n zoomIn d) /\
  0.25 <= zoom (Nat.iter n zoomIn d) /\ zoom (Nat.iter n zoomIn d) <= 3.
Proof.
  intros Hlo Hhi. induction n as [|n IH].
  - change (Nat.iter 0 zoomIn d) with d.
    change (Nat.iter 0 (fun q => q * 1.1) 0.25) with 0.25.
    split; [|split; assumption].
    destruct (Q.min_spec 3 0.25) as [[Hc ->]|[Hc ->]]; lra.
  - rewrite !Nat.iter_succ. destruct IH as (Hb & Hl & Hh).
    set (dn := Nat.iter n zoomIn d) in *.
    set (b := Nat.iter n (fun q => q * 1.1) 0.25) in *.
    pose proof (zoomIn_zoom_eq dn Hl) as Hz.
    destruct (Q.min_spec 3 (zoom dn * 1.1)) as [[H1 E1]|[H1 E1]];
      rewrite E1 in Hz;
      destruct (Q.min_spec 3 (b * 1.1)) as [[H2 E2]|[H2 E2]]; rewrite E2;
      destruct (Q.min_spec 3 b) as [[H3 E3]|[H3 E3]]; rewrite E3 in Hb;
      rewrite Hz; repeat split; lra.
Qed.

Lemma iter_zoomOut_bounds (n : nat) (d : Diagram) :
  0.25 <= zoom d -> zoom d <= 3 ->
  zoom (Nat.iter n zoomOut d)
    <= Qmax 0.25 (Nat.iter n (fun q => q * (10 # 11)) 3) /\
  0.25 <= zoom (Nat.iter n zoomOut d) /\ zoom (Nat.iter n zoomOut d) <= 3.
Proof.
  intros Hlo Hhi. induction n as [|n IH].
  - change (Nat.iter 0 zoomOut d) with d.
    change (Nat.iter 0 (fun q => q * (10 # 11)) 3) with 3.
    split; [|split; assumption].
    destruct (Q.max_spec 0.25 3) as [[Hc ->]|[Hc ->]]; lra.
  - rewrite !Nat.iter_succ. destruct IH as (Hb & Hl & Hh).
    set (dn := Nat.iter n zoomOut d) in *.
    set (b := Nat.iter n (fun q => q * (10 # 11)) 3) in *.
    pose proof (zoomOut_zoom_eq dn Hh) as Hz.
    destruct (Q.max_spec 0.25 (zoom dn * (10 # 11))) as [[H1 E1]|[H1 E1]];
      rewrite E1 in Hz;
      destruct (Q.max_spec 0.25 (b * (10 # 11))) as [[H2 E2]|[H2 E2]];
      rewrite E2;
      destruct (Q.max_spec 0.25 b) as [[H3 E3]|[H3 E3]]; rewrite E3 in Hb;
      rewrite Hz; repeat split; lra.
Qed.

(** X5. The zoom buttons. For a zoom in the range, [zoomIn] sets the zoom
    to [min(3, 1.1 zoom)] and [zoomOut] sets it to [max(0.25, zoom / 1.1)]:
    below 3 [zoomIn] raises the zoom, above 0.25 [zoomOut] lowers it, and
    at the bound each keeps it. Both bounds are within reach of the
    buttons: from any zoom of the range, 27 times [zoomIn] end at 3 and 27
    times [zoomOut] end at 0.25. *)
Theorem zoomIn_zoomOut_steps (d : Diagram) :
  0.25 <= zoom d -> zoom d <= 3 ->
  zoom (zoomIn d) == Qmin 3 (zoom d * 1.1) /\
  zoom (zoomOut d) == Qmax 0.25 (zoom d / 1.1) /\
  (zoom d < 3 -> zoom d < zoom (zoomIn d)) /\
  (0.25 < zoom d -> zoom (zoomOut d) < zoom d) /\
  (zoom d == 3 -> zoom (zoomIn d) == 3) /\
  (zoom d == 0.25 -> zoom (zoomOut d) == 0.25) /\
  zoom (Nat.iter 27 zoomIn d) == 3 /\
  zoom (Nat.iter 27 zoomOut d) == 0.25.
Proof.
  intros Hlo Hhi.
  pose proof (zoomIn_zoom_eq d Hlo) as Hin.
  pose proof (zoomOut_zoom_eq d Hhi) as Hout.
  assert (Hdiv : zoom d / 1.1 == zoom d * (10 # 11)) by (field; lra).
  split; [exact Hin|]. split; [rewrite Hdiv; exact Hout|].
  split; [|split; [|split; [|split; [|split]]]].
  - intros H. rewrite Hin.
    destruct (Q.min_spec 3 (zoom d * 1.1)) as [[Hc ->]|[Hc ->]]; lra.
  - intros H. rewrite Hout.
    destruct (Q.max_spec 0.25 (zoom d * (10 # 11))) as [[Hc ->]|[Hc ->]]; lra.
  - intros H. rewrite Hin.
    destruct (Q.min_spec 3 (zoom d * 1.1)) as [[Hc ->]|[Hc ->]]; lra.
  - intros H. rewrite Hout.
    destruct (Q.max_spec 0.25 (zoom d * (10 # 11))) as [[Hc ->]|[Hc ->]]; lra.
  - destruct (iter_zoomIn_bounds 27 d Hlo Hhi) as (Hb & _ & Hh).
    assert (Hreach : 3 <= Nat.iter 27 (fun q => q * 1.1) 0.25)
      by (vm_compute; discriminate).
    rewrite (Q.min_l _ _ Hreach) in Hb. lra.
  - destruct (iter_zoomOut_bounds 27 d Hlo Hhi) as (Hb & Hl & _).
    assert (Hreach : Nat.iter 27 (fun q => q * (10 # 11)) 3 <= 0.25)
      by (vm_compute; discriminate).
    rewrite (Q.max_l _ _ Hreach) in Hb. lra.
Qed.

(** From the zoom of the example, one step and 27 steps. *)
Lemma zoomIn_zoomOut_steps_witness :
  zoom ex_diagram < zoom (zoomIn ex_diagram) /\
  zoom (Nat.iter 27 zoomIn ex_diagram) == 3 /\
  zoom (Nat.iter 27 zoomOut ex_diagram) == 0.25.
Proof.
  assert (Hlo : 0.25 <= zoom ex_diagram) by (vm_compute; discriminate).
  assert (Hhi : zoom ex_diagram <= 3) by (vm_compute; discriminate).
  assert (Hlt : zoom ex_diagram < 3) by (vm_compute; reflexivity).
  destruct (zoomIn_zoomOut_steps ex_diagram Hlo Hhi)
    as (_ & _ & Hup & _ & _ & _ & Htop & Hbottom).
  split; [exact (Hup Hlt)|]. split; [exact Htop|exact Hbottom].
Defined.

(** ** Screen and world coordinates *)



(** ** The pan gesture *)

Lemma updatePan_panning d e :
  isPanning d = true ->
  updatePan d e =
    updateViewport
      (set_lastPanPoint
         (set_pan d (mkPoint (px (pan d) + (clientX e - px (lastPanPoint d)))
                             (py (pan d) + (clientY e - py (lastPanPoint d)))))
         (mkPoint (clientX e) (clientY e))).
Proof. intros H. unfold updatePan. rewrite H. reflexivity. Qed.

Lemma pan_moves_frame d e0 es :
  let s := foldl updatePan (startPan d e0) es in
  isPanning s = true /\ zoom s = zoom d /\ content_of s = content_of d /\
  lastPanPoint s = client_point (default e0 (last es)) /\
  (es <> [] ->
   viewport_transform s = Some (mkTransform (px (pan s)) (py (pan s)) (zoom d))).
Proof.
  induction es as [|e es IH] using rev_ind; intros s.
  - unfold s. simpl. repeat split; try reflexivity. congruence.
  - unfold s. rewrite foldl_snoc.
    destruct IH as (Hp & Hz & Hc & _).
    rewrite (updatePan_panning _ e Hp).
    set (s' := foldl updatePan (startPan d e0) es) in *.
    split; [exact Hp|]. split; [exact Hz|]. split; [exact Hc|].
    rewrite last_snoc. split; [reflexivity|].
    intros _. cbn. rewrite Hz. reflexivity.
Qed.

Lemma pan_moves_same_pan d1 d2 e0 es :
  pan d1 = pan d2 ->
  pan (foldl updatePan (startPan d1 e0) es)
  = pan (foldl updatePan (startPan d2 e0) es).
Proof.
  intros Hpan. induction es as [|e es IH] using rev_ind.
  - exact Hpan.
  - rewrite !foldl_snoc.
    destruct (pan_moves_frame d1 e0 es) as (Hp1 & _ & _ & Hl1 & _).
    destruct (pan_moves_frame d2 e0 es) as (Hp2 & _ & _ & Hl2 & _).
    rewrite (updatePan_panning _ e Hp1), (updatePan_panning _ e Hp2).
    cbn. rewrite IH, Hl1, Hl2. reflexivity.
Qed.

(** X7. A pan does not depend on the zoom. From two states with the same
    pan offset -- whatever their zoom, their tables and their
    relationships -- the same press and the same moves lead to the same
    pan offset: the content follows the pointer by the same distance on
    the screen at every zoom. During the gesture the last pan point is the
    position of the last event, the zoom and the content stay as they are,
    and after a move the viewport transform shows the new offset. *)
Theorem pan_ignores_zoom_and_content (d1 d2 : Diagram) (e0 : MouseEvent)
    (es : list MouseEvent) :
  pan d1 = pan d2 ->
  let s1 := foldl updatePan (startPan d1 e0) es in
  let s2 := foldl updatePan (startPan d2 e0) es in
  pan s1 = pan s2 /\
  lastPanPoint s1 = client_point (default e0 (last es)) /\
  isPanning s1 = true /\
  zoom s1 = zoom d1 /\
  content_of s1 = content_of d1 /\
  (es <> [] ->
   viewport_transform s1
   = Some (mkTransform (px (pan s1)) (py (pan s1)) (zoom d1))).
Proof.
  intros Hpan s1 s2.
  destruct (pan_moves_frame d1 e0 es) as (Hp & Hz & Hc & Hl & Ht).
  split; [exact (pan_moves_same_pan d1 d2 e0 es Hpan)|].
  split; [exact Hl|]. split; [exact Hp|]. split; [exact Hz|].
  split; [exact Hc|exact Ht].
Qed.

(** The same gesture at zoom 1 and at zoom 2. *)
Lemma pan_ignores_zoom_and_content_witness :
  pan (foldl updatePan (startPan ex_diagram ex_press) [ex_move; ex_far_move])
  = pan (foldl updatePan (startPan (setZoom ex_diagram 2) ex_press)
               [ex_move; ex_far_move]).
Proof.
  assert (Hpan : pan ex_diagram = pan (setZoom ex_diagram 2))
    by (vm_compute; reflexivity).
  destruct (pan_ignores_zoom_and_content ex_diagram (setZoom ex_diagram 2)
              ex_press [ex_move; ex_far_move] Hpan) as (H & _).
  exact H.
Defined.

Lemma apply_op_keeps_gesture (d : Diagram) (o : Op) :
  match o with
  | OpSvgMouseDown _ _ | OpPanMouseUp => True
  | _ => isPanning (apply_op d o) = isPanning d /\
         svg_cursor (apply_op d o) = svg_cursor d
  end.
Proof.
  destruct (is_view_op o) eqn:Ho.
  - destruct o; try discriminate Ho; cbn [apply_op]; try exact I;
      try (unfold onPanMouseMove, updatePan;
           destruct (isPanning d) eqn:Hp; cbn; rewrite ?Hp;
           split; reflexivity);
      unfold zoomIn, zoomOut, zoomToStandard, setZoom, resetZoom, onWheel,
        notifyZoomChange;
      repeat match goal with
             | |- context [if ?b then _ else _] => destruct b
             end;
      split; reflexivity.
  - pose proof (proj1 (apply_op_separate d o) Ho) as Hv.
    unfold view_of in Hv. injection Hv as _ _ Hp _ _ _ _ Hc _.
    destruct o; try discriminate Ho; split; assumption.
Qed.

Lemma apply_op_keeps_pan (d : Diagram) (o : Op) :
  match o with
  | OpWheel _ | OpResetZoom => True
  | OpPanMouseMove _ => isPanning d = false -> pan (apply_op d o) = pan d
  | _ => pan (apply_op d o) = pan d
  end.
Proof.
  destruct (is_view_op o) eqn:Ho.
  - destruct o; try discriminate Ho; cbn [apply_op]; try exact I;
      try (intros Hp; unfold onPanMouseMove; rewrite Hp; reflexivity);
      unfold zoomIn, zoomOut, zoomToStandard, setZoom, onSvgMouseDown,
        onPanMouseUp, notifyZoomChange;
      repeat match goal with
             | |- context [if ?b then _ else _] => destruct b
             end;
      reflexivity.
  - pose proof (proj1 (apply_op_separate d o) Ho) as Hv.
    unfold view_of in Hv. injection Hv as _ Hp _ _ _ _ _ _ _.
    destruct o; try discriminate Ho; assumption.
Qed.

Lemma apply_op_cursor_tracks_pan (d : Diagram) (o : Op) :
  (isPanning d = true <-> svg_cursor d = Some Grabbing) ->
  (isPanning (apply_op d o) = true <->
   svg_cursor (apply_op d o) = Some Grabbing).
Proof.
  intros Hd. pose proof (apply_op_keeps_gesture d o) as Hk.
  destruct o; try (rewrite (proj1 Hk), (proj2 Hk); exact Hd); cbn [apply_op].
  - unfold onSvgMouseDown. destruct (_ || _); [|exact Hd].
    split; reflexivity.
  - unfold onPanMouseUp. destruct (isPanning d) eqn:Hp.
    + split; discriminate.
    + rewrite Hp. exact Hd.
Qed.

(** X8. The life of a pan gesture. In every state that a new renderer can
    reach, the SVG shows the [grabbing] cursor exactly while a pan is in
    progress. A pan is started by nothing but a press that reaches the
    listener of the SVG with the middle button, or with the primary button
    while Shift is held or the pan mode is on, and the pan point is then
    the pointer; it is ended by nothing but the release, which keeps pan
    and zoom. The pan offset is changed by nothing but a move of a pan in
    progress, a wheel event and [resetZoom]: no render, no drag of a
    table, no zoom button moves the view. *)
Theorem pan_gesture_lifecycle (box : SvgBox) (ops : list Op) (o : Op) :
  let d := run ops (DiagramRenderer_new box) in
  let d' := apply_op d o in
  (isPanning d = true <-> svg_cursor d = Some Grabbing) /\
  (isPanning d = false -> isPanning d' = true ->
     exists m e, o = OpSvgMouseDown m e /\ pan_trigger m e /\
                 lastPanPoint d' = client_point e) /\
  (isPanning d = true -> isPanning d' = false ->
     o = OpPanMouseUp /\ pan d' = pan d /\ zoom d' = zoom d) /\
  (pan d' <> pan d ->
     (exists e, o = OpWheel e) \/ o = OpResetZoom \/
     (exists e, o = OpPanMouseMove e /\ isPanning d = true)).
Proof.
  intros d d'. split; [|split; [|split]].
  - unfold d, run. clear d'.
    assert (H0 : isPanning (DiagramRenderer_new box) = true <->
                 svg_cursor (DiagramRenderer_new box) = Some Grabbing)
      by (split; discriminate).
    revert H0. generalize (DiagramRenderer_new box).
    induction ops as [|o1 ops IH]; intros d0 H0; [exact H0|].
    apply IH, apply_op_cursor_tracks_pan, H0.
  - intros Hoff Hon. pose proof (apply_op_keeps_gesture d o) as Hk.
    fold d' in Hk.
    destruct o; try (pose proof (proj1 Hk); congruence).
    + unfold d' in *. cbn [apply_op] in *. unfold onSvgMouseDown in *.
      destruct (Z.eqb (button e) 1
                || (Z.eqb (button e) 0 && (shiftKey e || isPanModeActive)))
        eqn:Hc; [|congruence].
      exists isPanModeActive, e. split; [reflexivity|]. split; [|reflexivity].
      unfold pan_trigger.
      rewrite orb_true_iff, andb_true_iff, orb_true_iff, !Z.eqb_eq in Hc.
      exact Hc.
    + unfold d' in Hon. cbn [apply_op] in Hon. unfold onPanMouseUp in Hon.
      rewrite Hoff in Hon. congruence.
  - intros Hon Hoff. pose proof (apply_op_keeps_gesture d o) as Hk.
    fold d' in Hk.
    destruct o; try (pose proof (proj1 Hk); congruence).
    + unfold d' in Hoff. cbn [apply_op] in Hoff.
      unfold onSvgMouseDown in Hoff.
      destruct (_ || _); [discriminate Hoff|congruence].
    + split; [reflexivity|]. unfold d'. cbn [apply_op].
      unfold onPanMouseUp. rewrite Hon. split; reflexivity.
  - intros Hne. pose proof (apply_op_keeps_pan d o) as Hk. fold d' in Hk.
    destruct o; try contradiction.
    + right. left. reflexivity.
    + left. eexists. reflexivity.
    + right. right. exists e. split; [reflexivity|].
      destruct (isPanning d); [reflexivity|].
      exfalso. apply Hne, Hk. reflexivity.
Qed.

(** A press in pan mode, then the release. *)
Lemma pan_gesture_lifecycle_witness :
  let d := run [OpSvgMouseDown true ex_press] (DiagramRenderer_new ex_box) in
  svg_cursor d = Some Grabbing /\
  pan (apply_op d OpPanMouseUp) = pan d.
Proof.
  intros d.
  assert (Hon : isPanning d = true) by (vm_compute; reflexivity).
  assert (Hoff : isPanning (apply_op d OpPanMouseUp) = false)
    by (vm_compute; reflexivity).
  destruct (pan_gesture_lifecycle ex_box [OpSvgMouseDown true ex_press]
              OpPanMouseUp) as (Hcur & _ & Hend & _).
  split; [exact (proj1 Hcur Hon)|].
  exact (proj1 (proj2 (Hend Hon Hoff))).
Defined.

(** ** The drag gesture, continued *)

Lemma onMouseMove_dragging d c e :
  isDragging c = true ->
  onMouseMove d c e =
    updateAllRelationships
      (set_tables
         (update_table_elem
            (update_table_elem d (drag_element c)
                               (set_el_x (drag_target_x d c e)))
            (drag_element c) (set_el_y (drag_target_y d c e)))
         (Map_modify (table_key (drag_table c))
                     (set_td_xy (drag_target_x d c e) (drag_target_y d c e))
                     (tables d))).
Proof. intros H. unfold onMouseMove. rewrite H. reflexivity. Qed.

Lemma onMouseMove_tables d c e :
  isDragging c = true ->
  tables (onMouseMove d c e)
    = Map_modify (table_key (drag_table c))
                 (set_td_xy (drag_target_x d c e) (drag_target_y d c e))
                 (tables d) /\
  table_elems (onMouseMove d c e)
    = alter (set_el_y (drag_target_y d c e)) (drag_element c)
        (alter (set_el_x (drag_target_x d c e)) (drag_element c)
               (table_elems d)).
Proof.
  intros H. rewrite (onMouseMove_dragging d c e H).
  destruct (updateAllRelationships_tables
              (set_tables
                 (update_table_elem
                    (update_table_elem d (drag_element c)
                                       (set_el_x (drag_target_x d c e)))
                    (drag_element c) (set_el_y (drag_target_y d c e)))
                 (Map_modify (table_key (drag_table c))
                    (set_td_xy (drag_target_x d c e) (drag_target_y d c e))
                    (tables d)))) as [-> ->].
  split; reflexivity.
Qed.

Lemma drag_target_view_of d d' c e :
  view_of d' = view_of d ->
  drag_target_x d' c e = drag_target_x d c e /\
  drag_target_y d' c e = drag_target_y d c e.
Proof.
  unfold view_of. intros [= Hz _ _ _ _ _ Hs _ _].
  unfold drag_target_x, drag_target_y, pointer_x, pointer_y,
    viewportExtent_x, viewportExtent_y.
  rewrite Hz, Hs. split; reflexivity.
Qed.

Lemma Map_modify_modify {V : Type} k (f g : V -> V) (m : list (Key * V)) :
  Map_modify k f (Map_modify k g m) = Map_modify k (fun v => f (g v)) m.
Proof.
  induction m as [|[k' v] m IH]; simpl; [reflexivity|].
  destruct (key_eqb k k') eqn:Hk; simpl; rewrite Hk.
  - reflexivity.
  - rewrite IH. reflexivity.
Qed.

Lemma Map_modify_skeleton k f (m : list (Key * TableData)) :
  (forall td, skeleton (k, f td) = skeleton (k, td)) ->
  skeleton <$> Map_modify k f m = skeleton <$> m.
Proof.
  intros Hf. induction m as [|[k' v] m IH]; simpl; [reflexivity|].
  destruct (key_eqb k k') eqn:Hk; rewrite !fmap_cons.
  - f_equal. apply key_eqb_eq in Hk as <-. apply Hf.
  - f_equal. exact IH.
Qed.

Lemma Map_get_modify_ne {V : Type} k k' (f : V -> V) (m : list (Key * V)) :
  k' <> k -> Map_get k' (Map_modify k f m) = Map_get k' m.
Proof.
  intros Hne. induction m as [|[k0 v] m IH]; simpl; [reflexivity|].
  destruct (key_eqb k k0) eqn:Hk; simpl.
  - apply key_eqb_eq in Hk as <-.
    destruct (key_eqb k' k) eqn:Hk'; [|reflexivity].
    apply key_eqb_eq in Hk'. contradiction.
  - rewrite IH. reflexivity.
Qed.

(** X9. A move changes nothing unless the drag is in progress, and none is
    after [onMouseUp]. While it is in progress the position that a move
    gives the table does not depend on the moves before it: after two
    moves the table mapping and the table elements are what the second
    move alone would have made them. *)
Theorem drag_moves_are_absolute (d : Diagram) (c : DragClosure)
    (e1 e2 : MouseEvent) :
  (isDragging c = false -> onMouseMove d c e1 = d) /\
  onMouseMove (fst (onMouseUp d c)) (snd (onMouseUp d c)) e1
    = fst (onMouseUp d c) /\
  tables (onMouseMove (onMouseMove d c e1) c e2)
    = tables (onMouseMove d c e2) /\
  table_elems (onMouseMove (onMouseMove d c e1) c e2)
    = table_elems (onMouseMove d c e2).
Proof.
  split; [|split].
  - intros H. unfold onMouseMove. rewrite H. reflexivity.
  - reflexivity.
  - destruct (isDragging c) eqn:Hc.
    + destruct (drag_target_view_of d (onMouseMove d c e1) c e2
                  (onMouseMove_view_of d c e1)) as [Hx Hy].
      destruct (onMouseMove_tables (onMouseMove d c e1) c e2 Hc) as [-> ->].
      destruct (onMouseMove_tables d c e2 Hc) as [-> ->].
      destruct (onMouseMove_tables d c e1 Hc) as [-> ->].
      rewrite Hx, Hy. split.
      * rewrite Map_modify_modify. reflexivity.
      * rewrite !list_alter_alter_eq. apply list_alter_ext; [|reflexivity].
        intros el0 _. reflexivity.
    + unfold onMouseMove. rewrite Hc. split; reflexivity.
Qed.

Lemma drag_moves_are_absolute_witness :
  isDragging ex_drag_users = false /\
  onMouseMove ex_diagram ex_drag_users ex_move = ex_diagram.
Proof.
  split; [reflexivity|].
  apply (proj1 (drag_moves_are_absolute ex_diagram ex_drag_users
                  ex_move ex_move)).
  reflexivity.
Defined.

Lemma updateAllRelationships_layers d :
  relationships (updateAllRelationships d) = relationships d /\
  layer_tables (updateAllRelationships d) = layer_tables d /\
  layer_refs (updateAllRelationships d) = layer_refs d.
Proof.
  assert (Hstep : forall s r,
             relationships (updatePath s r) = relationships s /\
             layer_tables (updatePath s r) = layer_tables s /\
             layer_refs (updatePath s r) = layer_refs s).
  { intros s r. unfold updatePath.
    destruct (rr_element r), (rr_relInfo r) as [relInfo|]; auto.
    destruct (findTableByName s (fromTable relInfo)),
             (findTableByName s (toTable relInfo)); auto. }
  unfold updateAllRelationships. split; [|split].
  - apply (forEach_preserves relationships). intros s a i. apply Hstep.
  - apply (forEach_preserves layer_tables). intros s a i. apply Hstep.
  - apply (forEach_preserves layer_refs). intros s a i. apply Hstep.
Qed.

(** X10. A move of a drag touches nothing but the position of the dragged
    table and the connector paths: the entries of the table mapping keep
    their order, keys, tables and elements; the records under other keys
    and the elements other than the dragged one are as before; so are the
    relationship mapping, the two layers and the view. *)
Theorem drag_move_frame (d : Diagram) (c : DragClosure) (e : MouseEvent) :
  let d' := onMouseMove d c e in
  skeleton <$> tables d' = skeleton <$> tables d /\
  (forall k, k <> table_key (drag_table c) ->
             Map_get k (tables d') = Map_get k (tables d)) /\
  (forall el, el <> drag_element c ->
              table_elems d' !! el = table_elems d !! el) /\
  length (table_elems d') = length (table_elems d) /\
  relationships d' = relationships d /\
  layer_tables d' = layer_tables d /\
  layer_refs d' = layer_refs d /\
  view_of d' = view_of d.
Proof.
  intros d'. destruct (isDragging c) eqn:Hc.
  - destruct (onMouseMove_tables d c e Hc) as [Ht He]. fold d' in Ht, He.
    rewrite Ht, He.
    split; [apply Map_modify_skeleton; reflexivity|].
    split; [intros k Hk; apply Map_get_modify_ne, Hk|].
    split; [intros el Hel; rewrite !list_lookup_alter_ne by congruence;
            reflexivity|].
    split; [rewrite !length_alter; reflexivity|].
    pose proof (onMouseMove_view_of d c e) as Hview.
    pose proof (onMouseMove_dragging d c e Hc) as Hd'.
    fold d' in Hview, Hd'.
    match type of Hd' with _ = updateAllRelationships ?s =>
      destruct (updateAllRelationships_layers s) as (Hr & Hlt & Hlr) end.
    rewrite <- Hd' in Hr, Hlt, Hlr. rewrite Hr, Hlt, Hlr.
    repeat split; try reflexivity. exact Hview.
  - assert (Hd : d' = d) by (unfold d', onMouseMove; rewrite Hc; reflexivity).
    rewrite Hd. repeat split; reflexivity.
Qed.

(** A move of the drag of [users] leaves the record of [posts] alone. *)
Lemma drag_move_frame_witness :
  Map_get (KNum 1) (tables (onMouseMove ex_diagram ex_dragging ex_move))
    = Map_get (KNum 1) (tables ex_diagram) /\
  table_elems (onMouseMove ex_diagram ex_dragging ex_move) !! 1%nat
    = table_elems ex_diagram !! 1%nat.
Proof.
  destruct (drag_move_frame ex_diagram ex_dragging ex_move)
    as (_ & Hother & Hel & _).
  assert (Hk : KNum 1 <> table_key (drag_table ex_dragging))
    by (vm_compute; discriminate).
  assert (He : 1%nat <> drag_element ex_dragging)
    by (vm_compute; discriminate).
  split; [exact (Hother _ Hk)|exact (Hel _ He)].
Defined.

Lemma setAllTablesOpacity_tables d o :
  tables (setAllTablesOpacity d o) = tables d.
Proof.
  unfold setAllTablesOpacity. apply (forEach_preserves tables). reflexivity.
Qed.

Lemma forEach_opacity_lookup o (L : list (Key * TableData)) :
  forall i s j,
    table_elems
      (forEach_from
         (fun d' (e : Key * TableData) (_ : nat) =>
            update_table_elem d' (td_element (snd e)) (set_el_opacity o))
         L i s) !! j
    = if existsb (Nat.eqb j) (td_elements L)
      then set_el_opacity o <$> table_elems s !! j
      else table_elems s !! j.
Proof.
  induction L as [|[k td] L IH]; intros i s j; simpl; [reflexivity|].
  rewrite IH. unfold update_table_elem. simpl.
  rewrite list_lookup_alter.
  destruct (decide (td_element td = j)) as [->|Hne].
  - rewrite Nat.eqb_refl. simpl.
    destruct (existsb _ _); [|reflexivity].
    destruct (table_elems s !! j); reflexivity.
  - destruct (Nat.eqb_spec j (td_element td)) as [Heq|_]; [congruence|].
    reflexivity.
Qed.

Lemma setAllTablesOpacity_lookup d o j :
  table_elems (setAllTablesOpacity d o) !! j
  = if is_mapped_element d j
    then set_el_opacity o <$> table_elems d !! j
    else table_elems d !! j.
Proof. apply forEach_opacity_lookup. Qed.

(** X11. Dimming. A press on a table's header gives the dragged element
    the opacity 0.8 and every other element of a record of the table
    mapping the opacity 0.3; the release gives every element of a record of
    the mapping the opacity 1 (a dragged element that no record holds keeps
    its 0.8). Elements of no record are left alone, and neither press nor
    release moves an element or changes the table mapping. *)
Theorem drag_dims_and_restores (d : Diagram) (c : DragClosure) (e : MouseEvent)
    (j : nat) (el0 : TableElem) :
  table_elems d !! j = Some el0 ->
  let d1 := fst (onMouseDown d c e) in
  let d2 := fst (onMouseUp d1 (snd (onMouseDown d c e))) in
  (exists el1,
      table_elems d1 !! j = Some el1 /\
      el_x el1 = el_x el0 /\ el_y el1 = el_y el0 /\
      el_opacity el1 =
        (if decide (j = drag_element c) then Some 0.8
         else if is_mapped_element d j then Some 0.3 else el_opacity el0)) /\
  (exists el2,
      table_elems d2 !! j = Some el2 /\
      el_x el2 = el_x el0 /\ el_y el2 = el_y el0 /\
      el_opacity el2 =
        (if is_mapped_element d j then Some 1
         else if decide (j = drag_element c) then Some 0.8
              else el_opacity el0) /\
      (j = drag_element c -> el_dragging el2 = false /\ el_cursor el2 = Grab)) /\
  tables d1 = tables d /\ tables d2 = tables d.
Proof.
  intros Hj d1 d2.
  assert (Hm1 : forall s el f, is_mapped_element (update_table_elem s el f)
                               = is_mapped_element s) by reflexivity.
  assert (Ht1 : tables d1 = tables d).
  { unfold d1, onMouseDown. cbn [fst]. unfold update_table_elem at 1.
    cbn [tables set_table_elems]. rewrite setAllTablesOpacity_tables.
    reflexivity. }
  assert (Ht2 : tables d2 = tables d).
  { unfold d2, onMouseUp. cbn [fst]. rewrite setAllTablesOpacity_tables.
    exact Ht1. }
  assert (Hl1 : table_elems d1 !! j =
                Some (if decide (j = drag_element c)
                      then set_el_opacity 0.8
                             (if is_mapped_element d j
                              then set_el_opacity 0.3
                                     (set_el_dragging true
                                        (set_el_cursor Grabbing el0))
                              else set_el_dragging true
                                     (set_el_cursor Grabbing el0))
                      else if is_mapped_element d j
                           then set_el_opacity 0.3 el0 else el0)).
  { unfold d1, onMouseDown. cbn [fst]. unfold update_table_elem at 1.
    cbn [table_elems set_table_elems].
    rewrite list_lookup_alter, !setAllTablesOpacity_lookup, !Hm1.
    unfold update_table_elem. cbn [table_elems set_table_elems].
    rewrite !list_lookup_alter.
    repeat case_decide; try congruence; subst; rewrite ?Hj;
      destruct (is_mapped_element d _); reflexivity. }
  assert (Hmap : is_mapped_element
                   (update_table_elem
                      (update_table_elem d1 (drag_element c)
                                         (set_el_cursor Grab))
                      (drag_element c) (set_el_dragging false)) j
                 = is_mapped_element d j).
  { rewrite !Hm1. unfold is_mapped_element. rewrite Ht1. reflexivity. }
  split; [|split; [|split; [exact Ht1|exact Ht2]]].
  - eexists. split; [exact Hl1|].
    destruct (decide (j = drag_element c)), (is_mapped_element d j);
      repeat split; reflexivity.
  - unfold d2, onMouseUp. cbn [fst drag_element snd onMouseDown].
    rewrite !setAllTablesOpacity_lookup, Hmap.
    unfold update_table_elem. cbn [table_elems set_table_elems].
    rewrite !list_lookup_alter. fold d1.
    repeat case_decide; try congruence; subst; rewrite ?Hl1;
      repeat case_decide; try congruence;
      destruct (is_mapped_element d _); eexists;
      (split; [reflexivity|]); repeat split; try reflexivity;
      intros; congruence.
Qed.

Lemma drag_dims_and_restores_witness :
  exists el1,
    table_elems (fst (onMouseDown ex_diagram ex_drag_users ex_press)) !! 1%nat
      = Some el1 /\
    el_opacity el1 = Some 0.3.
Proof.
  assert (H : table_elems ex_diagram !! 1%nat
              = Some (mkTableElem 350 50 250 95 None false Grab))
    by (vm_compute; reflexivity).
  destruct (drag_dims_and_restores ex_diagram ex_drag_users ex_press 1%nat _ H)
    as ((el1 & H1 & _ & _ & Hop) & _).
  exists el1. split; [exact H1|]. rewrite Hop. vm_compute. reflexivity.
Defined.

(** ** Connectors stay attached to their tables *)

Lemma connector_path_tables d d' relInfo :
  tables d' = tables d -> connector_path d' relInfo = connector_path d relInfo.
Proof.
  intros H. unfold connector_path, findTableByName. rewrite H. reflexivity.
Qed.

Lemma updatePath_connector d r el relInfo :
  rr_element r = Some el -> rr_relInfo r = Some relInfo ->
  updatePath d r =
    match connector_path d relInfo with
    | Some path => set_path_d d el path
    | None => d
    end.
Proof.
  intros Hel Hinfo. unfold updatePath, connector_path. rewrite Hel, Hinfo.
  destruct (findTableByName d (fromTable relInfo)); [|reflexivity].
  destruct (findTableByName d (toTable relInfo)); reflexivity.
Qed.

Lemma updatePath_path_elems d r :
  tables (updatePath d r) = tables d /\
  length (path_elems (updatePath d r)) = length (path_elems d) /\
  (forall j, rr_element r <> Some j ->
             path_elems (updatePath d r) !! j = path_elems d !! j).
Proof.
  unfold updatePath.
  destruct (rr_element r) as [el|]; [|auto].
  destruct (rr_relInfo r) as [relInfo|]; [|auto].
  destruct (findTableByName d (fromTable relInfo)); [|auto].
  destruct (findTableByName d (toTable relInfo)); [|auto].
  unfold set_path_d. simpl. split; [reflexivity|].
  split; [apply length_insert|].
  intros j Hj. apply list_lookup_insert_ne. congruence.
Qed.

Lemma updateAllRelationships_loop (d0 : Diagram) (L : list (Key * RelData)) :
  forall i s,
    tables s = tables d0 ->
    NoDup (rel_elements L) ->
    (forall k rd, (k, rd) ∈ L ->
                  rr_element (rd_renderer rd) = Some (rd_element rd) /\
                  (rd_element rd < length (path_elems s))%nat) ->
    let s' := forEach_from
                (fun d' (e : Key * RelData) (_ : nat) =>
                   updatePath d' (rd_renderer (snd e))) L i s in
    tables s' = tables d0 /\
    length (path_elems s') = length (path_elems s) /\
    (forall j, j ∉ rel_elements L -> path_elems s' !! j = path_elems s !! j) /\
    (forall k rd relInfo path,
        (k, rd) ∈ L ->
        rr_relInfo (rd_renderer rd) = Some relInfo ->
        connector_path d0 relInfo = Some path ->
        path_elems s' !! rd_element rd = Some (mkPathElem (Some path))).
Proof.
  induction L as [|[k0 rd0] L IH]; intros i s Ht Hnd Hwf; simpl.
  - split; [exact Ht|]. split; [reflexivity|]. split; [reflexivity|].
    intros k rd relInfo path Hin. apply elem_of_nil in Hin. contradiction.
  - unfold rel_elements in Hnd. rewrite fmap_cons, NoDup_cons in Hnd.
    destruct Hnd as [Hfresh Hnd]. simpl in Hfresh.
    destruct (updatePath_path_elems s (rd_renderer rd0)) as (Ht1 & Hlen1 & Hne1).
    destruct (Hwf k0 rd0 ltac:(apply elem_of_cons; auto)) as [Hel0 Hlt0].
    set (s1 := updatePath s (rd_renderer rd0)) in *.
    destruct (IH (S i) s1) as (Ht' & Hlen' & Hout' & Hin').
    + rewrite Ht1. exact Ht.
    + exact Hnd.
    + intros k rd Hin. rewrite Hlen1. apply (Hwf k rd).
      apply elem_of_cons. auto.
    + split; [exact Ht'|]. split; [rewrite Hlen', Hlen1; reflexivity|].
      split.
      * intros j Hj. unfold rel_elements in Hj.
        rewrite ?fmap_cons, not_elem_of_cons in Hj. destruct Hj as [Hj0 Hj].
        rewrite (Hout' j Hj). apply Hne1. rewrite Hel0. simpl in Hj0.
        congruence.
      * intros k rd relInfo path Hin Hinfo Hpath.
        apply elem_of_cons in Hin as [[= -> ->]|Hin].
        -- rewrite (Hout' _ Hfresh). unfold s1.
           rewrite (updatePath_connector s _ _ relInfo Hel0 Hinfo).
           rewrite (connector_path_tables d0 s relInfo Ht), Hpath.
           unfold set_path_d. simpl. apply list_lookup_insert_eq. exact Hlt0.
        -- apply (Hin' k rd relInfo path Hin Hinfo Hpath).
Qed.

Lemma updateAllRelationships_attached d :
  relationships_wf d ->
  relationships_wf (updateAllRelationships d) /\
  connectors_attached (updateAllRelationships d).
Proof.
  intros [Hnd Hwf].
  destruct (updateAllRelationships_loop d (relationships d) 0 d eq_refl Hnd Hwf)
    as (Ht & Hlen & _ & Hin).
  destruct (updateAllRelationships_layers d) as (Hr & _ & _).
  fold (forEach (fun d' (e : Key * RelData) (_ : nat) =>
                   updatePath d' (rd_renderer (snd e))) (relationships d) d)
    in Ht, Hlen, Hin.
  fold (updateAllRelationships d) in Ht, Hlen, Hin.
  split.
  - unfold relationships_wf. rewrite Hr, Hlen. split; assumption.
  - unfold connectors_attached. rewrite Hr. intros k rd relInfo path Hk Hi Hp.
    rewrite (connector_path_tables d _ relInfo Ht) in Hp.
    apply (Hin k rd relInfo path Hk Hi Hp).
Qed.

Lemma relationships_wf_frame d d' :
  relationships d' = relationships d -> path_elems d' = path_elems d ->
  relationships_wf d -> relationships_wf d'.
Proof. unfold relationships_wf. intros -> ->. auto. Qed.

Lemma connectors_attached_frame d d' :
  tables d' = tables d -> relationships d' = relationships d ->
  path_elems d' = path_elems d ->
  connectors_attached d -> connectors_attached d'.
Proof.
  unfold connectors_attached. intros Ht -> -> H k rd relInfo path Hk Hi Hp.
  rewrite (connector_path_tables d d' relInfo Ht) in Hp. eauto.
Qed.

Lemma updatePath_relationships d r :
  relationships (updatePath d r) = relationships d.
Proof.
  unfold updatePath.
  destruct (rr_element r), (rr_relInfo r) as [relInfo|]; auto.
  destruct (findTableByName d (fromTable relInfo)),
           (findTableByName d (toTable relInfo)); auto.
Qed.

Lemma Map_set_elem (k : Key) (v : RelData) (m : list (Key * RelData)) x :
  x ∈ Map_set k v m -> x = (k, v) \/ x ∈ m.
Proof.
  intros Hx. rewrite <- (list_fmap_id (Map_set k v m)) in Hx.
  apply (Map_set_elem_of id) in Hx. rewrite list_fmap_id in Hx. exact Hx.
Qed.

Lemma renderRelationships_step_wf d ref i :
  relationships_wf d -> relationships_wf (renderRelationships_step d ref i).
Proof.
  intros [Hnd Hwf]. unfold renderRelationships_step,
    RelationshipRenderer_render. cbn [rr_ref].
  destruct (parseRelationship ref) as [relInfo|]; [|split; assumption].
  set (r1 := mkRelationshipRenderer ref (Some (length (path_elems d)))
                                    (Some relInfo)).
  set (d1 := set_path_elems d (path_elems d ++ [mkPathElem None])).
  destruct (updatePath_path_elems d1 r1) as (_ & Hlen & _).
  pose proof (updatePath_relationships d1 r1) as Hrel.
  assert (Hlen1 : length (path_elems (updatePath d1 r1))
                  = S (length (path_elems d))).
  { rewrite Hlen. unfold d1. simpl. rewrite length_app. simpl. lia. }
  split; cbn [relationships set_relationships set_layer_refs path_elems].
  - rewrite Hrel. apply (Map_set_NoDup (fun e => rd_element (snd e))).
    + exact Hnd.
    + simpl. intros Hin.
      apply list_elem_of_fmap in Hin as ([k rd] & Heq & Hin). simpl in Heq.
      destruct (Hwf k rd Hin) as [_ Hlt]. lia.
  - intros k rd Hin. rewrite Hrel in Hin. rewrite Hlen1.
    apply Map_set_elem in Hin as [[= -> ->]|Hin].
    + simpl. split; [reflexivity|lia].
    + destruct (Hwf k rd Hin) as [He Hlt]. split; [exact He|lia].
Qed.

Lemma render_relationships_wf d data :
  relationships_wf (render d data) /\ connectors_attached (render d data).
Proof.
  assert (Hclear : relationships_wf (clearDiagram d)).
  { split; simpl; [apply NoDup_nil_2|].
    intros k rd Hin. apply elem_of_nil in Hin. contradiction. }
  unfold render. destruct (first_schema data) as [schema|].
  2:{ split; [exact Hclear|].
      intros k rd relInfo path Hin. apply elem_of_nil in Hin. contradiction. }
  unfold autoLayout. apply updateAllRelationships_attached.
  match goal with |- relationships_wf (foldl _ ?s _) =>
    apply (relationships_wf_frame s) end.
  - apply (foldl_preserves relationships). intros s i. unfold autoLayout_step.
    destruct (tables s !! i) as [[k td]|]; reflexivity.
  - apply (foldl_preserves path_elems). intros s i. unfold autoLayout_step.
    destruct (tables s !! i) as [[k td]|]; reflexivity.
  - unfold renderRelationships, forEach. apply forEach_from_invariant.
    + intros s a i. apply renderRelationships_step_wf.
    + apply (relationships_wf_frame (clearDiagram d)); [| |exact Hclear].
      * unfold renderTables. apply (forEach_preserves relationships).
        reflexivity.
      * unfold renderTables. apply (forEach_preserves path_elems).
        reflexivity.
Qed.

Lemma setAllTablesOpacity_paths d o :
  relationships (setAllTablesOpacity d o) = relationships d /\
  path_elems (setAllTablesOpacity d o) = path_elems d.
Proof.
  unfold setAllTablesOpacity. split.
  - apply (forEach_preserves relationships). reflexivity.
  - apply (forEach_preserves path_elems). reflexivity.
Qed.

Lemma apply_op_connectors d o :
  relationships_wf d /\ connectors_attached d ->
  relationships_wf (apply_op d o) /\ connectors_attached (apply_op d o).
Proof.
  intros [Hwf Hatt].
  assert (Hframe : forall d', tables d' = tables d ->
                              relationships d' = relationships d ->
                              path_elems d' = path_elems d ->
                              relationships_wf d' /\ connectors_attached d').
  { intros d' Ht Hr Hp. split.
    - apply (relationships_wf_frame d); assumption.
    - apply (connectors_attached_frame d); assumption. }
  destruct (is_view_op o) eqn:Ho.
  - pose proof (proj2 (apply_op_separate d o) Ho) as Hc.
    unfold content_of in Hc. injection Hc as Ht Hr _ Hp _ _.
    apply Hframe; assumption.
  - destruct o; try discriminate Ho; cbn [apply_op].
    + unfold onMouseDown. cbn [fst]. apply Hframe.
      * unfold update_table_elem at 1. cbn [tables set_table_elems].
        rewrite setAllTablesOpacity_tables. reflexivity.
      * unfold update_table_elem at 1. cbn [relationships set_table_elems].
        rewrite (proj1 (setAllTablesOpacity_paths _ _)). reflexivity.
      * unfold update_table_elem at 1. cbn [path_elems set_table_elems].
        rewrite (proj2 (setAllTablesOpacity_paths _ _)). reflexivity.
    + destruct (isDragging c) eqn:Hc.
      * rewrite (onMouseMove_dragging d c e Hc).
        apply updateAllRelationships_attached.
        apply (relationships_wf_frame d); [reflexivity|reflexivity|exact Hwf].
      * unfold onMouseMove. rewrite Hc. split; assumption.
    + unfold onMouseUp. cbn [fst]. apply Hframe.
      * rewrite setAllTablesOpacity_tables. reflexivity.
      * rewrite (proj1 (setAllTablesOpacity_paths _ _)). reflexivity.
      * rewrite (proj2 (setAllTablesOpacity_paths _ _)). reflexivity.
    + apply render_relationships_wf.
Qed.

(** X12. Connectors are never stale. In every state that a new renderer
    can reach -- after every render, after every move of a drag, after any
    zoom or pan -- every relationship of the mapping whose two tables are
    in the table mapping is drawn along the path that
    [createManhattanPath] gives for the connection points at the tables'
    current positions. *)
Theorem connectors_never_stale (box : SvgBox) (ops : list Op) :
  let d := run ops (DiagramRenderer_new box) in
  forall k rd relInfo fromTableData toTableData,
    (k, rd) ∈ relationships d ->
    rr_relInfo (rd_renderer rd) = Some relInfo ->
    findTableByName d (fromTable relInfo) = Some fromTableData ->
    findTableByName d (toTable relInfo) = Some toTableData ->
    path_elems d !! rd_element rd =
      Some (mkPathElem
              (Some (createManhattanPath
                       (getConnectionPoint fromTableData (fromField relInfo))
                       (getConnectionPoint toTableData (toField relInfo))))).
Proof.
  intros d k rd relInfo fromTableData toTableData Hin Hinfo Hf Ht.
  assert (HK : relationships_wf d /\ connectors_attached d).
  { unfold d, run.
    assert (H0 : relationships_wf (DiagramRenderer_new box) /\
                 connectors_attached (DiagramRenderer_new box)).
    { split; [split; simpl; [apply NoDup_nil_2|]|].
      - intros k' rd' Hin'. apply elem_of_nil in Hin'. contradiction.
      - intros k' rd' ri p Hin'. apply elem_of_nil in Hin'. contradiction. }
    revert H0. generalize (DiagramRenderer_new box). clear.
    induction ops as [|o ops IH]; intros d0 H0; simpl.
    - exact H0.
    - apply IH, apply_op_connectors, H0. }
  destruct HK as [_ Hatt]. apply (Hatt k rd relInfo _ Hin Hinfo).
  unfold connector_path. rewrite Hf, Ht. reflexivity.
Qed.

(** After the session the connector of [ex_ref] follows [users] to its new
    place. *)
Lemma connectors_never_stale_witness :
  let d := run ex_session (DiagramRenderer_new ex_box) in
  exists rd f t,
    relationships d = [(KStr "posts_to_users", rd)] /\
    findTableByName d "posts" = Some f /\
    findTableByName d "users" = Some t /\
    td_x t = 150 /\
    path_elems d !! rd_element rd =
      Some (mkPathElem
              (Some (createManhattanPath
                       (getConnectionPoint f (Some "user_id"%string))
                       (getConnectionPoint t (Some "id"%string))))).
Proof.
  intros d.
  assert (Hrel : exists rd,
             relationships d = [(KStr "posts_to_users", rd)] /\
             rr_relInfo (rd_renderer rd)
             = Some (mkRelInfo "posts" (Some "user_id"%string)
                               "users" (Some "id"%string)))
    by (eexists; split; vm_compute; reflexivity).
  destruct Hrel as (rd & Hrel & Hinfo).
  assert (Hf : exists f, findTableByName d "posts" = Some f)
    by (eexists; vm_compute; reflexivity).
  assert (Ht : exists t, findTableByName d "users" = Some t /\ td_x t = 150)
    by (eexists; split; vm_compute; reflexivity).
  destruct Hf as (f & Hf). destruct Ht as (t & Ht & Hx).
  exists rd, f, t. repeat (split; [assumption|]).
  apply (connectors_never_stale ex_box ex_session (KStr "posts_to_users") rd
           (mkRelInfo "posts" (Some "user_id"%string)
                      "users" (Some "id"%string)) f t);
    [|exact Hinfo|exact Hf|exact Ht].
  fold d. rewrite Hrel. apply list_elem_of_singleton. reflexivity.
Defined.

(** ** What a render makes *)

Lemma foldl_invariant {A St : Type} (P : St -> Prop) (f : St -> A -> St) :
  (forall s a, P s -> P (f s a)) ->
  forall l s, P s -> P (foldl f s l).
Proof.
  intros Hf l. induction l as [|a l IH]; intros s Hs; simpl.
  - exact Hs.
  - apply IH, Hf, Hs.
Qed.

Lemma Map_set_elem_gen {V : Type} (k : Key) (v : V) (m : list (Key * V)) x :
  x ∈ Map_set k v m -> x = (k, v) \/ x ∈ m.
Proof.
  intros Hx. rewrite <- (list_fmap_id (Map_set k v m)) in Hx.
  apply (Map_set_elem_of id) in Hx. rewrite list_fmap_id in Hx. exact Hx.
Qed.

Lemma Map_set_length {V : Type} (k : Key) (v : V) (m : list (Key * V)) :
  (length m <= length (Map_set k v m) <= S (length m))%nat.
Proof.
  induction m as [|[k' v'] m IH]; simpl; [lia|].
  destruct (key_eqb k k'); simpl; lia.
Qed.

(** The state between the two halves of [render]: the tables and the
    relationships are rendered, the layout is still to come. *)
Lemma autoLayout_step_frame s i :
  skeleton <$> tables (autoLayout_step s i) = skeleton <$> tables s /\
  td_size <$> tables (autoLayout_step s i) = td_size <$> tables s /\
  length (table_elems (autoLayout_step s i)) = length (table_elems s) /\
  (forall j, j ∉ td_elements (tables s) ->
             table_elems (autoLayout_step s i) !! j = table_elems s !! j) /\
  (forall j el, table_elems s !! j = Some el ->
     exists el', table_elems (autoLayout_step s i) !! j = Some el' /\
                 el_width el' = el_width el /\ el_height el' = el_height el /\
                 el_cursor el' = el_cursor el /\
                 el_opacity el' = el_opacity el /\
                 el_dragging el' = el_dragging el) /\
  layer_tables (autoLayout_step s i) = layer_tables s /\
  layer_refs (autoLayout_step s i) = layer_refs s /\
  path_elems (autoLayout_step s i) = path_elems s.
Proof.
  unfold autoLayout_step.
  destruct (tables s !! i) as [[k td]|] eqn:Hk.
  2:{ repeat split; try reflexivity. intros j el Hj. exists el.
      split; [exact Hj|]. repeat split; reflexivity. }
  unfold update_table_elem.
  cbn [tables table_elems layer_tables layer_refs path_elems set_tables
       set_table_elems].
  split; [|split; [|split; [|split; [|split]]]].
  - rewrite list_fmap_insert. apply list_insert_id.
    rewrite list_lookup_fmap, Hk. reflexivity.
  - rewrite list_fmap_insert. apply list_insert_id.
    rewrite list_lookup_fmap, Hk. reflexivity.
  - rewrite !length_alter. reflexivity.
  - intros j Hj.
    assert (Hne : td_element td <> j).
    { intros <-. apply Hj. unfold td_elements.
      apply list_elem_of_fmap. exists (k, td). split; [reflexivity|].
      eapply list_elem_of_lookup_2, Hk. }
    rewrite !list_lookup_alter_ne by exact Hne. reflexivity.
  - intros j el Hj.
    destruct (decide (td_element td = j)) as [Heq|Hne].
    + subst j. rewrite !list_lookup_alter_eq, Hj.
      eexists. split; [reflexivity|]. repeat split; reflexivity.
    + rewrite !list_lookup_alter_ne by exact Hne. exists el.
      split; [exact Hj|]. repeat split; reflexivity.
  - auto.
Qed.

Lemma td_elements_of_skeleton (m m' : list (Key * TableData)) :
  skeleton <$> m' = skeleton <$> m -> td_elements m' = td_elements m.
Proof. intros H. rewrite !td_elements_skeleton, H. reflexivity. Qed.

Lemma autoLayout_loop_frame d l :
  let s := foldl autoLayout_step d l in
  skeleton <$> tables s = skeleton <$> tables d /\
  td_size <$> tables s = td_size <$> tables d /\
  length (table_elems s) = length (table_elems d) /\
  (forall j, j ∉ td_elements (tables d) ->
             table_elems s !! j = table_elems d !! j) /\
  (forall j el, table_elems d !! j = Some el ->
     exists el', table_elems s !! j = Some el' /\
                 el_width el' = el_width el /\ el_height el' = el_height el /\
                 el_cursor el' = el_cursor el /\
                 el_opacity el' = el_opacity el /\
                 el_dragging el' = el_dragging el) /\
  layer_tables s = layer_tables d /\
  layer_refs s = layer_refs d /\
  path_elems s = path_elems d.
Proof.
  apply (foldl_invariant
           (fun s =>
              skeleton <$> tables s = skeleton <$> tables d /\
              td_size <$> tables s = td_size <$> tables d /\
              length (table_elems s) = length (table_elems d) /\
              (forall j, j ∉ td_elements (tables d) ->
                         table_elems s !! j = table_elems d !! j) /\
              (forall j el, table_elems d !! j = Some el ->
                 exists el', table_elems s !! j = Some el' /\
                             el_width el' = el_width el /\
                             el_height el' = el_height el /\
                             el_cursor el' = el_cursor el /\
                             el_opacity el' = el_opacity el /\
                             el_dragging el' = el_dragging el) /\
              layer_tables s = layer_tables d /\
              layer_refs s = layer_refs d /\
              path_elems s = path_elems d)).
  - intros s i (Hsk & Hsz & Hlen & Hout & Hsh & Hlt & Hlr & Hpe).
    destruct (autoLayout_step_frame s i)
      as (Hsk' & Hsz' & Hlen' & Hout' & Hsh' & Hlt' & Hlr' & Hpe').
    split; [congruence|]. split; [congruence|]. split; [congruence|].
    split; [|split; [|split; [congruence|split; congruence]]].
    + intros j Hj. rewrite Hout'; [apply Hout, Hj|].
      rewrite (td_elements_of_skeleton _ _ Hsk). exact Hj.
    + intros j el Hj.
      destruct (Hsh j el Hj) as (el1 & H1 & Hw & Hh & Hc & Ho & Hg).
      destruct (Hsh' j el1 H1) as (el2 & H2 & Hw2 & Hh2 & Hc2 & Ho2 & Hg2).
      exists el2. split; [exact H2|]. repeat split; congruence.
  - repeat split; try reflexivity. intros j el Hj. exists el.
    split; [exact Hj|]. repeat split; reflexivity.
Qed.

Lemma renderTables_step_record s t idx H0 :
  length (table_elems s) = (H0 + idx)%nat ->
  tables (renderTables_step s t idx)
  = Map_set (table_key t) (rendered_record H0 idx t) (tables s).
Proof. intros H. unfold rendered_record. rewrite <- H. reflexivity. Qed.

Lemma renderTables_records (H0 : nat) (all : list Table) (l : list Table) :
  forall idx s,
    (forall j t, l !! j = Some t -> all !! (idx + j)%nat = Some t) ->
    length (table_elems s) = (H0 + idx)%nat ->
    (forall k td, (k, td) ∈ tables s ->
       exists j t, all !! j = Some t /\ k = table_key t /\
                   td = rendered_record H0 j t) ->
    let s' := forEach_from renderTables_step l idx s in
    (forall k td, (k, td) ∈ tables s' ->
       exists j t, all !! j = Some t /\ k = table_key t /\
                   td = rendered_record H0 j t) /\
    (length (tables s') <= length (tables s) + length l)%nat.
Proof.
  induction l as [|t l IH]; intros idx s Hall Hlen Hrec; simpl.
  - split; [exact Hrec|lia].
  - destruct (IH (S idx) (renderTables_step s t idx)) as [Hrec' Hlen'].
    + intros j t' Hj. replace (S idx + j)%nat with (idx + S j)%nat by lia.
      apply Hall. exact Hj.
    + rewrite renderTables_step_heap, Hlen. lia.
    + intros k td Hin.
      rewrite (renderTables_step_record s t idx H0 Hlen) in Hin.
      apply Map_set_elem_gen in Hin as [[= -> ->]|Hin].
      * exists idx, t. split; [|auto].
        rewrite <- (Nat.add_0_r idx). apply Hall. reflexivity.
      * apply Hrec, Hin.
    + split; [exact Hrec'|].
      rewrite (renderTables_step_record s t idx H0 Hlen) in Hlen'.
      pose proof (Map_set_length (table_key t) (rendered_record H0 idx t)
                    (tables s)). lia.
Qed.

Lemma renderRelationships_step_layers d ref i :
  tables (renderRelationships_step d ref i) = tables d /\
  table_elems (renderRelationships_step d ref i) = table_elems d /\
  layer_tables (renderRelationships_step d ref i) = layer_tables d /\
  layer_refs (renderRelationships_step d ref i)
    = layer_refs d ++ (if resolves ref then [length (path_elems d)] else []) /\
  length (path_elems (renderRelationships_step d ref i))
    = (length (path_elems d) + (if resolves ref then 1 else 0))%nat.
Proof.
  unfold renderRelationships_step, RelationshipRenderer_render, resolves.
  cbn [rr_ref].
  destruct (parseRelationship ref) as [relInfo|].
  2:{ rewrite app_nil_r, Nat.add_0_r. auto. }
  set (r1 := mkRelationshipRenderer ref (Some (length (path_elems d)))
                                    (Some relInfo)).
  set (d1 := set_path_elems d (path_elems d ++ [mkPathElem None])).
  destruct (updatePath_tables d1 r1) as (Ht & He & _).
  destruct (updatePath_path_elems d1 r1) as (_ & Hlen & _).
  assert (Hl : layer_tables (updatePath d1 r1) = layer_tables d1 /\
               layer_refs (updatePath d1 r1) = layer_refs d1).
  { unfold updatePath.
    destruct (rr_element r1), (rr_relInfo r1) as [ri|]; auto.
    destruct (findTableByName d1 (fromTable ri)),
             (findTableByName d1 (toTable ri)); auto. }
  destruct Hl as [Hlt Hlr].
  cbn [tables table_elems layer_tables layer_refs path_elems
       set_relationships set_layer_refs].
  rewrite Ht, He, Hlt, Hlr, Hlen. unfold d1. simpl.
  rewrite length_app. simpl. auto.
Qed.

Lemma renderRelationships_layers refs :
  forall i d,
    let d' := forEach_from renderRelationships_step refs i d in
    tables d' = tables d /\
    table_elems d' = table_elems d /\
    layer_tables d' = layer_tables d /\
    layer_refs d'
      = layer_refs d
        ++ seq (length (path_elems d)) (length (filter resolves refs)) /\
    length (path_elems d')
      = (length (path_elems d) + length (filter resolves refs))%nat.
Proof.
  induction refs as [|ref refs IH]; intros i d; simpl.
  - rewrite app_nil_r, Nat.add_0_r. auto.
  - destruct (IH (S i) (renderRelationships_step d ref i))
      as (Ht & He & Hlt & Hlr & Hlen).
    destruct (renderRelationships_step_layers d ref i)
      as (Ht1 & He1 & Hlt1 & Hlr1 & Hlen1).
    rewrite Ht, He, Hlt, Hlr, Hlen, Ht1, He1, Hlt1, Hlr1, Hlen1.
    rewrite filter_cons.
    destruct (decide (resolves ref)) as [Hr|Hr].
    + apply Is_true_true in Hr. rewrite Hr. simpl.
      rewrite <- app_assoc. simpl.
      replace (length (path_elems d) + 1)%nat
        with (S (length (path_elems d))) by lia.
      repeat split; try reflexivity. lia.
    + apply Is_true_false in Hr. rewrite Hr. simpl.
      rewrite app_nil_r, Nat.add_0_r. auto.
Qed.

Lemma updateAllRelationships_path_length d :
  length (path_elems (updateAllRelationships d)) = length (path_elems d).
Proof.
  unfold updateAllRelationships.
  apply (forEach_preserves (fun s => length (path_elems s))).
  intros s a i. apply updatePath_path_elems.
Qed.

Lemma renderTables_paths d ts :
  layer_refs (renderTables d ts) = layer_refs d /\
  path_elems (renderTables d ts) = path_elems d.
Proof.
  unfold renderTables. split.
  - apply (forEach_preserves layer_refs). reflexivity.
  - apply (forEach_preserves path_elems). reflexivity.
Qed.

(** Everything that [render] makes of a schema, in one statement. *)
Lemma render_stages (d : Diagram) (dbmlData : option DbmlData)
    (schema : Schema) :
  first_schema dbmlData = Some schema ->
  let ts := default [] (schema_tables schema) in
  let refs := default [] (schema_refs schema) in
  let H0 := length (table_elems d) in
  let d' := render d dbmlData in
  layer_tables d' = seq H0 (length ts) /\
  length (table_elems d') = (H0 + length ts)%nat /\
  (forall j, (j < H0)%nat -> table_elems d' !! j = table_elems d !! j) /\
  (length (tables d') <= length ts)%nat /\
  layer_refs d' = seq (length (path_elems d)) (length (filter resolves refs)) /\
  length (path_elems d')
    = (length (path_elems d) + length (filter resolves refs))%nat /\
  (forall i k td,
      tables d' !! i = Some (k, td) ->
      exists j t el,
        ts !! j = Some t /\ k = table_key t /\
        td = mkTableData t (H0 + j) (grid_x i) (grid_y i) 250
               (35 + (of_index (length (table_fields t)) * 30)) /\
        table_elems d' !! (H0 + j)%nat = Some el /\
        el = mkTableElem (grid_x i) (grid_y i) (el_width el) (el_height el)
                         None false Grab /\
        el_width el = 250 /\
        el_height el = 35 + (of_index (length (table_fields t)) * 30)).
Proof.
  intros Hfs ts refs H0 d'.
  set (d1 := clearDiagram d).
  set (d2 := renderTables d1 ts).
  set (d3 := renderRelationships d2 refs).
  set (s := foldl autoLayout_step d3 (seq 0 (length (tables d3)))).
  assert (Hd' : d' = updateAllRelationships s)
    by (unfold d', render; rewrite Hfs; reflexivity).
  clearbody d'. subst d'.
  (* the tables *)
  destruct (renderTables_from_elems ts 0 d1) as [He2 Hl2].
  fold (forEach renderTables_step ts d1) in He2, Hl2.
  fold (renderTables d1 ts) in He2, Hl2. fold d2 in He2, Hl2.
  change (table_elems d1) with (table_elems d) in He2, Hl2.
  change (layer_tables d1) with (@nil nat) in Hl2. simpl in Hl2.
  fold H0 in Hl2.
  destruct (renderTables_records H0 ts ts 0 d1) as [Hrec2 Hlen2].
  { intros j t Hj. exact Hj. }
  { unfold H0. simpl. lia. }
  { intros k td Hin. apply elem_of_nil in Hin. contradiction. }
  fold (forEach renderTables_step ts d1) in Hrec2, Hlen2.
  fold (renderTables d1 ts) in Hrec2, Hlen2. fold d2 in Hrec2, Hlen2.
  simpl in Hlen2.
  destruct (renderTables_paths d1 ts) as [Hlr2 Hpe2]. fold d2 in Hlr2, Hpe2.
  (* the relationships *)
  destruct (renderRelationships_layers refs 0 d2)
    as (Ht3 & He3 & Hl3 & Hlr3 & Hpe3).
  fold (forEach renderRelationships_step refs d2) in Ht3, He3, Hl3, Hlr3, Hpe3.
  fold (renderRelationships d2 refs) in Ht3, He3, Hl3, Hlr3, Hpe3.
  fold d3 in Ht3, He3, Hl3, Hlr3, Hpe3.
  rewrite Hlr2, Hpe2 in Hlr3. rewrite Hpe2 in Hpe3.
  change (layer_refs d1) with (@nil nat) in Hlr3.
  change (path_elems d1) with (path_elems d) in Hlr3, Hpe3. simpl in Hlr3.
  (* the layout *)
  assert (Hwf : elements_wf d3).
  { unfold elements_wf. rewrite Ht3, He3.
    apply renderTables_wf, elements_wf_clearDiagram. }
  destruct (autoLayout_loop d3 (length (tables d3)) Hwf (le_n _))
    as (_ & _ & Hgrid). fold s in Hgrid.
  destruct (autoLayout_loop_frame d3 (seq 0 (length (tables d3))))
    as (Hsk & Hsz & Hlen & Hout & Hsh & Hlt & Hlr & Hpe).
  fold s in Hsk, Hsz, Hlen, Hout, Hsh, Hlt, Hlr, Hpe.
  destruct (updateAllRelationships_tables s) as [Htd He].
  destruct (updateAllRelationships_layers s) as (_ & Hltd & Hlrd).
  pose proof (updateAllRelationships_path_length s) as Hped.
  rewrite Htd, He, Hltd, Hlrd, Hped.
  assert (Hlens : length (tables s) = length (tables d2)).
  { rewrite <- (length_fmap skeleton (tables s)), Hsk, length_fmap, Ht3.
    reflexivity. }
  assert (Hnew : forall el, el ∈ td_elements (tables d3) -> (H0 <= el)%nat).
  { intros el Hel. unfold td_elements in Hel. rewrite Ht3 in Hel.
    apply list_elem_of_fmap in Hel as ([k td] & -> & Hin).
    destruct (Hrec2 k td Hin) as (j & t & _ & _ & ->). simpl. lia. }
  split; [rewrite Hlt, Hl3; exact Hl2|].
  split; [rewrite Hlen, He3, He2, length_app, length_imap; reflexivity|].
  split.
  { intros j Hj. rewrite Hout.
    - rewrite He3, He2. apply lookup_app_l. exact Hj.
    - intros Hin. apply Hnew in Hin. lia. }
  split; [rewrite Hlens; exact Hlen2|].
  split; [rewrite Hlr; exact Hlr3|].
  split; [rewrite Hpe; exact Hpe3|].
  intros i k td Hi.
  assert (Hi_lt : (i < length (tables d3))%nat).
  { apply lookup_lt_Some in Hi. rewrite Hlens, <- Ht3 in Hi. exact Hi. }
  destruct (Hgrid i k td Hi_lt Hi) as (Hx & Hy & el & Hel & Hex & Hey).
  destruct (lookup_lt_is_Some_2 (tables d3) i Hi_lt) as [[k3 td3] Hi3].
  assert (Hsk_i : skeleton (k3, td3) = skeleton (k, td)).
  { assert (H : (skeleton <$> tables d3) !! i = (skeleton <$> tables s) !! i)
      by (rewrite Hsk; reflexivity).
    rewrite !list_lookup_fmap, Hi, Hi3 in H. simpl in H. congruence. }
  assert (Hsz_i : td_size (k3, td3) = td_size (k, td)).
  { assert (H : (td_size <$> tables d3) !! i = (td_size <$> tables s) !! i)
      by (rewrite Hsz; reflexivity).
    rewrite !list_lookup_fmap, Hi, Hi3 in H. simpl in H. congruence. }
  unfold skeleton in Hsk_i. unfold td_size in Hsz_i. simpl in Hsk_i, Hsz_i.
  injection Hsk_i as Hk Htab Helm. injection Hsz_i as Hw Hh.
  assert (Hin3 : (k3, td3) ∈ tables d2).
  { rewrite <- Ht3. eapply list_elem_of_lookup_2, Hi3. }
  destruct (Hrec2 k3 td3 Hin3) as (j & t & Hj & Hk3 & Htd3).
  subst td3. simpl in Htab, Helm, Hw, Hh.
  assert (Hel2 : table_elems d3 !! (H0 + j)%nat = Some (rendered_elem t j)).
  { rewrite He3, He2, lookup_app_r by (unfold H0; lia).
    replace (H0 + j - length (table_elems d))%nat with j by (unfold H0; lia).
    rewrite list_lookup_imap, Hj. reflexivity. }
  destruct (Hsh _ _ Hel2) as (el' & Hel' & Hw' & Hh' & Hc' & Ho' & Hg').
  rewrite <- Helm in Hel. rewrite Hel in Hel'. injection Hel' as <-.
  exists j, t, el. split; [exact Hj|]. split; [congruence|].
  split.
  { destruct td as [tt te tx ty tw th]. simpl in *. congruence. }
  split; [exact Hel|].
  split.
  { destruct el as [ex ey ew eh eo edr ec]. simpl in *.
    rewrite Hex, Hey, Hc', Ho', Hg'. reflexivity. }
  split; [rewrite Hw'; reflexivity|rewrite Hh'; reflexivity].
Qed.

(** X13. A render builds everything anew. The tables layer gets one new
    element per table of the schema, in order; the elements of earlier
    renders stay on the heap as they were and are in no layer and in no
    record any more; the table mapping has at most one record per table of
    the schema; the relationships layer gets one new path per relationship
    that resolves, dangling ones included. *)
Theorem render_builds_anew (d : Diagram) (dbmlData : option DbmlData)
    (schema : Schema) :
  first_schema dbmlData = Some schema ->
  let ts := default [] (schema_tables schema) in
  let refs := default [] (schema_refs schema) in
  let d' := render d dbmlData in
  layer_tables d' = seq (length (table_elems d)) (length ts) /\
  length (table_elems d') = (length (table_elems d) + length ts)%nat /\
  (forall j, (j < length (table_elems d))%nat ->
             table_elems d' !! j = table_elems d !! j) /\
  (forall i k td, tables d' !! i = Some (k, td) ->
                  td_element td ∈ layer_tables d') /\
  (length (tables d') <= length ts)%nat /\
  layer_refs d' = seq (length (path_elems d)) (length (filter resolves refs)) /\
  length (path_elems d')
    = (length (path_elems d) + length (filter resolves refs))%nat.
Proof.
  intros Hfs ts refs d'.
  destruct (render_stages d dbmlData schema Hfs)
    as (Hl & Hlen & Hold & Hle & Hlr & Hpe & Hrec).
  fold ts refs d' in Hl, Hlen, Hold, Hle, Hlr, Hpe, Hrec.
  split; [exact Hl|]. split; [exact Hlen|]. split; [exact Hold|].
  split; [|auto].
  intros i k td Hi. destruct (Hrec i k td Hi) as (j & t & el & Hj & _ & -> & _).
  simpl. rewrite Hl. apply elem_of_seq. apply lookup_lt_Some in Hj. lia.
Qed.

Lemma render_builds_anew_witness :
  layer_tables (render ex_diagram ex_seven) = seq 2 7 /\
  table_elems (render ex_diagram ex_seven) !! 0%nat
    = table_elems ex_diagram !! 0%nat.
Proof.
  assert (Hfs : first_schema ex_seven
                = Some (mkSchema (Some ex_seven_tables) None))
    by reflexivity.
  destruct (render_builds_anew ex_diagram ex_seven _ Hfs)
    as (Hl & _ & Hold & _).
  split.
  - rewrite Hl. vm_compute. reflexivity.
  - apply Hold. vm_compute. lia.
Defined.

(** X14. The shape of a rendered table. After a render, every record of
    the table mapping has the width 250 and the height 35 plus 30 per field
    of its table; its element has the same position and the same size as
    the record, a header that can be grabbed, and neither an opacity nor
    the dragging class. *)
Theorem render_table_shapes (d : Diagram) (dbmlData : option DbmlData)
    (i : nat) (k : Key) (td : TableData) :
  tables (render d dbmlData) !! i = Some (k, td) ->
  td_width td = 250 /\
  td_height td = 35 + (of_index (length (table_fields (td_table td))) * 30) /\
  exists el,
    table_elems (render d dbmlData) !! td_element td = Some el /\
    el_x el = td_x td /\ el_y el = td_y td /\
    el_width el = td_width td /\ el_height el = td_height td /\
    el_cursor el = Grab /\ el_opacity el = None /\ el_dragging el = false.
Proof.
  intros Hi. destruct (first_schema dbmlData) as [schema|] eqn:Hfs.
  - destruct (render_stages d dbmlData schema Hfs)
      as (_ & _ & _ & _ & _ & _ & Hrec).
    destruct (Hrec i k td Hi) as (j & t & el & _ & _ & -> & Hel & Hshape & Hw & Hh).
    simpl. split; [reflexivity|]. split; [reflexivity|].
    exists el. split; [exact Hel|]. rewrite Hshape. simpl.
    repeat split; try reflexivity; assumption.
  - unfold render in Hi. rewrite Hfs in Hi. discriminate Hi.
Qed.

Lemma render_table_shapes_witness :
  exists td el,
    tables ex_diagram !! 1%nat = Some (KNum 1, td) /\
    td_height td = 35 + (of_index 2 * 30) /\
    table_elems ex_diagram !! td_element td = Some el /\
    el_height el = td_height td.
Proof.
  assert (H : tables (render (DiagramRenderer_new ex_box) ex_data) !! 1%nat
              = Some (KNum 1, mkTableData ex_posts 1 350 50 250 95))
    by (vm_compute; reflexivity).
  destruct (render_table_shapes (DiagramRenderer_new ex_box) ex_data 1%nat
              _ _ H) as (_ & Hh & el & Hel & _ & _ & _ & Heh & _).
  exists (mkTableData ex_posts 1 350 50 250 95), el.
  split; [exact H|]. split; [exact Hh|]. split; [exact Hel|exact Heh].
Defined.

(** ** Queries *)

Lemma Map_get_None {V : Type} (k : Key) (m : list (Key * V)) :
  k ∉ fst <$> m -> Map_get k m = None.
Proof.
  induction m as [|[k' v] m IH]; simpl; [reflexivity|].
  rewrite not_elem_of_cons. intros [Hne Hnin].
  destruct (key_eqb k k') eqn:Hk; [|apply IH, Hnin].
  apply key_eqb_eq in Hk. contradiction.
Qed.

Lemma render_keys_distinct (d : Diagram) (dbmlData : option DbmlData)
    (schema : Schema) :
  first_schema dbmlData = Some schema ->
  NoDup (table_key <$> default [] (schema_tables schema)) ->
  fst <$> tables (render d dbmlData)
  = table_key <$> default [] (schema_tables schema).
Proof.
  intros Hfs Hnd. unfold render. rewrite Hfs. unfold autoLayout.
  set (ts := default [] (schema_tables schema)) in *.
  set (d2 := renderTables (clearDiagram d) ts).
  set (d3 := renderRelationships d2 (default [] (schema_refs schema))).
  rewrite (proj1 (updateAllRelationships_tables _)).
  destruct (autoLayout_loop_frame d3 (seq 0 (length (tables d3))))
    as (Hsk & _).
  destruct (renderRelationships_tables d2 (default [] (schema_refs schema)))
    as [Ht3 _]. fold d3 in Ht3.
  transitivity (fst <$> (fst <$> (skeleton <$> tables d3))).
  - rewrite <- Hsk, <- !list_fmap_compose. reflexivity.
  - rewrite Ht3. unfold d2, renderTables, forEach.
    rewrite renderTables_from_skeleton; [|exact Hnd|].
    + simpl. rewrite <- list_fmap_compose. reflexivity.
    + intros t _ Hin. simpl in Hin. apply elem_of_nil in Hin. exact Hin.
Qed.

(** X15. [getTablePosition] after a render: for a key that is the
    identifier of no table of the schema it gives the origin; when the
    tables of the schema have pairwise distinct identifiers it gives the
    table at index [i] the grid position of [i]. *)
Theorem getTablePosition_after_render (d : Diagram)
    (dbmlData : option DbmlData) (schema : Schema) :
  first_schema dbmlData = Some schema ->
  let ts := default [] (schema_tables schema) in
  let d' := render d dbmlData in
  (forall k, k ∉ table_key <$> ts -> getTablePosition d' k = mkPoint 0 0) /\
  (NoDup (table_key <$> ts) ->
   forall i t, ts !! i = Some t ->
     getTablePosition d' (table_key t)
     = mkPoint (of_index (i mod 3) * 300 + 50) (of_index (i / 3) * 250 + 50)).
Proof.
  intros Hfs ts d'.
  destruct (render_stages d dbmlData schema Hfs)
    as (_ & _ & _ & _ & _ & _ & Hrec). fold ts d' in Hrec.
  split.
  - intros k Hk. unfold getTablePosition. rewrite Map_get_None; [reflexivity|].
    intros Hin. apply list_elem_of_fmap in Hin as ([k' td] & -> & Hin).
    apply list_elem_of_lookup_1 in Hin as [i Hi].
    destruct (Hrec i k' td Hi) as (j & t & _ & Hj & -> & _).
    apply Hk. simpl. apply list_elem_of_fmap. exists t. split; [reflexivity|].
    eapply list_elem_of_lookup_2, Hj.
  - intros Hnd i t Hi.
    pose proof (render_keys_distinct d dbmlData schema Hfs Hnd) as Hkeys.
    fold ts d' in Hkeys.
    assert (Hki : (fst <$> tables d') !! i = Some (table_key t))
      by (rewrite Hkeys, list_lookup_fmap, Hi; reflexivity).
    rewrite list_lookup_fmap in Hki.
    destruct (tables d' !! i) as [[k td]|] eqn:Hlook; [|discriminate].
    simpl in Hki. injection Hki as ->.
    destruct (Hrec i _ td Hlook) as (j & t' & _ & _ & _ & Htd & _).
    unfold getTablePosition.
    rewrite (Map_get_lookup (tables d') i (table_key t) td);
      [|rewrite Hkeys; exact Hnd|exact Hlook].
    rewrite Htd. reflexivity.
Qed.

Lemma getTablePosition_after_render_witness :
  getTablePosition (render (DiagramRenderer_new ex_box) ex_seven) (KNum 4)
    = mkPoint (of_index (4 mod 3) * 300 + 50) (of_index (4 / 3) * 250 + 50) /\
  getTablePosition (render (DiagramRenderer_new ex_box) ex_seven) (KNum 9)
    = mkPoint 0 0.
Proof.
  assert (Hfs : first_schema ex_seven
                = Some (mkSchema (Some ex_seven_tables) None))
    by reflexivity.
  destruct (getTablePosition_after_render (DiagramRenderer_new ex_box)
              ex_seven _ Hfs) as [Hmiss Hhit].
  assert (Hnd : NoDup (table_key <$> ex_seven_tables)).
  { simpl. repeat (apply NoDup_cons_2; [rewrite ?not_elem_of_cons;
      repeat split; try discriminate; apply not_elem_of_nil|]).
    apply NoDup_nil_2. }
  assert (Hnin : KNum 9 ∉ table_key <$> ex_seven_tables).
  { simpl. rewrite ?not_elem_of_cons.
    repeat split; try discriminate. apply not_elem_of_nil. }
  pose proof (Hhit Hnd 4%nat (ex_table 4 "t4") eq_refl) as H4.
  pose proof (Hmiss (KNum 9) Hnin) as H9.
  split; [exact H4|exact H9].
Defined.

(** X16. The three anchor points of a field agree. For a table that
    [findTableByName] finds, [getFieldPosition] (right edge) and
    [getFieldInputPosition] (left edge) are at the height of the
    connection point of [getConnectionPoint], one record width apart, and
    the connection point is 50 to the right of the left one; for a table
    that is not found both give the origin. *)
Theorem field_positions_agree (d : Diagram) (tableName : string)
    (fieldName : option string) :
  let out := getFieldPosition d tableName fieldName in
  let inp := getFieldInputPosition d tableName fieldName in
  fp_side out = SideRight /\ fp_side inp = SideLeft /\
  (table_absent d tableName ->
     fp_x out = 0 /\ fp_y out = 0 /\ fp_x inp = 0 /\ fp_y inp = 0) /\
  (forall tableData,
      findTableByName d tableName = Some tableData ->
      table_name (td_table tableData) = tableName /\
      fp_x inp = td_x tableData /\
      fp_x out = td_x tableData + td_width tableData /\
      fp_y out = py (getConnectionPoint tableData fieldName) /\
      fp_y inp = py (getConnectionPoint tableData fieldName) /\
      px (getConnectionPoint tableData fieldName) = fp_x inp + 50).
Proof.
  intros out inp. unfold out, inp, getFieldPosition, getFieldInputPosition,
    getConnectionPoint.
  split; [|split; [|split]].
  - destruct (findTableByName d tableName) as [td|]; [|reflexivity].
    destruct (findIndex _ _); reflexivity.
  - destruct (findTableByName d tableName) as [td|]; [|reflexivity].
    destruct (findIndex _ _); reflexivity.
  - intros Habs. apply findTableByName_None in Habs. rewrite Habs.
    repeat split; reflexivity.
  - intros td Hf. rewrite Hf. split.
    + unfold findTableByName in Hf.
      destruct (List.find _ (tables d)) as [[k td']|] eqn:Hfind;
        [|discriminate].
      simpl in Hf. injection Hf as ->.
      apply find_some in Hfind as [_ Heq]. simpl in Heq.
      apply String.eqb_eq, Heq.
    + destruct (findIndex _ _); repeat split; reflexivity.
Qed.

Lemma field_positions_agree_witness :
  fp_y (getFieldPosition ex_diagram "posts" (Some "user_id"%string))
    = py (getConnectionPoint ex_posts_data (Some "user_id"%string)) /\
  fp_x (getFieldPosition ex_diagram "nobody" (Some "id"%string)) = 0.
Proof.
  destruct (field_positions_agree ex_diagram "posts" (Some "user_id"%string))
    as (_ & _ & _ & Hfound).
  destruct (field_positions_agree ex_diagram "nobody" (Some "id"%string))
    as (_ & _ & Habsent & _).
  assert (Hf : findTableByName ex_diagram "posts" = Some ex_posts_data)
    by (vm_compute; reflexivity).
  assert (Ha : table_absent ex_diagram "nobody")
    by (apply findTableByName_None; vm_compute; reflexivity).
  destruct (Hfound ex_posts_data Hf) as (_ & _ & _ & Hy & _).
  destruct (Habsent Ha) as (Hx & _).
  split; [exact Hy|exact Hx].
Defined.

(** ** Connection points and paths *)

Lemma of_index_lt (i n : nat) : (i < n)%nat -> of_index i + 1 <= of_index n.
Proof.
  intros H. unfold of_index. change 1 with (inject_Z 1).
  rewrite <- inject_Z_plus. rewrite <- Zle_Qle. lia.
Qed.

Lemma of_index_nonneg (n : nat) : 0 <= of_index n.
Proof.
  unfold of_index. change 0 with (inject_Z 0). rewrite <- Zle_Qle. lia.
Qed.

(** X17. The connection point lies inside its table. For a record of
    width 250 whose height is 35 plus 30 per field (every record that a
    render makes), the connection point of any field name lies strictly
    inside the rectangle of the table; when the field is found it lies
    below the header, in the middle of the row of the field. *)
Theorem connection_point_inside_table (tableData : TableData)
    (fieldName : option string) :
  td_width tableData = 250 ->
  td_height tableData
    = 35 + (of_index (length (table_fields (td_table tableData))) * 30) ->
  let p := getConnectionPoint tableData fieldName in
  td_x tableData < px p /\ px p < td_x tableData + td_width tableData /\
  td_y tableData < py p /\ py p < td_y tableData + td_height tableData /\
  (forall i,
      findIndex (field_is fieldName) (table_fields (td_table tableData))
        = Some i ->
      let rowTop := td_y tableData + 35 + of_index i * 30 in
      (i < length (table_fields (td_table tableData)))%nat /\
      py p == rowTop + 15 /\
      rowTop + 30 <= td_y tableData + td_height tableData).
Proof.
  intros Hw Hh p. unfold p, getConnectionPoint. rewrite Hw, Hh.
  pose proof (of_index_nonneg (length (table_fields (td_table tableData))))
    as Hn.
  destruct (findIndex (field_is fieldName) (table_fields (td_table tableData)))
    as [i|] eqn:Hfi; simpl.
  - apply findIndex_Some in Hfi as [(f & Hf & _) _].
    apply lookup_lt_Some in Hf. pose proof (of_index_lt _ _ Hf) as Hlt.
    pose proof (of_index_nonneg i) as Hi.
    split; [lra|]. split; [lra|]. split; [lra|]. split; [lra|].
    intros i' [= <-]. split; [exact Hf|]. split; lra.
  - split; [lra|]. split; [lra|].
    assert (Hdiv : (35 + of_index (length (table_fields (td_table tableData)))
                         * 30) / 2
                   == (35 + of_index (length (table_fields
                                                (td_table tableData))) * 30)
                      * (1 # 2)) by (field).
    split; [rewrite Hdiv; lra|]. split; [rewrite Hdiv; lra|].
    intros i' Hi'. discriminate Hi'.
Qed.

Lemma connection_point_inside_table_witness :
  td_y ex_posts_data
    < py (getConnectionPoint ex_posts_data (Some "user_id"%string)) /\
  py (getConnectionPoint ex_posts_data (Some "user_id"%string))
    < td_y ex_posts_data + td_height ex_posts_data.
Proof.
  assert (Hw : td_width ex_posts_data = 250) by reflexivity.
  assert (Hh : td_height ex_posts_data
               = 35 + (of_index (length (table_fields
                                           (td_table ex_posts_data))) * 30))
    by (vm_compute; reflexivity).
  destruct (connection_point_inside_table ex_posts_data
              (Some "user_id"%string) Hw Hh) as (_ & _ & Hlo & Hhi & _).
  split; [exact Hlo|exact Hhi].
Defined.

(** X18. The geometry of a connector. Every path starts at the start point
    and ends at the end point. A path of three segments is made of a
    horizontal, a vertical and a horizontal segment, and its last segment
    runs from 70 to the left of the end point into the end point, so the
    connector enters its target from the left; a path of one segment joins
    points less than 15 apart in height. *)
Theorem manhattan_path_geometry (start end_ : Point) :
  let path := createManhattanPath start end_ in
  cmd_point <$> head path = Some start /\
  cmd_point <$> last path = Some end_ /\
  (Qabs (py start - py end_) < 15 -> segments path = [(start, end_)]) /\
  (15 <= Qabs (py start - py end_) ->
   exists b1 b2,
     segments path = [(start, b1); (b1, b2); (b2, end_)] /\
     horizontal (start, b1) /\ vertical (b1, b2) /\ horizontal (b2, end_) /\
     px end_ - px b2 == 70).
Proof.
  intros path. unfold path, createManhattanPath, Math_abs.
  destruct start as [sx sy], end_ as [ex ey]. cbn [px py].
  destruct (num_lt (Qabs (sy - ey)) 15) eqn:Hlt.
  - split; [reflexivity|]. split; [reflexivity|]. split; [reflexivity|].
    intros H. apply num_lt_false in H. congruence.
  - split; [reflexivity|]. split; [reflexivity|]. split.
    + intros H. apply num_lt_true in H. congruence.
    + intros _. eexists. eexists. split; [reflexivity|].
      unfold horizontal, vertical. simpl.
      split; [reflexivity|]. split; [reflexivity|]. split; [reflexivity|].
      ring.
Qed.

Lemma manhattan_path_geometry_witness :
  exists b1 b2,
    segments (createManhattanPath (mkPoint 400 130) (mkPoint 100 100))
      = [(mkPoint 400 130, b1); (b1, b2); (b2, mkPoint 100 100)] /\
    px (mkPoint 100 100) - px b2 == 70.
Proof.
  assert (H : 15 <= Qabs (py (mkPoint 400 130) - py (mkPoint 100 100)))
    by (vm_compute; discriminate).
  destruct (manhattan_path_geometry (mkPoint 400 130) (mkPoint 100 100))
    as (_ & _ & _ & H4).
  destruct (H4 H) as (b1 & b2 & Hs & _ & _ & _ & H70).
  exists b1, b2. split; [exact Hs|exact H70].
Defined.

(** ** The direction of the wheel *)

Lemma onWheel_unchanged_iff d e :
  onWheel d e = d <-> wheel_newZoom d e == zoom d.
Proof.
  unfold onWheel. fold (wheel_newZoom d e). unfold num_neq.
  destruct (Qeq_bool (wheel_newZoom d e) (zoom d)) eqn:Hq; simpl.
  - apply Qeq_bool_iff in Hq. split; [intros _; exact Hq|reflexivity].
  - split.
    + intros Hd. apply (f_equal zoom) in Hd.
      rewrite notifyZoomChange_zoom in Hd. simpl in Hd. rewrite Hd.
      reflexivity.
    + intros Heq. apply Qeq_bool_iff in Heq. congruence.
Qed.

Lemma onWheel_zoom_eq d e : zoom (onWheel d e) == wheel_newZoom d e.
Proof.
  destruct (onWheel_zoom d e) as [->| Hd]; [reflexivity|].
  rewrite Hd. symmetry. apply onWheel_unchanged_iff, Hd.
Qed.

(** X19. The direction of the wheel. With a zoom in the range, a tick with
    a positive [deltaY] multiplies the zoom by 0.95 but not below 0.25 and
    never raises it; any other tick multiplies it by 1.05 but not above 3
    and never lowers it. The handler leaves the state as it is exactly when
    the zoom is already at the bound it is pushed against. *)
Theorem wheel_direction (d : Diagram) (e : WheelEvent) :
  0.25 <= zoom d -> zoom d <= 3 ->
  (0 < wheel_deltaY e ->
     zoom (onWheel d e) == Qmax 0.25 (zoom d * 0.95) /\
     zoom (onWheel d e) <= zoom d /\
     (onWheel d e = d <-> zoom d == 0.25)) /\
  (wheel_deltaY e <= 0 ->
     zoom (onWheel d e) == Qmin 3 (zoom d * 1.05) /\
     zoom d <= zoom (onWheel d e) /\
     (onWheel d e = d <-> zoom d == 3)).
Proof.
  intros Hlo Hhi. split; intros He.
  - assert (Hf : zoomFactor e = 0.95).
    { unfold zoomFactor. apply num_lt_true in He. rewrite He. reflexivity. }
    assert (Hnew : wheel_newZoom d e == Qmax 0.25 (zoom d * 0.95)).
    { unfold wheel_newZoom, Math_max, Math_min, minZoom, maxZoom. rewrite Hf.
      rewrite (Q.min_r 3 (zoom d * 0.95)) by lra. reflexivity. }
    rewrite onWheel_unchanged_iff, onWheel_zoom_eq, Hnew.
    destruct (Q.max_spec 0.25 (zoom d * 0.95)) as [[Hc Hm]|[Hc Hm]];
      rewrite Hm.
    + split; [reflexivity|]. split; [lra|]. split; intros H; lra.
    + split; [reflexivity|]. split; [lra|]. split; intros H; lra.
  - assert (Hf : zoomFactor e = 1.05).
    { unfold zoomFactor. apply num_lt_false in He. rewrite He. reflexivity. }
    assert (Hnew : wheel_newZoom d e == Qmin 3 (zoom d * 1.05)).
    { unfold wheel_newZoom, Math_max, Math_min, minZoom, maxZoom. rewrite Hf.
      apply Q.max_r. apply Q.min_glb; lra. }
    rewrite onWheel_unchanged_iff, onWheel_zoom_eq, Hnew.
    destruct (Q.min_spec 3 (zoom d * 1.05)) as [[Hc Hm]|[Hc Hm]];
      rewrite Hm.
    + split; [reflexivity|]. split; [lra|]. split; intros H; lra.
    + split; [reflexivity|]. split; [lra|]. split; intros H; lra.
Qed.

Lemma wheel_direction_witness :
  zoom (onWheel ex_diagram ex_wheel_out) == Qmax 0.25 (zoom ex_diagram * 0.95) /\
  zoom ex_diagram <= zoom (onWheel ex_diagram ex_wheel_in).
Proof.
  assert (Hlo : 0.25 <= zoom ex_diagram) by (vm_compute; discriminate).
  assert (Hhi : zoom ex_diagram <= 3) by (vm_compute; discriminate).
  assert (Hout : 0 < wheel_deltaY ex_wheel_out) by (vm_compute; reflexivity).
  assert (Hin : wheel_deltaY ex_wheel_in <= 0) by (vm_compute; discriminate).
  destruct (wheel_direction ex_diagram ex_wheel_out Hlo Hhi) as [H1 _].
  destruct (wheel_direction ex_diagram ex_wheel_in Hlo Hhi) as [_ H2].
  destruct (H1 Hout) as (Ha & _). destruct (H2 Hin) as (_ & Hb & _).
  split; [exact Ha|exact Hb].
Defined.

(** ** Identifiers built from two table names *)

Lemma append_eq_split (u a x y : string) :
  (a ++ x)%string = (u ++ y)%string ->
  (String.length u < String.length a)%nat ->
  exists w, w <> EmptyString /\ a = (u ++ w)%string /\ y = (w ++ x)%string.
Proof.
  revert a. induction u as [|c u IH]; intros a Heq Hlen.
  - exists a. simpl in *. split; [|auto].
    destruct a; [simpl in Hlen; lia|discriminate].
  - destruct a as [|c' a]; [simpl in Hlen; lia|].
    simpl in Heq. injection Heq as -> Heq.
    destruct (IH a Heq ltac:(simpl in Hlen; lia)) as (w & Hw & -> & ->).
    exists w. auto.
Qed.

Lemma leftmost_cut_without_to (a b : string) :
  ~ occurs "_to" a ->
  leftmost_cut "_to_" (a ++ "_to_" ++ b) a b.
Proof.
  intros Hno. split; [reflexivity|]. intros u v Huv.
  destruct (le_lt_dec (String.length a) (String.length u)) as [Hle|Hlt];
    [exact Hle|].
  exfalso.
  destruct (append_eq_split u a ("_to_" ++ b) ("_to_" ++ v) Huv Hlt)
    as (w & Hw & Ha & Hv).
  destruct w as [|c1 [|c2 [|c3 w3]]]; simpl in Hv.
  - congruence.
  - injection Hv as _ Hv. discriminate Hv.
  - injection Hv as _ _ Hv. discriminate Hv.
  - injection Hv as <- <- <- _. apply Hno. exists u, w3. exact Ha.
Qed.

(** X20. Identifiers of the form [a_to_b], as the parser of the widget
    builds them. For a relationship that carries nothing but such an
    identifier: when [_to] does not occur in [a] and [_to_] does not occur
    in [b], the endpoints are [a.id] and [b.id], so the two table names are
    read back as they were put in; when [_to_] occurs in [b] the identifier
    has more than two parts and the relationship resolves to nothing. *)
Theorem named_ref_round_trip (a b : string) :
  ~ occurs "_to" a ->
  (~ occurs "_to_" b ->
     parseRelationship (named_ref (a ++ "_to_" ++ b))
     = Some (mkRelInfo a (Some "id"%string) b (Some "id"%string))) /\
  (occurs "_to_" b ->
     parseRelationship (named_ref (a ++ "_to_" ++ b)) = None).
Proof.
  intros Ha. pose proof (leftmost_cut_without_to a b Ha) as Hcut.
  split; intros Hb.
  - assert (Hconv : follows_convention (a ++ "_to_" ++ b) a b)
      by (split; assumption).
    unfold parseRelationship, named_ref.
    cbn [ref_name ref_fromTable ref_toTable].
    change (truthy None) with false. cbn [andb].
    rewrite (follows_convention_includes _ a b Hconv).
    apply follows_convention_split in Hconv. rewrite Hconv. reflexivity.
  - unfold parseRelationship, named_ref.
    cbn [ref_name ref_fromTable ref_toTable].
    change (truthy None) with false. cbn [andb].
    destruct (truthy (Some (a ++ "_to_" ++ b)%string)
              && includes "_to_" (a ++ "_to_" ++ b)); [|reflexivity].
    destruct (split "_to_" (a ++ "_to_" ++ b)) as [|x [|y [|z l]]] eqn:Hs;
      try reflexivity.
    exfalso. apply split_two in Hs as [Hc Hn]; [|discriminate].
    apply cut_Some in Hcut. rewrite Hcut in Hc. injection Hc as <- <-.
    apply cut_None in Hn. exact (Hn Hb).
Qed.

Lemma named_ref_round_trip_witness :
  parseRelationship (named_ref ("order_items" ++ "_to_" ++ "orders"))
    = Some (mkRelInfo "order_items" (Some "id"%string) "orders"
                      (Some "id"%string)) /\
  parseRelationship (named_ref ("a" ++ "_to_" ++ "b_to_c")) = None.
Proof.
  assert (Ha1 : ~ occurs "_to" "order_items")
    by (apply cut_None; vm_compute; reflexivity).
  assert (Hb1 : ~ occurs "_to_" "orders")
    by (apply cut_None; vm_compute; reflexivity).
  assert (Ha2 : ~ occurs "_to" "a")
    by (apply cut_None; vm_compute; reflexivity).
  assert (Hb2 : occurs "_to_" "b_to_c") by (exists "b"%string, "c"%string;
                                            reflexivity).
  destruct (named_ref_round_trip "order_items" "orders" Ha1) as [H1 _].
  destruct (named_ref_round_trip "a" "b_to_c" Ha2) as [_ H2].
  split; [exact (H1 Hb1)|exact (H2 Hb2)].
Defined.

(** ** Zoom by the buttons *)



(** ** The widget *)

Lemma displayed_zoom_view_of d d' :
  view_of d' = view_of d ->
  onZoomChange d = true /\ displayed_zoom d = zoom d ->
  onZoomChange d' = true /\ displayed_zoom d' = zoom d'.
Proof.
  unfold view_of, displayed_zoom. intros [= Hz _ _ _ Ho Hc _ _ _].
  rewrite Hz, Ho, Hc. auto.
Qed.

Lemma displayed_zoom_notified d :
  onZoomChange d = true ->
  onZoomChange (notifyZoomChange d) = true /\
  displayed_zoom (notifyZoomChange d) = zoom (notifyZoomChange d).
Proof.
  intros Ho. unfold notifyZoomChange, displayed_zoom. rewrite Ho. simpl.
  split; [exact Ho|]. rewrite last_snoc. reflexivity.
Qed.

Lemma apply_op_displayed_zoom d o :
  onZoomChange d = true /\ displayed_zoom d = zoom d ->
  onZoomChange (apply_op d o) = true /\
  displayed_zoom (apply_op d o) = zoom (apply_op d o).
Proof.
  intros Hd. pose proof Hd as [Ho Hz].
  destruct (is_view_op o) eqn:Hv.
  - destruct o; try discriminate Hv; cbn [apply_op];
      try (apply displayed_zoom_notified; exact Ho).
    + unfold onWheel. destruct (num_neq _ _); [|exact Hd].
      apply displayed_zoom_notified. exact Ho.
    + unfold onSvgMouseDown. destruct (_ || _); exact Hd.
    + unfold onPanMouseMove, updatePan. destruct (isPanning d); exact Hd.
    + unfold onPanMouseUp. destruct (isPanning d); exact Hd.
    + exact Hd.
    + split; [reflexivity|exact Hz].
  - apply (displayed_zoom_view_of d); [|exact Hd].
    apply apply_op_separate, Hv.
Qed.

(** X22. The zoom display of the widget is never out of date. The widget
    registers its observer on the new renderer and shows 100; from then on,
    whatever happens to the renderer, the number that the display shows is
    the zoom percentage of the renderer. *)
Theorem zoom_display_shows_the_zoom (box : SvgBox) (ops : list Op) :
  let d := run ops (register_onZoomChange (DiagramRenderer_new box)) in
  zoom_display (register_onZoomChange (DiagramRenderer_new box)) = 100%Z /\
  displayed_zoom d = zoom d /\
  zoom_display d = getZoomPercentage d.
Proof.
  intros d. split; [reflexivity|].
  assert (H : onZoomChange d = true /\ displayed_zoom d = zoom d).
  { unfold d, run.
    assert (H0 : onZoomChange (register_onZoomChange (DiagramRenderer_new box))
                 = true /\
                 displayed_zoom (register_onZoomChange (DiagramRenderer_new box))
                 = zoom (register_onZoomChange (DiagramRenderer_new box)))
      by (split; reflexivity).
    revert H0. generalize (register_onZoomChange (DiagramRenderer_new box)).
    induction ops as [|o ops IH]; intros d0 H0; simpl.
    - exact H0.
    - apply IH, apply_op_displayed_zoom, H0. }
  destruct H as [_ H]. split; [exact H|].
  unfold zoom_display, getZoomPercentage, updateZoomDisplay. rewrite H.
  reflexivity.
Qed.

Lemma widget_step_in_sync w ev :
  pan_button_in_sync w -> pan_button_in_sync (widget_step w ev).
Proof.
  unfold pan_button_in_sync. intros [Ha Ht].
  destruct w as [active cur [ba bt bg bb]]. simpl in Ha, Ht. subst ba bt.
  destruct ev; simpl.
  - unfold togglePanMode, updatePanModeUI. destruct active; split; reflexivity.
  - unfold onKeyDown, showTemporaryPanMode. simpl.
    destruct (String.eqb key "Shift"), active; split; reflexivity.
  - unfold onKeyUp, hideTemporaryPanMode. simpl.
    destruct (String.eqb key "Shift"), active; split; reflexivity.
  - split; reflexivity.
  - split; reflexivity.
Qed.

(** X23. The pan mode of the widget. Whatever happens, the pan button
    carries the class [active] and the title [Exit Pan Mode] exactly while
    the pan mode is on. A click on the button flips the mode and shows the
    grab cursor exactly when the mode is on afterwards; turning the mode
    off, and releasing Shift while it is off, bring the widget to rest
    (default cursor, no highlight). While the mode is on, Shift changes
    nothing; keys other than Shift never do. After a pan the cursor is
    [grab] in pan mode and the default one otherwise. *)
Theorem pan_mode_of_the_widget (evs : list WidgetEvent) (key : string) :
  let w := foldl widget_step Widget_new evs in
  btn_active (w_panBtn w) = w_isPanModeActive w /\
  btn_title (w_panBtn w)
    = (if w_isPanModeActive w then "Exit Pan Mode" else "Toggle Pan Mode")%string /\
  w_isPanModeActive (togglePanMode w) = negb (w_isPanModeActive w) /\
  w_cursor (togglePanMode w)
    = Some (if w_isPanModeActive (togglePanMode w) then Grab
            else DefaultCursor) /\
  (w_isPanModeActive w = true ->
     togglePanMode w = widget_at_rest /\
     onKeyDown w key = w /\ onKeyUp w key = w) /\
  (w_isPanModeActive w = false ->
     onKeyUp (onKeyDown w "Shift") "Shift" = widget_at_rest /\
     w_cursor (onKeyDown w "Shift") = Some Grab) /\
  (key <> "Shift"%string -> onKeyDown w key = w /\ onKeyUp w key = w) /\
  w_cursor (widget_step (widget_step w PanStarts) PanEnds)
    = Some (if w_isPanModeActive w then Grab else DefaultCursor).
Proof.
  intros w.
  assert (Hsync : pan_button_in_sync w).
  { unfold w. apply foldl_invariant.
    - intros s a. apply widget_step_in_sync.
    - split; reflexivity. }
  destruct Hsync as [Ha Ht]. clearbody w.
  destruct w as [active cur [ba bt bg bb]]. simpl in Ha, Ht. subst ba bt.
  split; [reflexivity|]. split; [reflexivity|].
  split; [destruct active; reflexivity|].
  split; [destruct active; reflexivity|].
  split; [|split; [|split]].
  - intros H. simpl in H. subst active. unfold onKeyDown, onKeyUp. simpl.
    rewrite !andb_false_r. repeat split; reflexivity.
  - intros H. simpl in H. subst active. split; reflexivity.
  - intros Hk. apply String.eqb_neq in Hk. unfold onKeyDown, onKeyUp.
    rewrite Hk. split; reflexivity.
  - reflexivity.
Qed.

Lemma pan_mode_of_the_widget_witness :
  let w := foldl widget_step Widget_new
                 [KeyDown "Shift"; PanButtonClick; PanStarts; PanEnds] in
  w_isPanModeActive w = true /\
  togglePanMode w = widget_at_rest /\
  onKeyDown w "Shift" = w.
Proof.
  intros w.
  assert (Hw : w_isPanModeActive w = true) by reflexivity.
  destruct (pan_mode_of_the_widget
              [KeyDown "Shift"; PanButtonClick; PanStarts; PanEnds] "Shift")
    as (_ & _ & _ & _ & Hon & _).
  destruct (Hon Hw) as (H1 & H2 & _).
  split; [exact Hw|]. split; [exact H1|exact H2].
Defined.
